(** * DotSync: dotfile scanner, type classifier and format parsers

    A shallow embedding of the discovery, classification and parsing
    pipeline of DotSync ([scanner/dotfile-scanner.ts], [types/constants.ts],
    [parsers/*.ts]) and the properties its specification states about it.

    Conventions.
    - A JavaScript string is a [string]: a sequence of code units below 256
      (the Latin-1 range).  Whitespace, line terminators and case mapping
      are the restrictions of the ECMAScript definitions to that range.
    - A JavaScript regular expression literal is a term of [regex], run by
      a backtracking matcher with ECMAScript's greedy, leftmost semantics.
    - The file system is a fixed [World]; every call into it is recorded in
      a trace, so that "this file was never read" is a statement about the
      trace. *)

From Stdlib Require Import Ascii String ZArith NArith Lia Bool.
From Stdlib Require Import DecimalString.
From stdpp Require Import gmap strings list.

Set Default Proof Using "Type".
Local Open Scope Z_scope.

(* ===================================================================== *)
(** * JavaScript strings *)
(* ===================================================================== *)

Module Js.

Definition chars (s : string) : list ascii := list_ascii_of_string s.
Definition str (l : list ascii) : string := string_of_list_ascii l.

(** [s.length] *)
Definition len (s : string) : nat := String.length s.

(** ECMAScript [WhiteSpace] and [LineTerminator] below code unit 256:
    TAB, LF, VT, FF, CR, SP and NBSP.  This is the set [String.prototype.trim]
    strips and the class [\s] matches. *)
Definition is_space (a : ascii) : bool :=
  let n := nat_of_ascii a in
  ((9 <=? n) && (n <=? 13) || (n =? 32) || (n =? 160))%nat.

(** [LineTerminator] below 256: LF and CR (what [.] refuses to match). *)
Definition is_line_terminator (a : ascii) : bool :=
  let n := nat_of_ascii a in ((n =? 10) || (n =? 13))%nat.

Definition is_upper (a : ascii) : bool :=
  let n := nat_of_ascii a in ((65 <=? n) && (n <=? 90))%nat.
Definition is_lower (a : ascii) : bool :=
  let n := nat_of_ascii a in ((97 <=? n) && (n <=? 122))%nat.
Definition is_digit (a : ascii) : bool :=
  let n := nat_of_ascii a in ((48 <=? n) && (n <=? 57))%nat.
(** The class [\w]. *)
Definition is_word (a : ascii) : bool :=
  is_upper a || is_lower a || is_digit a || Ascii.eqb a "_".

(** [String.prototype.toLowerCase] on one code unit: A-Z and the Latin-1
    capitals U+00C0..U+00DE, except the multiplication sign U+00D7. *)
Definition lower_char (a : ascii) : ascii :=
  let n := nat_of_ascii a in
  if ((65 <=? n) && (n <=? 90)
      || (192 <=? n) && (n <=? 222) && negb (n =? 215))%nat
  then ascii_of_nat (n + 32) else a.

Fixpoint toLowerCase (s : string) : string :=
  match s with
  | EmptyString => EmptyString
  | String a s' => String (lower_char a) (toLowerCase s')
  end.

(** [s.startsWith(p)] *)
Definition startsWith (s p : string) : bool := String.prefix p s.

(** [s.includes(needle)] *)
Fixpoint includes (s needle : string) : bool :=
  String.prefix needle s
  || match s with
     | EmptyString => false
     | String _ s' => includes s' needle
     end.

(** [s.endsWith(p)] *)
Definition endsWith (s p : string) : bool :=
  (len p <=? len s)%nat
  && String.eqb (String.substring (len s - len p) (len p) s) p.

Fixpoint trimStart (s : string) : string :=
  match s with
  | EmptyString => EmptyString
  | String a s' => if is_space a then trimStart s' else s
  end.

(** Trailing whitespace is dropped by keeping a character only when it is
    not whitespace or something that is kept follows it. *)
Fixpoint trimEnd (s : string) : string :=
  match s with
  | EmptyString => EmptyString
  | String a s' =>
      match trimEnd s' with
      | EmptyString => if is_space a then EmptyString else String a EmptyString
      | t => String a t
      end
  end.

(** [s.trim()] *)
Definition trim (s : string) : string := trimEnd (trimStart s).

(** [s.split(sep)] for a one-character separator: never the empty list. *)
Fixpoint split (sep : ascii) (s : string) : list string :=
  match s with
  | EmptyString => [EmptyString]
  | String a s' =>
      if Ascii.eqb a sep then EmptyString :: split sep s'
      else match split sep s' with
           | h :: t => String a h :: t
           | [] => [String a EmptyString]
           end
  end.

Definition LF : ascii := ascii_of_nat 10.

(** [content.split('\n')] *)
Definition lines (content : string) : list string := split LF content.

(** [s.substring(1)] and [s.slice(1)]: everything after the first unit. *)
Definition tail (s : string) : string :=
  match s with EmptyString => EmptyString | String _ s' => s' end.

(** [s.slice(1, -1)] *)
Definition slice_1_m1 (s : string) : string :=
  String.substring 1 (len s - 2) s.

(** Decimal rendering of a natural number, as a template literal prints a
    small non-negative integer. *)
Definition nat_to_string (n : nat) : string :=
  NilZero.string_of_uint (Nat.to_uint n).
Definition N_to_string (n : N) : string :=
  NilZero.string_of_uint (N.to_uint n).

(** The truthiness of a string: [!s] is true exactly for the empty one. *)
Definition truthy (s : string) : bool :=
  match s with EmptyString => false | _ => true end.

End Js.

(* ===================================================================== *)
(** * Regular expressions *)
(* ===================================================================== *)

Module Re.

(** The part of the ECMAScript pattern language the program's literals
    use.  [Chr p] is any atom that consumes one code unit (a literal, a
    class, [.]); [Star] is the greedy [*]; [Group i] is the i-th capturing
    group; [Bol] and [Eol] are [^] and [$] without the multiline flag. *)
Inductive regex : Type :=
| Eps
| Chr (p : ascii → bool)
| Seq (r1 r2 : regex)
| Alt (r1 r2 : regex)
| Star (r : regex)
| Group (i : nat) (r : regex)
| Bol
| Eol.

Definition Plus (r : regex) : regex := Seq r (Star r).
Definition Opt (r : regex) : regex := Alt r Eps.
Definition Lit (a : ascii) : regex := Chr (Ascii.eqb a).
Definition Dot : regex := Chr (λ a, negb (Js.is_line_terminator a)).
Definition Space : regex := Chr Js.is_space.
Definition Word : regex := Chr Js.is_word.
Definition NoneOf (l : list ascii) : regex :=
  Chr (λ a, negb (existsb (Ascii.eqb a) l)).

Fixpoint Word_of (l : list ascii) : regex :=
  match l with
  | [] => Eps
  | a :: l' => Seq (Lit a) (Word_of l')
  end.
(** A literal run of characters. *)
Definition Str (s : string) : regex := Word_of (Js.chars s).

Fixpoint Seqs (rs : list regex) : regex :=
  match rs with
  | [] => Eps
  | r :: rs' => Seq r (Seqs rs')
  end.

(** Captured groups, most recent first. *)
Definition captures := list (nat * list ascii).

Section Matcher.
Context {A : Type}.
(** Length of the whole subject string: [^] holds where the rest of the
    input is all of it. *)
Variable total : nat.

(** The greedy [*]: [body] matches one iteration.  One more iteration is
    tried before stopping; an iteration that consumes nothing is refused,
    as the RepeatMatcher of ECMAScript does.  Every accepted iteration
    shortens the input, so [n], the length of the input, bounds the
    number of iterations. *)
Fixpoint star_loop
    (body : list ascii → captures
            → (list ascii → captures → option A) → option A)
    (k : list ascii → captures → option A)
    (n : nat) (s : list ascii) (c : captures) {struct n} : option A :=
  match n with
  | O => k s c
  | S n' =>
      match body s c
              (λ s' c', if (length s' <? length s)%nat
                        then star_loop body k n' s' c' else None) with
      | Some x => Some x
      | None => k s c
      end
  end.

(** Backtracking matcher in continuation-passing style: [k] is what is
    left of the pattern.  Alternatives are tried left before right,
    which is ECMAScript's order. *)
Fixpoint run (r : regex) (s : list ascii) (c : captures)
    (k : list ascii → captures → option A) {struct r} : option A :=
  match r with
  | Eps => k s c
  | Chr p =>
      match s with
      | a :: s' => if p a then k s' c else None
      | [] => None
      end
  | Seq r1 r2 => run r1 s c (λ s' c', run r2 s' c' k)
  | Alt r1 r2 =>
      match run r1 s c k with
      | Some x => Some x
      | None => run r2 s c k
      end
  | Star r1 => star_loop (run r1) k (length s) s c
  | Group i r1 =>
      run r1 s c
        (λ s' c', k s' ((i, take (length s - length s') s) :: c'))
  | Bol => if (length s =? total)%nat then k s c else None
  | Eol => match s with [] => k s c | _ => None end
  end.
End Matcher.

(** The match at the current position, if any: what is left of the input
    and the groups. *)
Definition match_here (total : nat) (r : regex) (s : list ascii)
  : option (list ascii * captures) :=
  run total r s [] (λ s' c, Some (s', c)).

(** [RegExp.prototype.exec] without the global flag: the first position,
    from the left, at which the pattern matches.  Group 0 is the match. *)
Fixpoint search (total : nat) (r : regex) (s : list ascii)
  : option captures :=
  match match_here total r s with
  | Some (s', c) => Some ((O, take (length s - length s') s) :: c)
  | None =>
      match s with
      | [] => None
      | _ :: s' => search total r s'
      end
  end.

Definition exec (r : regex) (s : string) : option captures :=
  search (length (Js.chars s)) r (Js.chars s).

(** [re.test(s)] *)
Definition test (r : regex) (s : string) : bool :=
  match exec r s with Some _ => true | None => false end.

(** The i-th element of a match array; [None] is [undefined]. *)
Definition group (i : nat) (c : captures) : option string :=
  (λ p, Js.str (snd p)) <$> List.find (λ p, Nat.eqb (fst p) i) c.

End Re.

(* ===================================================================== *)
(** * Paths: the POSIX flavour of Node's [path] module *)
(* ===================================================================== *)

Module Path.

Definition slash : ascii := "/"%char.
Definition dot : ascii := "."%char.

Definition segments (p : string) : list string := Js.split slash p.

Definition is_absolute (p : string) : bool := Js.startsWith p "/".

(** [path.basename(p)]: the last run of characters that are not slashes;
    trailing slashes are ignored. *)
Definition basename (p : string) : string :=
  List.last (filter (λ seg, Js.truthy seg = true) (segments p)) "".

(** The suffix of [s] that starts at its last dot. *)
Fixpoint last_dot_suffix (s : string) : option string :=
  match s with
  | EmptyString => None
  | String a s' =>
      match last_dot_suffix s' with
      | Some t => Some t
      | None => if Ascii.eqb a dot then Some s else None
      end
  end.

(** [path.extname(p)]: from the last dot of the base name to its end;
    empty when there is no dot, when the only dot is the first character
    of the base name, and for the base name [..]. *)
Definition extname (p : string) : string :=
  let b := basename p in
  match last_dot_suffix b with
  | None => ""
  | Some ext =>
      if (Js.len ext =? Js.len b)%nat then ""
      else if String.eqb b ".." then ""
      else ext
  end.

(** [normalizeString]: resolve [.] and [..] segments.  [acc] is the
    result so far, last segment first. *)
Fixpoint normalize_segments (allowAboveRoot : bool) (acc segs : list string)
  : list string :=
  match segs with
  | [] => rev acc
  | seg :: rest =>
      if String.eqb seg "" || String.eqb seg "." then
        normalize_segments allowAboveRoot acc rest
      else if String.eqb seg ".." then
        match acc with
        | top :: acc' =>
            if String.eqb top ".." then
              normalize_segments allowAboveRoot
                (if allowAboveRoot then ".." :: acc else acc) rest
            else normalize_segments allowAboveRoot acc' rest
        | [] =>
            normalize_segments allowAboveRoot
              (if allowAboveRoot then [".."] else []) rest
        end
      else normalize_segments allowAboveRoot (seg :: acc) rest
  end.

Fixpoint join_segments (segs : list string) : string :=
  match segs with
  | [] => ""
  | [seg] => seg
  | seg :: rest => seg +:+ "/" +:+ join_segments rest
  end.

Definition normalizeString (p : string) (allowAboveRoot : bool) : string :=
  join_segments (normalize_segments allowAboveRoot [] (segments p)).

(** [path.normalize(p)] *)
Definition normalize (p : string) : string :=
  if negb (Js.truthy p) then "."
  else
    let isAbsolute := is_absolute p in
    let trailingSeparator := Js.endsWith p "/" in
    let q := normalizeString p (negb isAbsolute) in
    if negb (Js.truthy q) then
      if isAbsolute then "/" else if trailingSeparator then "./" else "."
    else
      let q' := if trailingSeparator then q +:+ "/" else q in
      if isAbsolute then "/" +:+ q' else q'.

(** [path.join(a, b)] *)
Definition join (a b : string) : string :=
  match Js.truthy a, Js.truthy b with
  | false, false => "."
  | true, false => normalize a
  | false, true => normalize b
  | true, true => normalize (a +:+ "/" +:+ b)
  end.

(** [path.resolve(p)] in a process whose working directory is [cwd]. *)
Definition resolve (cwd p : string) : string :=
  let step (acc : string * bool) (q : string) : string * bool :=
    if snd acc then acc
    else if negb (Js.truthy q) then acc
    else (q +:+ "/" +:+ fst acc, is_absolute q) in
  let '(resolvedPath, resolvedAbsolute) := step (step ("", false) p) cwd in
  let q := normalizeString resolvedPath (negb resolvedAbsolute) in
  if resolvedAbsolute then "/" +:+ q
  else if Js.truthy q then q else ".".

End Path.

(* ===================================================================== *)
(** * Types and constants ([types/index.ts], [types/constants.ts]) *)
(* ===================================================================== *)

Inductive ConfigType : Set :=
| bash | zsh | vim | git | ssh | vscode | system | custom.

Global Instance ConfigType_eq_dec : EqDecision ConfigType.
Proof. solve_decision. Defined.

Inductive BackupStatus : Set := not_backed_up | pending | backed_up | error.

(** [{ success: true, data } | { success: false, error }] *)
Inductive Result (A E : Type) : Type :=
| Ok (data : A)
| Err (error : E).
Global Arguments Ok {A E} data.
Global Arguments Err {A E} error.

Definition success {A E} (r : Result A E) : bool :=
  match r with Ok _ => true | Err _ => false end.

(** A JavaScript [Error]: its [name] and its [message]. *)
Record JsError : Type := mkError { err_name : string; err_message : string }.

(** [new Error(message)] *)
Definition new_Error (message : string) : JsError := mkError "Error" message.

(** The names every object inherits from [Object.prototype]: the [in]
    operator finds them on an object literal, and indexing by one of them
    yields the inherited member. *)
Definition Object_prototype_names : list string :=
  [ "constructor"; "__defineGetter__"; "__defineSetter__"; "hasOwnProperty";
    "__lookupGetter__"; "__lookupSetter__"; "isPrototypeOf";
    "propertyIsEnumerable"; "toString"; "valueOf"; "__proto__";
    "toLocaleString" ].

Definition inherited (k : string) : bool :=
  existsb (String.eqb k) Object_prototype_names.

(** What [CONFIG_TYPE_MAPPING[key]] evaluates to when [key in
    CONFIG_TYPE_MAPPING]: a configuration kind or, for an inherited name, a
    member of [Object.prototype] (which is truthy and not a kind). *)
Inductive TypeTag : Type :=
| Kind (k : ConfigType)
| Inherited (member : string).

Definition DEFAULT_SCAN_PATHS : list string :=
  [ "~/.bashrc"; "~/.bash_profile"; "~/.bash_aliases"; "~/.zshrc";
    "~/.zsh_profile"; "~/.oh-my-zsh/custom"; "~/.vimrc"; "~/.nvimrc";
    "~/.gitconfig"; "~/.gitignore_global"; "~/.ssh/config";
    "~/.ssh/known_hosts"; "~/.profile"; "~/.inputrc"; "~/.tmux.conf";
    "~/.screenrc" ].

Definition CONFIG_TYPE_MAPPING : gmap string ConfigType :=
  list_to_map
    [ (".bashrc", bash); (".bash_profile", bash); (".bash_aliases", bash);
      (".zshrc", zsh); (".zsh_profile", zsh);
      (".vimrc", vim); (".nvimrc", vim);
      (".gitconfig", git); (".gitignore_global", git);
      ("config", ssh); ("known_hosts", ssh);
      (".profile", system); (".inputrc", system); (".tmux.conf", system);
      (".screenrc", system) ].

Definition MAX_FILE_SIZE : Z := 10 * 1024 * 1024.

Definition SUPPORTED_EXTENSIONS : list string :=
  [ ".rc"; ".conf"; ".config"; ".profile"; ".bashrc"; ".zshrc"; ".vimrc";
    ".nvimrc"; ".gitconfig"; ".gitignore"; ".ssh"; ".tmux"; ".screen" ].

Record DotfileConfig : Type := mkConfig {
  path : string;
  type : TypeTag;
  content : string;
  lastModified : Z;
  size : N;
  dependencies : list string;
  isActive : bool;
  backupStatus : BackupStatus
}.

(** Every field of [ScanOptions] is optional: [None] is [undefined]. *)
Record ScanOptions : Type := mkOptions {
  paths : option (list string);
  includeHidden : option bool;
  maxFileSize : option Z;
  excludePatterns : option (list string);
  useAI : option bool
}.

Definition no_options : ScanOptions := mkOptions None None None None None.

Inductive ErrorType : Set :=
| permission | not_found | parse_error | size_limit | unknown.

Record ScanError : Type := mkScanError {
  se_path : string;
  se_message : string;
  se_type : ErrorType;
  se_name : string
}.

Record ScanMetadata : Type := mkMetadata {
  totalFiles : nat;
  validConfigs : nat;
  duration : Z;
  startTime : Z;
  endTime : Z
}.

Record ScanResult : Type := mkScanResult {
  configs : list DotfileConfig;
  metadata : ScanMetadata;
  errors : list ScanError
}.

(* ===================================================================== *)
(** * The [RegExp] constructor on glob-derived sources *)
(* ===================================================================== *)

Module Glob.
Import Re.

(** The characters with a meaning of their own in a pattern source. *)
Definition syntax_chars : list ascii :=
  Js.chars "\^$.*+?()[]{}|".

Definition is_syntax_char (a : ascii) : bool :=
  existsb (Ascii.eqb a) syntax_chars.

(** [pattern.replace(/\*/g, '.*')] *)
Fixpoint star_to_dotstar (l : list ascii) : list ascii :=
  match l with
  | [] => []
  | a :: l' =>
      if Ascii.eqb a "*" then "."%char :: "*"%char :: star_to_dotstar l'
      else a :: star_to_dotstar l'
  end.

(** What [new RegExp(source)] does. *)
Inductive compiled : Type :=
| Compiled (r : regex)
| SyntaxError (e : JsError)
| Unmodelled.

Definition nothing_to_repeat (source : list ascii) : JsError :=
  mkError "SyntaxError"
    ("Invalid regular expression: /" +:+ Js.str source
       +:+ "/: Nothing to repeat").

(** [new RegExp(source)] for sources made of ordinary characters, [.] and
    the quantifier [*]: a sequence of atoms, each optionally starred; a
    [*] with no atom before it is a SyntaxError.  The first other syntax
    character ends the modelled fragment: such sources are [Unmodelled]
    and nothing is said about them. *)
Fixpoint compile_from (source rest : list ascii) : compiled :=
  match rest with
  | [] => Compiled Eps
  | a :: rest' =>
      if Ascii.eqb a "*" then SyntaxError (nothing_to_repeat source)
      else if Ascii.eqb a "." || negb (is_syntax_char a) then
        let atom := if Ascii.eqb a "." then Dot else Lit a in
        match rest' with
        | b :: rest'' =>
            if Ascii.eqb b "*" then
              match compile_from source rest'' with
              | Compiled r => Compiled (Seq (Star atom) r)
              | other => other
              end
            else
              match compile_from source rest' with
              | Compiled r => Compiled (Seq atom r)
              | other => other
              end
        | [] => Compiled (Seq atom Eps)
        end
      else Unmodelled
  end.

Definition RegExp (source : string) : compiled :=
  compile_from (Js.chars source) (Js.chars source).

End Glob.

(* ===================================================================== *)
(** * The pure part of [DotfileScanner] *)
(* ===================================================================== *)

(** [key in CONFIG_TYPE_MAPPING] *)
Definition in_mapping (key : string) : bool :=
  bool_decide (is_Some (CONFIG_TYPE_MAPPING !! key)) || inherited key.

(** [CONFIG_TYPE_MAPPING[key]], for a key that is [in] the mapping. *)
Definition mapping_get (key : string) : TypeTag :=
  match CONFIG_TYPE_MAPPING !! key with
  | Some k => Kind k
  | None => Inherited key
  end.

(** [determineConfigType]: [None] is [null]. *)
Definition determineConfigType (filePath : string) : option TypeTag :=
  let fileName := Path.basename filePath in
  let extension := Path.extname filePath in
  if in_mapping fileName then Some (mapping_get fileName)
  else if Js.truthy extension && in_mapping extension then
    Some (mapping_get extension)
  else if existsb (λ ext, Js.includes fileName ext) SUPPORTED_EXTENSIONS then
    Some (Kind custom)
  else None.

(** One callback of [excludePatterns.some(...)]: [None] when the pattern is
    outside the modelled fragment, [Err] when [new RegExp] throws. *)
Definition pattern_matches (path pattern : string)
  : option (Result bool JsError) :=
  match Glob.RegExp (Js.str (Glob.star_to_dotstar (Js.chars pattern))) with
  | Glob.Compiled regex => Some (Ok (Re.test regex path))
  | Glob.SyntaxError e => Some (Err e)
  | Glob.Unmodelled => None
  end.

(** [Array.prototype.some]: left to right, stopping at the first pattern
    that matches or throws. *)
Fixpoint some_pattern (path : string) (patterns : list string)
  : option (Result bool JsError) :=
  match patterns with
  | [] => Some (Ok false)
  | pattern :: rest =>
      match pattern_matches path pattern with
      | Some (Ok false) => some_pattern path rest
      | other => other
      end
  end.

(** [shouldExclude] *)
Definition shouldExclude (path : string) (excludePatterns : option (list string))
  : option (Result bool JsError) :=
  match excludePatterns with
  | None => Some (Ok false)
  | Some patterns => some_pattern path patterns
  end.

(** [categorizeError] *)
Definition categorizeError (error : JsError) : ErrorType :=
  let message := Js.toLowerCase (err_message error) in
  if Js.includes message "permission denied" || Js.includes message "eacces"
  then permission
  else if Js.includes message "no such file" || Js.includes message "enoent"
  then not_found
  else if Js.includes message "too large" then size_limit
  else if Js.includes message "parse" || Js.includes message "syntax"
  then parse_error
  else unknown.

(* ===================================================================== *)
(** * The file system and the scanner's effects *)
(* ===================================================================== *)

Inductive FileKind : Set := RegularFile | Directory | OtherKind.

(** What [stat] resolves to: [isFile()], [isDirectory()], [size], [mtime]. *)
Record Stats : Type := mkStats {
  st_kind : FileKind;
  st_size : N;
  st_mtime : Z
}.

(** An entry of [readdir(dir, { withFileTypes: true })]. *)
Record Dirent : Type := mkDirent {
  d_name : string;
  d_kind : FileKind
}.

(** The environment of one scan.  It does not change while the scan runs.
    A promise that rejects is an [Err]. *)
Record World : Type := mkWorld {
  w_homedir : string;
  w_cwd : string;
  w_stat : string → Result Stats JsError;
  w_readFile : string → Result string JsError;
  w_readdir : string → Result (list Dirent) JsError;
  (** the clock, as a function of the number of file-system calls made *)
  w_clock : nat → Z
}.

(** What Node reports for a path that does not exist. *)
Definition ENOENT (syscall path : string) : JsError :=
  mkError "Error"
    ("ENOENT: no such file or directory, " +:+ syscall +:+ " '" +:+ path
       +:+ "'").

Inductive Event : Type :=
| EvStat (p : string)
| EvReadFile (p : string)
| EvReaddir (p : string).

Global Instance Event_eq_dec : EqDecision Event.
Proof. solve_decision. Defined.

(** The file-system calls made so far, most recent first. *)
Definition Trace := list Event.

(** How a modelled computation ends: with a value, by running out of the
    recursion budget of the directory walk, or by leaving the modelled
    fragment (an exclude pattern [Glob.RegExp] does not cover). *)
Inductive Outcome (A : Type) : Type :=
| Done (a : A)
| OutOfFuel
| OutOfModel.
Global Arguments Done {A} a.
Global Arguments OutOfFuel {A}.
Global Arguments OutOfModel {A}.

Definition IO (A : Type) : Type := Trace → Outcome (A * Trace).

Global Instance IO_ret : MRet IO := λ A a t, Done (a, t).

Global Instance IO_bind : MBind IO := λ A B f m t,
  match m t with
  | Done (a, t') => f a t'
  | OutOfFuel => OutOfFuel
  | OutOfModel => OutOfModel
  end.

Definition ret {A} (a : A) : IO A := mret a.

Definition out_of_fuel {A} : IO A := λ _, OutOfFuel.
Definition out_of_model {A} : IO A := λ _, OutOfModel.

Section Scanner.
Variable w : World.

(** [await stat(p)] *)
Definition stat (p : string) : IO (Result Stats JsError) :=
  λ t, Done (w_stat w p, EvStat p :: t).
(** [await readFile(p, 'utf8')] *)
Definition readFile (p : string) : IO (Result string JsError) :=
  λ t, Done (w_readFile w p, EvReadFile p :: t).
(** [await readdir(p, { withFileTypes: true })] *)
Definition readdir (p : string) : IO (Result (list Dirent) JsError) :=
  λ t, Done (w_readdir w p, EvReaddir p :: t).
(** [new Date()], as milliseconds *)
Definition now : IO Z := λ t, Done (w_clock w (length t), t).

(** [resolvePath] *)
Definition resolvePath (p : string) : string :=
  if Js.startsWith p "~" then Path.join (w_homedir w) (Js.tail p)
  else Path.resolve (w_cwd w) p.

(** [options.maxFileSize || MAX_FILE_SIZE]: [undefined] and [0] are falsy. *)
Definition effectiveMaxFileSize (options : ScanOptions) : Z :=
  match maxFileSize options with
  | Some m => if m =? 0 then MAX_FILE_SIZE else m
  | None => MAX_FILE_SIZE
  end.

Definition file_too_large (sz : N) : JsError :=
  new_Error ("File too large: " +:+ Js.N_to_string sz +:+ " bytes").

(** [scanFile] *)
Definition scanFile (filePath : string) (options : ScanOptions)
  : IO (Result (list DotfileConfig) JsError) :=
  st ← stat filePath;
  match st with
  | Err e => ret (Err e)
  | Ok stats =>
      if Z.of_N (st_size stats) >? effectiveMaxFileSize options then
        ret (Err (file_too_large (st_size stats)))
      else
        rd ← readFile filePath;
        match rd with
        | Err e => ret (Err e)
        | Ok content =>
            match determineConfigType filePath with
            | None => ret (Ok [])
            | Some configType =>
                ret (Ok [ {| path := filePath;
                             type := configType;
                             content := content;
                             lastModified := st_mtime stats;
                             size := st_size stats;
                             dependencies := [];
                             isActive := true;
                             backupStatus := not_backed_up |} ])
            end
        end
  end.

(** [!options.includeHidden] *)
Definition hidden_skipped (options : ScanOptions) : bool :=
  match includeHidden options with
  | Some true => false
  | _ => true
  end.

(** The [for (const entry of entries)] loop of [scanDirectory]; [scanSub]
    is the recursive call on a sub-directory.  An exception of
    [shouldExclude] leaves the loop through the [catch] of [scanDirectory]
    and becomes its failure. *)
Fixpoint walk_entries
    (scanSub : string → IO (Result (list DotfileConfig) JsError))
    (dirPath : string) (options : ScanOptions)
    (entries : list Dirent) (configs : list DotfileConfig)
    {struct entries} : IO (Result (list DotfileConfig) JsError) :=
  match entries with
  | [] => ret (Ok configs)
  | entry :: rest =>
      let fullPath := Path.join dirPath (d_name entry) in
      if hidden_skipped options && Js.startsWith (d_name entry) "."
      then walk_entries scanSub dirPath options rest configs
      else
        match shouldExclude fullPath (excludePatterns options) with
        | None => out_of_model
        | Some (Err e) => ret (Err e)
        | Some (Ok true) => walk_entries scanSub dirPath options rest configs
        | Some (Ok false) =>
            match d_kind entry with
            | RegularFile =>
                result ← scanFile fullPath options;
                match result with
                | Ok data =>
                    walk_entries scanSub dirPath options rest (configs ++ data)
                | Err _ => walk_entries scanSub dirPath options rest configs
                end
            | Directory =>
                result ← scanSub fullPath;
                match result with
                | Ok data =>
                    walk_entries scanSub dirPath options rest (configs ++ data)
                | Err _ => walk_entries scanSub dirPath options rest configs
                end
            | OtherKind => walk_entries scanSub dirPath options rest configs
            end
        end
  end.

(** [scanDirectory].  The recursion of the source follows the directory
    tree, which the file system may make arbitrarily deep: [fuel] bounds
    the depth of the walk. *)
Fixpoint scanDirectory (fuel : nat) (dirPath : string) (options : ScanOptions)
  {struct fuel} : IO (Result (list DotfileConfig) JsError) :=
  match fuel with
  | O => out_of_fuel
  | S fuel' =>
      rd ← readdir dirPath;
      match rd with
      | Err e => ret (Err e)
      | Ok entries =>
          walk_entries (λ sub, scanDirectory fuel' sub options)
            dirPath options entries []
      end
  end.

(** [scanPath] *)
Definition scanPath (fuel : nat) (path : string) (options : ScanOptions)
  : IO (Result (list DotfileConfig) JsError) :=
  st ← stat path;
  match st with
  | Err e => ret (Err e)
  | Ok stats =>
      match st_kind stats with
      | RegularFile => scanFile path options
      | Directory => scanDirectory fuel path options
      | OtherKind =>
          ret (Err (new_Error
                      ("Path is neither file nor directory: " +:+ path)))
      end
  end.

(** [result.error.name || 'ScanError'] *)
Definition name_or_default (e : JsError) : string :=
  if Js.truthy (err_name e) then err_name e else "ScanError".

(** The body of the [for (const path of pathsToScan)] loop of [scan],
    threading the two arrays it appends to. *)
Fixpoint scan_paths (fuel : nat) (options : ScanOptions)
    (pathsToScan : list string)
    (configs : list DotfileConfig) (errors : list ScanError)
  : IO (list DotfileConfig * list ScanError) :=
  match pathsToScan with
  | [] => ret (configs, errors)
  | path :: rest =>
      let resolvedPath := resolvePath path in
      result ← scanPath fuel resolvedPath options;
      match result with
      | Ok data => scan_paths fuel options rest (configs ++ data) errors
      | Err e =>
          scan_paths fuel options rest configs
            (errors ++ [ {| se_path := resolvedPath;
                            se_message := err_message e;
                            se_type := categorizeError e;
                            se_name := name_or_default e |} ])
      end
  end.

(** [options.paths || DEFAULT_SCAN_PATHS]: an array, even an empty one,
    is truthy. *)
Definition pathsToScan (options : ScanOptions) : list string :=
  match paths options with
  | Some ps => ps
  | None => DEFAULT_SCAN_PATHS
  end.

(** [scan].  Nothing inside its [try] block throws, so the [catch] branch
    is never taken and the result is always a success. *)
Definition scan (fuel : nat) (options : ScanOptions)
  : IO (Result ScanResult JsError) :=
  startTime ← now;
  r ← scan_paths fuel options (pathsToScan options) [] [];
  endTime ← now;
  ret (Ok {| configs := fst r;
             metadata := {| totalFiles := length (pathsToScan options);
                            validConfigs := length (fst r);
                            duration := endTime - startTime;
                            startTime := startTime;
                            endTime := endTime |};
             errors := snd r |}).

End Scanner.

(** A scan starts with an empty trace. *)
Definition run_scan (w : World) (fuel : nat) (options : ScanOptions)
  : Outcome (Result ScanResult JsError * Trace) :=
  scan w fuel options [].

(** Whether the content of [p] was read. *)
Definition was_read (p : string) (t : Trace) : Prop := EvReadFile p ∈ t.

(* ===================================================================== *)
(** * Format parsers ([parsers/*.ts]) *)
(* ===================================================================== *)

Module Parsers.
Import Re.

(** In the comments of this module a pattern is quoted from the source
    with the double quote written DQ, and with a blank between a star and
    a closing parenthesis that follows it. *)

Definition DQ : ascii := ascii_of_nat 34.
Definition SQ : ascii := "'"%char.
Definition dq : string := String DQ "".
Definition sq : string := String SQ "".

(** [isValid], [errors], [warnings], [suggestions] *)
Record ValidationResult : Type := mkValidation {
  isValid : bool;
  errors : list string;
  warnings : list string;
  suggestions : list string
}.

(** The literal every [parse] stores in the [validation] field. *)
Definition valid_literal : ValidationResult :=
  {| isValid := true; errors := []; warnings := []; suggestions := [] |}.

(** A parsed value: a string, a boolean, or the number a numeric literal
    denotes (kept as its text; floating point is not modelled). *)
Inductive Value : Type :=
| VStr (s : string)
| VBool (b : bool)
| VNum (literal : string).

(** [obj[key] = value] on an object literal, for a [value] that is not an
    object: assigning to [__proto__] goes to the inherited setter, which
    ignores it; any other key becomes an own property. *)
Definition obj_set {V} (key : string) (value : V) (obj : gmap string V)
  : gmap string V :=
  if String.eqb key "__proto__" then obj else <[key := value]> obj.

(** ** [Number(s)] is not [NaN] *)

Definition Digit : regex := Chr Js.is_digit.
Definition OneOf (s : string) : regex :=
  Chr (λ a, existsb (Ascii.eqb a) (Js.chars s)).
Definition ExponentPart : regex :=
  Seqs [OneOf "eE"; Opt (OneOf "+-"); Plus Digit].

(** [StringNumericLiteral] without the surrounding whitespace: empty, a
    signed decimal literal or [Infinity], or an unsigned binary, octal or
    hexadecimal integer. *)
Definition StrNumericLiteral : regex :=
  Seqs [ Bol;
         Opt (Alt
                (Seq (Opt (OneOf "+-"))
                   (Alt (Str "Infinity")
                      (Alt (Seqs [Plus Digit; Opt (Lit "."); Star Digit;
                                  Opt ExponentPart])
                           (Seqs [Lit "."; Plus Digit; Opt ExponentPart]))))
                (Alt (Seqs [Lit "0"; OneOf "bB"; Plus (OneOf "01")])
                   (Alt (Seqs [Lit "0"; OneOf "oO"; Plus (OneOf "01234567")])
                        (Seqs [Lit "0"; OneOf "xX";
                               Plus (OneOf "0123456789abcdefABCDEF")]))));
         Eol ].

(** [!isNaN(Number(s))] *)
Definition is_numeric (s : string) : bool :=
  Re.test StrNumericLiteral (Js.trim s).

(** [s.replace(/['DQ]/g, '')]: every single and double quote is removed. *)
Fixpoint strip_quotes (s : string) : string :=
  match s with
  | EmptyString => EmptyString
  | String a s' =>
      if Ascii.eqb a SQ || Ascii.eqb a DQ then strip_quotes s'
      else String a (strip_quotes s')
  end.

(** [arr.push(x)] *)
Definition push {A} (arr : list A) (x : A) : list A := arr ++ [x].

(** [`Line ${lineNum}: ${text}`] *)
Definition at_line (lineNum : nat) (text : string) : string :=
  "Line " +:+ Js.nat_to_string lineNum +:+ ": " +:+ text.

Inductive ParsedData : Type :=
| BashData (variables : gmap string Value)
           (imports comments functions aliases : list string)
           (lineCount : nat)
| VimData (settings : gmap string Value) (keyMappings : gmap string string)
          (plugins functions autocmds : list string) (lineCount : nat)
| GitData (sections : gmap string (gmap string Value))
          (aliases remotes : gmap string Value) (lineCount : nat)
| SimpleData (content : string) (lines : nat).

Record ParsedConfig : Type := mkParsed {
  data : ParsedData;
  variables : gmap string Value;
  imports : list string;
  comments : list string;
  validation : ValidationResult
}.

(** The [ConfigParser] interface, as far as the properties below need it:
    [parse] and [validate].  [parse] may leave the modelled fragment of
    JavaScript (see [GitParser]). *)
Record ConfigParser : Type := mkParser {
  parse : DotfileConfig → Outcome (Result ParsedConfig JsError);
  validate : string → Result ValidationResult JsError
}.

(** Accumulators of a [validate] loop. *)
Record Diagnostics : Type := mkDiag {
  dg_errors : list string;
  dg_warnings : list string;
  dg_suggestions : list string
}.
Definition no_diagnostics : Diagnostics := mkDiag [] [] [].

Definition add_error (c : bool) (msg : string) (d : Diagnostics) :=
  if c then mkDiag (push (dg_errors d) msg) (dg_warnings d) (dg_suggestions d)
  else d.
Definition add_warning (c : bool) (msg : string) (d : Diagnostics) :=
  if c then mkDiag (dg_errors d) (push (dg_warnings d) msg) (dg_suggestions d)
  else d.
Definition add_suggestion (c : bool) (msg : string) (d : Diagnostics) :=
  if c then mkDiag (dg_errors d) (dg_warnings d) (push (dg_suggestions d) msg)
  else d.

(** [for (let i = 0; i < lines.length; i++)] with [lineNum = i + 1]. *)
Fixpoint validate_lines (check : nat → string → Diagnostics → Diagnostics)
    (i : nat) (lines : list string) (d : Diagnostics) : Diagnostics :=
  match lines with
  | [] => d
  | line :: rest => validate_lines check (S i) rest (check (S i) line d)
  end.

(** The [return] of every line-based [validate]. *)
Definition validation_of (d : Diagnostics) : ValidationResult :=
  {| isValid := (length (dg_errors d) =? 0)%nat;
     errors := dg_errors d;
     warnings := dg_warnings d;
     suggestions := dg_suggestions d |}.

(* ------------------------------------------------------------------- *)
(** ** [BashParser] *)

Module Bash.

(** [parseValue] *)
Definition parseValue (value : string) : Value :=
  let trimmed := Js.trim value in
  if Js.startsWith trimmed dq && Js.endsWith trimmed dq
  then VStr (Js.slice_1_m1 trimmed)
  else if Js.startsWith trimmed sq && Js.endsWith trimmed sq
  then VStr (Js.slice_1_m1 trimmed)
  else if String.eqb trimmed "true" || String.eqb trimmed "false"
  then VBool (String.eqb trimmed "true")
  else if is_numeric trimmed then VNum trimmed
  else VStr trimmed.

Definition upper_or_underscore (a : ascii) : bool :=
  Js.is_upper a || Ascii.eqb a "_".
Definition upper_digit_or_underscore (a : ascii) : bool :=
  Js.is_upper a || Js.is_digit a || Ascii.eqb a "_".

(** [/^([A-Z_][A-Z0-9_]* )\s*=\s*(.+)$/] *)
Definition varRe : regex :=
  Seqs [ Bol;
         Group 1 (Seq (Chr upper_or_underscore)
                      (Star (Chr upper_digit_or_underscore)));
         Star Space; Lit "="; Star Space; Group 2 (Plus Dot); Eol ].
(** [/^(source|\.)\s+(.+)$/] *)
Definition importRe : regex :=
  Seqs [ Bol; Group 1 (Alt (Str "source") (Lit "."));
         Plus Space; Group 2 (Plus Dot); Eol ].
(** [/^(\w+)\s*\(\s*\)\s*\{/] *)
Definition funcRe : regex :=
  Seqs [ Bol; Group 1 (Plus Word); Star Space; Lit "("; Star Space;
         Lit ")"; Star Space; Lit "{" ].
(** [/^alias\s+(\w+)=(.+)$/] *)
Definition aliasRe : regex :=
  Seqs [ Bol; Str "alias"; Plus Space; Group 1 (Plus Word); Lit "=";
         Group 2 (Plus Dot); Eol ].

(** The five collections the loop of [parse] fills. *)
Record State : Type := mkState {
  s_variables : gmap string Value;
  s_imports : list string;
  s_comments : list string;
  s_functions : list string;
  s_aliases : list string
}.
Definition init : State := mkState ∅ [] [] [] [].

(** One iteration of the loop of [parse]. *)
Definition step (rawLine : string) (s : State) : State :=
  let line := Js.trim rawLine in
  if negb (Js.truthy line) then s
  else if Js.startsWith line "#" then
    mkState (s_variables s) (s_imports s)
      (push (s_comments s) (Js.trim (Js.tail line)))
      (s_functions s) (s_aliases s)
  else
    match Re.exec varRe line with
    | Some m =>
        match group 1 m, group 2 m with
        | Some name, Some value =>
            mkState (obj_set name (parseValue value) (s_variables s))
              (s_imports s) (s_comments s) (s_functions s) (s_aliases s)
        | _, _ => s
        end
    | None =>
    match Re.exec importRe line with
    | Some m =>
        match group 2 m with
        | Some target =>
            mkState (s_variables s) (push (s_imports s) (strip_quotes target))
              (s_comments s) (s_functions s) (s_aliases s)
        | None => s
        end
    | None =>
    match Re.exec funcRe line with
    | Some m =>
        match group 1 m with
        | Some name =>
            mkState (s_variables s) (s_imports s) (s_comments s)
              (push (s_functions s) name) (s_aliases s)
        | None => s
        end
    | None =>
    match Re.exec aliasRe line with
    | Some m =>
        match group 1 m with
        | Some name =>
            mkState (s_variables s) (s_imports s) (s_comments s)
              (s_functions s) (push (s_aliases s) name)
        | None => s
        end
    | None => s
    end end end end.

Definition run_lines (lines : list string) : State :=
  foldl (λ s line, step line s) init lines.

Definition count_backticks (line : string) : nat :=
  length (Js.split "`" line) - 1.

(** The body of the loop of [validate]. *)
Definition check (lineNum : nat) (line : string) (d : Diagnostics)
  : Diagnostics :=
  let d := add_error (Js.includes line "$((" && negb (Js.includes line "))"))
             (at_line lineNum "Unclosed arithmetic expansion") d in
  let d := add_error (Js.includes line "${" && negb (Js.includes line "}"))
             (at_line lineNum "Unclosed variable expansion") d in
  let d := add_error (Js.includes line "`"
                      && negb (count_backticks line mod 2 =? 0)%nat)
             (at_line lineNum "Unclosed command substitution") d in
  let d := add_warning (Js.includes line "rm -rf"
                        && negb (Js.includes line "$HOME"))
             (at_line lineNum
                "Dangerous rm -rf command without path validation") d in
  let d := add_warning (Js.includes line "sudo"
                        && negb (Js.includes line "echo"))
             (at_line lineNum "Sudo command may require password input") d in
  let d := add_suggestion (Js.includes line "export" && Js.includes line "="
                           && negb (Js.includes line dq))
             (at_line lineNum "Consider quoting variable values") d in
  add_suggestion (Js.includes line "cd" && negb (Js.includes line "||"))
    (at_line lineNum "Consider error handling for cd command") d.

Definition validate (content : string) : Result ValidationResult JsError :=
  Ok (validation_of
        (validate_lines check 0 (Js.lines content) no_diagnostics)).

Definition parse (config : DotfileConfig)
  : Outcome (Result ParsedConfig JsError) :=
  let content := content config in
  let lines := Js.lines content in
  let s := run_lines lines in
  match validate content with
  | Err e => Done (Err e)
  | Ok _ =>
      Done (Ok {| data := BashData (s_variables s) (s_imports s)
                            (s_comments s) (s_functions s) (s_aliases s)
                            (length lines);
                  variables := s_variables s;
                  imports := s_imports s;
                  comments := s_comments s;
                  validation := valid_literal |})
  end.

End Bash.

(* ------------------------------------------------------------------- *)
(** ** [VimParser] *)

Module Vim.

(** [/^set\s+(\w+)(?:=([^DQ]+))?/] *)
Definition setRe : regex :=
  Seqs [ Bol; Str "set"; Plus Space; Group 1 (Plus Word);
         Opt (Seq (Lit "=") (Group 2 (Plus (NoneOf [DQ])))) ].
(** [/^(?:nore)?map\s+([^DQ]+)\s+(.+)$/] *)
Definition mapRe : regex :=
  Seqs [ Bol; Opt (Str "nore"); Str "map"; Plus Space;
         Group 1 (Plus (NoneOf [DQ])); Plus Space; Group 2 (Plus Dot);
         Eol ].
(** [/^Plug\s+['DQ]([^'DQ]+)['DQ]/] *)
Definition pluginRe : regex :=
  Seqs [ Bol; Str "Plug"; Plus Space; Chr (λ a, Ascii.eqb a SQ || Ascii.eqb a DQ);
         Group 1 (Plus (NoneOf [SQ; DQ]));
         Chr (λ a, Ascii.eqb a SQ || Ascii.eqb a DQ) ].
(** [/^function\s+(\w+)/] *)
Definition funcRe : regex :=
  Seqs [ Bol; Str "function"; Plus Space; Group 1 (Plus Word) ].
(** [/^autocmd\s+(.+)$/] *)
Definition autocmdRe : regex :=
  Seqs [ Bol; Str "autocmd"; Plus Space; Group 1 (Plus Dot); Eol ].

Record State : Type := mkState {
  s_settings : gmap string Value;
  s_keyMappings : gmap string string;
  s_plugins : list string;
  s_comments : list string;
  s_functions : list string;
  s_autocmds : list string
}.
Definition init : State := mkState ∅ ∅ [] [] [] [].

(** [value || true]: a captured value is never empty. *)
Definition value_or_true (value : option string) : Value :=
  match value with
  | Some v => if Js.truthy v then VStr v else VBool true
  | None => VBool true
  end.

(** One iteration of the loop of [parse]. *)
Definition step (rawLine : string) (s : State) : State :=
  let line := Js.trim rawLine in
  if negb (Js.truthy line) then s
  else if Js.startsWith line dq then
    mkState (s_settings s) (s_keyMappings s) (s_plugins s)
      (push (s_comments s) (Js.trim (Js.tail line)))
      (s_functions s) (s_autocmds s)
  else
    match Re.exec setRe line with
    | Some m =>
        match group 1 m with
        | Some option =>
            mkState (obj_set option (value_or_true (group 2 m)) (s_settings s))
              (s_keyMappings s) (s_plugins s) (s_comments s)
              (s_functions s) (s_autocmds s)
        | None => s
        end
    | None =>
    match Re.exec mapRe line with
    | Some m =>
        match group 1 m, group 2 m with
        | Some key, Some command =>
            mkState (s_settings s) (obj_set key command (s_keyMappings s))
              (s_plugins s) (s_comments s) (s_functions s) (s_autocmds s)
        | _, _ => s
        end
    | None =>
    match Re.exec pluginRe line with
    | Some m =>
        match group 1 m with
        | Some plugin =>
            mkState (s_settings s) (s_keyMappings s)
              (push (s_plugins s) plugin) (s_comments s)
              (s_functions s) (s_autocmds s)
        | None => s
        end
    | None =>
    match Re.exec funcRe line with
    | Some m =>
        match group 1 m with
        | Some name =>
            mkState (s_settings s) (s_keyMappings s) (s_plugins s)
              (s_comments s) (push (s_functions s) name) (s_autocmds s)
        | None => s
        end
    | None =>
    match Re.exec autocmdRe line with
    | Some m =>
        match group 1 m with
        | Some cmd =>
            mkState (s_settings s) (s_keyMappings s) (s_plugins s)
              (s_comments s) (s_functions s) (push (s_autocmds s) cmd)
        | None => s
        end
    | None => s
    end end end end end.

Definition run_lines (lines : list string) : State :=
  foldl (λ s line, step line s) init lines.

Definition plugin_warning : string :=
  "Plugin without plug#begin() - ensure vim-plug is installed".

(** The body of the loop of [validate]. *)
Definition check (lineNum : nat) (line : string) (d : Diagnostics)
  : Diagnostics :=
  let d := add_warning (Js.includes line "map"
                        && negb (Js.includes line "noremap")
                        && Js.includes line "<leader>")
             (at_line lineNum
                "Consider using noremap for leader key mappings") d in
  let d := add_suggestion (Js.includes line "set" && Js.includes line "="
                           && negb (Js.includes line dq))
             (at_line lineNum
                "Consider quoting string values in set commands") d in
  let d := add_warning (Js.includes line "Plug"
                        && negb (Js.includes line "call plug#begin"))
             (at_line lineNum plugin_warning) d in
  add_suggestion (Js.includes line "colorscheme"
                  && negb (Js.includes line "try"))
    (at_line lineNum "Consider wrapping colorscheme in try-catch") d.

Definition validate (content : string) : Result ValidationResult JsError :=
  Ok (validation_of
        (validate_lines check 0 (Js.lines content) no_diagnostics)).

Definition parse (config : DotfileConfig)
  : Outcome (Result ParsedConfig JsError) :=
  let content := content config in
  let lines := Js.lines content in
  let s := run_lines lines in
  match validate content with
  | Err e => Done (Err e)
  | Ok _ =>
      Done (Ok {| data := VimData (s_settings s) (s_keyMappings s)
                            (s_plugins s) (s_functions s) (s_autocmds s)
                            (length lines);
                  variables := ∅;
                  imports := [];
                  comments := s_comments s;
                  validation := valid_literal |})
  end.

End Vim.

(* ------------------------------------------------------------------- *)
(** ** [GitParser] *)

Module Git.

(** [parseValue] *)
Definition parseValue (value : string) : Value :=
  let trimmed := Js.trim value in
  if String.eqb trimmed "true" then VBool true
  else if String.eqb trimmed "false" then VBool false
  else if is_numeric trimmed then VNum trimmed
  else if Js.startsWith trimmed dq && Js.endsWith trimmed dq
          || Js.startsWith trimmed sq && Js.endsWith trimmed sq
  then VStr (Js.slice_1_m1 trimmed)
  else VStr trimmed.

(** [/^\[([^\]]+)\]$/] *)
Definition sectionRe : regex :=
  Seqs [ Bol; Lit "["; Group 1 (Plus (NoneOf ["]"%char])); Lit "]"; Eol ].
(** [/^([^=]+)\s*=\s*(.+)$/] *)
Definition kvRe : regex :=
  Seqs [ Bol; Group 1 (Plus (NoneOf ["="%char])); Star Space; Lit "=";
         Star Space; Group 2 (Plus Dot); Eol ].
(** [/^[^=]+\s*=\s*.+$/] *)
Definition kvLineRe : regex :=
  Seqs [ Bol; Plus (NoneOf ["="%char]); Star Space; Lit "=";
         Star Space; Plus Dot; Eol ].

Record State : Type := mkState {
  s_sections : gmap string (gmap string Value);
  s_aliases : gmap string Value;
  s_remotes : gmap string Value;
  s_comments : list string;
  s_currentSection : string
}.
Definition init : State := mkState ∅ ∅ ∅ [] "".

(** [if (!sections[name]) sections[name] = {}]: an own section and an
    inherited member are both truthy. *)
Definition ensure_section (name : string)
    (sections : gmap string (gmap string Value))
  : gmap string (gmap string Value) :=
  match sections !! name with
  | Some _ => sections
  | None => if inherited name then sections else <[name := ∅]> sections
  end.

(** [currentSection.split(DQ)[1]] *)
Definition remote_name (currentSection : string) : option string :=
  Js.split DQ currentSection !! 1%nat.

(** One iteration of the loop of [parse].  [None]: the line assigns a
    key under a section header named like a member of
    [Object.prototype]; [sections[currentSection]] is then that shared
    built-in object, and writing to it is outside the model. *)
Definition step (rawLine : string) (s : State) : option State :=
  let line := Js.trim rawLine in
  if negb (Js.truthy line) then Some s
  else if Js.startsWith line "#" then
    Some (mkState (s_sections s) (s_aliases s) (s_remotes s)
            (push (s_comments s) (Js.trim (Js.tail line)))
            (s_currentSection s))
  else
    match Re.exec sectionRe line with
    | Some m =>
        match group 1 m with
        | Some name =>
            Some (mkState (ensure_section name (s_sections s))
                    (s_aliases s) (s_remotes s) (s_comments s) name)
        | None => Some s
        end
    | None =>
        match Re.exec kvRe line with
        | Some m =>
            if Js.truthy (s_currentSection s) then
              match group 1 m, group 2 m with
              | Some key, Some value =>
                  let parsedValue := parseValue value in
                  let cur := s_currentSection s in
                  let aliases :=
                    if String.eqb cur "alias"
                    then obj_set key parsedValue (s_aliases s)
                    else s_aliases s in
                  let remotes :=
                    if Js.startsWith cur "remote" then
                      match remote_name cur with
                      | Some remoteName =>
                          if Js.truthy remoteName
                          then obj_set remoteName parsedValue (s_remotes s)
                          else s_remotes s
                      | None => s_remotes s
                      end
                    else s_remotes s in
                  match s_sections s !! cur with
                  | Some section =>
                      Some (mkState
                              (<[cur := obj_set key parsedValue section]>
                                 (s_sections s))
                              aliases remotes (s_comments s) cur)
                  | None => None
                  end
              | _, _ => Some s
              end
            else Some s
        | None => Some s
        end
    end.

Fixpoint run_lines (lines : list string) (s : State) : option State :=
  match lines with
  | [] => Some s
  | line :: rest =>
      match step line s with
      | Some s' => run_lines rest s'
      | None => None
      end
  end.

(** The body of the loop of [validate]. *)
Definition check (lineNum : nat) (line : string) (d : Diagnostics)
  : Diagnostics :=
  let d := add_error (Js.includes line "="
                      && negb (Re.test kvLineRe line))
             (at_line lineNum "Invalid key-value format") d in
  let d := add_error (Js.startsWith line "["
                      && negb (Js.endsWith line "]"))
             (at_line lineNum "Unclosed section header") d in
  let d := add_suggestion (Js.includes line "user.name"
                           && negb (Js.includes line "user.email"))
             (at_line lineNum
                "Consider setting user.email along with user.name") d in
  add_suggestion (Js.includes line "core.editor" && Js.includes line "vim"
                  && negb (Js.includes line "nano"))
    (at_line lineNum
       "Consider using nano for core.editor if vim is not available") d.

Definition validate (content : string) : Result ValidationResult JsError :=
  Ok (validation_of
        (validate_lines check 0 (Js.lines content) no_diagnostics)).

Definition parse (config : DotfileConfig)
  : Outcome (Result ParsedConfig JsError) :=
  let content := content config in
  let lines := Js.lines content in
  match run_lines lines init with
  | None => OutOfModel
  | Some s =>
      match validate content with
      | Err e => Done (Err e)
      | Ok _ =>
          Done (Ok {| data := GitData (s_sections s) (s_aliases s)
                                (s_remotes s) (length lines);
                      variables := ∅;
                      imports := [];
                      comments := s_comments s;
                      validation := valid_literal |})
      end
  end.

End Git.

(* ------------------------------------------------------------------- *)
(** ** [SimpleParser] *)

Module Simple.

Definition parse (config : DotfileConfig)
  : Outcome (Result ParsedConfig JsError) :=
  let content := content config in
  let lines := Js.lines content in
  Done (Ok {| data := SimpleData content (length lines);
              variables := ∅;
              imports := [];
              comments :=
                map Js.trim
                  (filter (λ line, Js.startsWith (Js.trim line) "#" = true)
                     lines);
              validation := valid_literal |}).

Definition validate (_ : string) : Result ValidationResult JsError :=
  Ok {| isValid := true; errors := []; warnings := []; suggestions := [] |}.

End Simple.

(* ------------------------------------------------------------------- *)
(** ** [ParserFactory] *)

Definition BashParser : ConfigParser :=
  {| parse := Bash.parse; validate := Bash.validate |}.
Definition VimParser : ConfigParser :=
  {| parse := Vim.parse; validate := Vim.validate |}.
Definition GitParser : ConfigParser :=
  {| parse := Git.parse; validate := Git.validate |}.
(** [new SimpleParser(configType)]: the kind only labels the summary. *)
Definition SimpleParser (configType : ConfigType) : ConfigParser :=
  {| parse := Simple.parse; validate := Simple.validate |}.

(** [createParser] *)
Definition createParser (configType : ConfigType) : ConfigParser :=
  match configType with
  | bash | zsh => BashParser
  | vim => VimParser
  | git => GitParser
  | ssh => SimpleParser ssh
  | vscode => SimpleParser vscode
  | system => SimpleParser system
  | custom => SimpleParser custom
  end.

(** [getParser]: the per-kind cache only avoids building a stateless
    parser twice. *)
Definition getParser (configType : ConfigType) : ConfigParser :=
  createParser configType.

End Parsers.

(* ===================================================================== *)
(** * An in-memory file system, for concrete scenarios *)
(* ===================================================================== *)

Module Demo.

Inductive Node : Type :=
| File (size : N) (mtime : Z) (content : string)
| Dir (entries : list Dirent).

Definition EISDIR : JsError :=
  mkError "Error" "EISDIR: illegal operation on a directory, read".
Definition ENOTDIR (p : string) : JsError :=
  mkError "Error" ("ENOTDIR: not a directory, scandir '" +:+ p +:+ "'").

(** The world in which exactly the paths of [nodes] exist. *)
Definition world_of (home cwd : string) (nodes : gmap string Node) : World :=
  {| w_homedir := home;
     w_cwd := cwd;
     w_stat p :=
       match nodes !! p with
       | Some (File sz mt _) => Ok (mkStats RegularFile sz mt)
       | Some (Dir _) => Ok (mkStats Directory 4096 0)
       | None => Err (ENOENT "stat" p)
       end;
     w_readFile p :=
       match nodes !! p with
       | Some (File _ _ c) => Ok c
       | Some (Dir _) => Err EISDIR
       | None => Err (ENOENT "open" p)
       end;
     w_readdir p :=
       match nodes !! p with
       | Some (Dir entries) => Ok entries
       | Some (File _ _ _) => Err (ENOTDIR p)
       | None => Err (ENOENT "scandir" p)
       end;
     w_clock n := 1000 + Z.of_nat n |}.

Definition NL : string := String Js.LF "".

Definition bashrc_content : string := "export PATH=$PATH:/usr/local/bin".

(** A home directory with a small [.bashrc], an 11 MiB [.largefile] and a
    sub-directory holding a [.vimrc]. *)
Definition home : gmap string Node :=
  list_to_map
    [ ("/home/u", Dir [ mkDirent ".bashrc" RegularFile;
                        mkDirent ".largefile" RegularFile;
                        mkDirent "notes.conf" RegularFile;
                        mkDirent "sub" Directory ]);
      ("/home/u/.bashrc", File 32 1700000000000 bashrc_content);
      ("/home/u/.largefile", File (11 * 1024 * 1024) 1700000000001 "");
      ("/home/u/notes.conf", File 4 1700000000002 ("a=b" +:+ NL));
      ("/home/u/sub", Dir [ mkDirent ".vimrc" RegularFile ]);
      ("/home/u/sub/.vimrc", File 10 1700000000003 "set number") ].

Definition world : World := world_of "/home/u" "/work" home.

Definition options_for (ps : list string) : ScanOptions :=
  mkOptions (Some ps) None None None (Some false).

Definition config_of (c : string) : DotfileConfig :=
  mkConfig "/home/u/.bashrc" (Kind bash) c 0 0 [] true not_backed_up.

End Demo.

(* ===================================================================== *)
(** * Properties of the format parsers *)
(* ===================================================================== *)

Section ParserProperties.
Import Parsers.

Lemma validation_of_isValid (d : Diagnostics) :
  isValid (validation_of d) = false ↔ errors (validation_of d) ≠ [].
Proof.
  unfold validation_of; simpl.
  destruct (dg_errors d) as [|e es]; simpl; split; congruence.
Qed.

(** C6.  Whatever the parser (shell, vim, git or the generic one) and
    whatever the text, [validate] succeeds, and in its result [isValid] is
    false exactly when the error list is not empty; so a result whose
    error list is empty is valid, whatever its warnings and suggestions. *)
Theorem C6_validity_iff_no_errors (configType : ConfigType) (text : string) :
  ∃ v : ValidationResult,
    validate (createParser configType) text = Ok v
    ∧ (isValid v = false ↔ errors v ≠ [])
    ∧ (errors v = [] → isValid v = true).
Proof.
  assert (Hline : ∀ d, ∃ v, @Ok _ JsError (validation_of d) = Ok v
            ∧ (isValid v = false ↔ errors v ≠ [])
            ∧ (errors v = [] → isValid v = true)).
  { intros d. exists (validation_of d). split; [done|].
    pose proof (validation_of_isValid d) as H. split; [done|].
    intros He. destruct (isValid (validation_of d)) eqn:E; [done|].
    by destruct (proj1 H eq_refl He). }
  destruct configType; simpl;
    try (apply Hline);
    (eexists; split; [reflexivity|]; simpl; split; [split|]; done).
Qed.

(** The failing input of C7: a vim-plug block. *)
Definition plug_block : string :=
  "call plug#begin('~/.vim/plugged')" +:+ Demo.NL
  +:+ "Plug 'tpope/vim-fugitive'" +:+ Demo.NL
  +:+ "call plug#end()".

(** C7.  On a file whose first line calls [plug#begin] and whose second
    line declares a plugin, the vim validator still emits the
    plugin-without-initialization warning for the declaration: the test
    for [call plug#begin] looks at the declaring line only, never at the
    rest of the file. *)
Theorem C7_plugin_warning_despite_plug_begin :
  Js.includes plug_block "plug#begin" = true
  ∧ ∃ v, Vim.validate plug_block = Ok v
         ∧ warnings v = [at_line 2 Vim.plugin_warning].
Proof. split; [reflexivity|]. eexists; split; reflexivity. Qed.

(** C8.  For every parser (shell, vim, git, generic), a successful [parse]
    carries the constant validation
    [{isValid: true, errors: [], warnings: [], suggestions: []}]: the
    outcome of the [validate] call inside [parse] is dropped, so the field
    is that constant even for a content on which [validate] reports errors
    (see [parse_ignores_validate_errors]). *)
Theorem C8_parse_validation_is_constant
    (configType : ConfigType) (config : DotfileConfig) (pc : ParsedConfig) :
  parse (createParser configType) config = Done (Ok pc) →
  validation pc = valid_literal.
Proof.
  destruct configType; simpl;
    unfold Bash.parse, Vim.parse, Git.parse, Simple.parse;
    simpl; try destruct (Git.run_lines _ _); intros H; by simplify_eq.
Qed.

(** [parse] returns for every input of the shell, vim and generic
    parsers; the git parser returns unless a key is assigned under a
    section named like a member of [Object.prototype]. *)
Lemma parse_returns (configType : ConfigType) (config : DotfileConfig) :
  (∃ pc, parse (createParser configType) config = Done (Ok pc))
  ∨ (configType = git
     ∧ parse (createParser configType) config = OutOfModel).
Proof.
  destruct configType; simpl;
    unfold Bash.parse, Vim.parse, Git.parse, Simple.parse; simpl;
    try (left; eexists; reflexivity).
  destruct (Git.run_lines _ _); [left; eexists; reflexivity | by right].
Qed.

(** A shell file with an unclosed command substitution, and a git file
    with a malformed assignment. *)
Definition unclosed_backtick : DotfileConfig :=
  Demo.config_of ("FOO=1" +:+ Demo.NL +:+ "echo `ls").
Definition malformed_git : DotfileConfig :=
  Demo.config_of ("[user]" +:+ Demo.NL +:+ "name=").

(** On both, [parse] succeeds with the constant validation although
    [validate] reports an error for the same content. *)
Example parse_ignores_validate_errors :
  ∀ parser config, (parser, config) ∈ [ (BashParser, unclosed_backtick);
                                        (GitParser, malformed_git) ] →
    ∃ pc v, parse parser config = Done (Ok pc)
            ∧ validation pc = valid_literal
            ∧ validate parser (content config) = Ok v
            ∧ isValid v = false ∧ errors v ≠ [].
Proof.
  intros parser config Hin.
  repeat (apply elem_of_cons in Hin as [Hin|Hin]; [simplify_eq|]);
    [| |by apply elem_of_nil in Hin];
    (do 2 eexists; repeat (split; [reflexivity|]); done).
Qed.

Definition malformed_git_parsed : ParsedConfig :=
  {| data := GitData {[ "user" := ∅ ]} ∅ ∅ 2;
     variables := ∅; imports := []; comments := [];
     validation := valid_literal |}.

Lemma C8_witness :
  parse (createParser git) malformed_git = Done (Ok malformed_git_parsed)
  ∧ validation malformed_git_parsed = valid_literal.
Proof.
  split; [reflexivity|].
  apply (C8_parse_validation_is_constant git malformed_git).
  reflexivity.
Defined.

End ParserProperties.

(* ===================================================================== *)
(** * Facts about strings *)
(* ===================================================================== *)

Section StringFacts.

Lemma app_cons a s t : String a s +:+ t = String a (s +:+ t).
Proof. reflexivity. Qed.

Lemma app_nil_l t : "" +:+ t = t.
Proof. reflexivity. Qed.

Lemma toLowerCase_app s t :
  Js.toLowerCase (s +:+ t) = Js.toLowerCase s +:+ Js.toLowerCase t.
Proof.
  induction s as [|a s IH]; [done|].
  rewrite app_cons. simpl. by rewrite IH.
Qed.

(** All the characters of a string satisfy [P]. *)
Fixpoint all_chars (P : ascii → bool) (s : string) : bool :=
  match s with
  | EmptyString => true
  | String a s' => P a && all_chars P s'
  end.

Lemma lower_char_digit a : Js.is_digit a = true → Js.lower_char a = a.
Proof.
  unfold Js.is_digit, Js.lower_char. intros H.
  apply andb_true_iff in H as [H1 H2].
  apply Nat.leb_le in H1, H2.
  destruct (_ || _) eqn:E; [|done].
  apply orb_true_iff in E as [E|E];
    repeat (apply andb_true_iff in E as [E ?]); apply Nat.leb_le in E; lia.
Qed.

Lemma toLowerCase_digits s :
  all_chars Js.is_digit s = true → Js.toLowerCase s = s.
Proof.
  induction s as [|a s IH]; [done|]. simpl. intros H.
  apply andb_true_iff in H as [Ha Hs].
  by rewrite lower_char_digit, IH.
Qed.

Lemma prefix_cons_ne c n d r : c ≠ d → String.prefix (String c n) (String d r) = false.
Proof. intros H. simpl. by destruct (ascii_dec c d). Qed.

(** A needle none of whose characters satisfies [P] does not notice what
    follows the text once a character satisfying [P] has come. *)
Lemma prefix_app_foreign P needle head d r :
  all_chars (λ a, negb (P a)) needle = true → P d = true →
  String.prefix needle (head +:+ String d r) = String.prefix needle head.
Proof.
  intros Hn Hd. revert head.
  induction needle as [|c n IH]; intros head; [by destruct head|].
  simpl in Hn. apply andb_true_iff in Hn as [Hc Hn].
  destruct head as [|h head].
  - rewrite app_nil_l. apply prefix_cons_ne. intros ->. by rewrite Hd in Hc.
  - rewrite app_cons. simpl. destruct (ascii_dec c h); [by apply IH|done].
Qed.

Lemma includes_app_foreign P needle head d r :
  needle ≠ "" →
  all_chars (λ a, negb (P a)) needle = true → P d = true →
  Js.includes (head +:+ String d r) needle
  = Js.includes head needle || Js.includes (String d r) needle.
Proof.
  intros Hne Hn Hd. induction head as [|h head IH].
  - rewrite app_nil_l. by destruct needle.
  - rewrite app_cons. cbn [Js.includes].
    rewrite <- (app_cons h head (String d r)).
    rewrite (prefix_app_foreign P) by done.
    rewrite IH. by rewrite orb_assoc.
Qed.

Lemma includes_skip_foreign P needle run tail :
  needle ≠ "" →
  all_chars (λ a, negb (P a)) needle = true →
  all_chars P run = true →
  Js.includes (run +:+ tail) needle = Js.includes tail needle.
Proof.
  intros Hne Hn. induction run as [|d run IH]; [done|].
  cbn [all_chars]. intros H. apply andb_true_iff in H as [Hd Hrun].
  rewrite app_cons. cbn [Js.includes]. rewrite IH by done.
  destruct needle as [|c n]; [done|].
  rewrite prefix_cons_ne; [done|].
  simpl in Hn. apply andb_true_iff in Hn as [Hc _].
  intros ->. by rewrite Hd in Hc.
Qed.

(** A text [head ++ run ++ tail] whose middle run is made of characters
    foreign to the needle contains the needle only inside [head] or inside
    [tail]. *)
Lemma includes_sandwich P needle head run tail :
  needle ≠ "" → run ≠ "" →
  all_chars (λ a, negb (P a)) needle = true →
  all_chars P run = true →
  Js.includes (head +:+ run +:+ tail) needle
  = Js.includes head needle || Js.includes tail needle.
Proof.
  intros Hne Hrun Hn Hr. destruct run as [|d run]; [done|].
  simpl in Hr. pose proof Hr as Hr'. apply andb_true_iff in Hr' as [Hd _].
  rewrite app_cons, (includes_app_foreign P) by done.
  by rewrite <- app_cons, (includes_skip_foreign P).
Qed.

Lemma string_of_uint_digits (d : Decimal.uint) :
  all_chars Js.is_digit (NilEmpty.string_of_uint d) = true.
Proof. induction d; simpl; auto. Qed.

Lemma N_to_string_digits (n : N) :
  all_chars Js.is_digit (Js.N_to_string n) = true
  ∧ Js.N_to_string n ≠ "".
Proof.
  unfold Js.N_to_string, NilZero.string_of_uint.
  pose proof (string_of_uint_digits (N.to_uint n)) as H.
  destruct (N.to_uint n); (split; [exact H || reflexivity | discriminate]).
Qed.

End StringFacts.

(* ===================================================================== *)
(** * Properties of the scanner *)
(* ===================================================================== *)

Section ScannerProperties.
Variable w : World.

(** The record [scanFile] builds. *)
Definition record_of (filePath : string) (configType : TypeTag)
    (stats : Stats) (text : string) : DotfileConfig :=
  {| path := filePath; type := configType; content := text;
     lastModified := st_mtime stats; size := st_size stats;
     dependencies := []; isActive := true; backupStatus := not_backed_up |}.

(** [scanFile], case by case. *)
Lemma scanFile_stat_fails filePath o e t :
  w_stat w filePath = Err e →
  scanFile w filePath o t = Done (Err e, EvStat filePath :: t).
Proof. intros H. unfold scanFile, stat, mbind, IO_bind. by rewrite H. Qed.

Lemma scanFile_too_large filePath o stats t :
  w_stat w filePath = Ok stats →
  Z.of_N (st_size stats) > effectiveMaxFileSize o →
  scanFile w filePath o t
  = Done (Err (file_too_large (st_size stats)), EvStat filePath :: t).
Proof.
  intros H Hsz. unfold scanFile, stat, mbind, IO_bind. rewrite H.
  by apply Z.gtb_gt in Hsz as ->.
Qed.

Lemma scanFile_within_limit filePath o stats t :
  w_stat w filePath = Ok stats →
  Z.of_N (st_size stats) ≤ effectiveMaxFileSize o →
  scanFile w filePath o t
  = Done (match w_readFile w filePath with
          | Err e => Err e
          | Ok text =>
              match determineConfigType filePath with
              | None => Ok []
              | Some configType =>
                  Ok [record_of filePath configType stats text]
              end
          end, EvReadFile filePath :: EvStat filePath :: t).
Proof.
  intros H Hsz. unfold scanFile, stat, readFile, mbind, IO_bind. rewrite H.
  assert ((Z.of_N (st_size stats) >? effectiveMaxFileSize o) = false) as ->.
  { rewrite Z.gtb_ltb. by apply Z.ltb_ge. }
  destruct (w_readFile w filePath); [|done].
  by destruct (determineConfigType filePath).
Qed.

(** [scanFile] looks at [maxFileSize] only. *)
Lemma scanFile_options filePath o o' :
  maxFileSize o = maxFileSize o' →
  scanFile w filePath o = scanFile w filePath o'.
Proof.
  intros H. unfold scanFile, effectiveMaxFileSize. by rewrite H.
Qed.

(** C10.  When [maxFileSize] is supplied as 0 the limit applied is the
    default, 10 MiB, not zero: a non-empty file smaller than the default
    limit that can be read and classified is read and yields its record,
    not a size-limit error. *)
Theorem C10_zero_max_size_means_default
    (o : ScanOptions) (filePath : string) (stats : Stats) (text : string)
    (configType : TypeTag) (t : Trace) :
  maxFileSize o = Some 0 →
  w_stat w filePath = Ok stats →
  (0 < st_size stats)%N →
  Z.of_N (st_size stats) < 10 * 1024 * 1024 →
  w_readFile w filePath = Ok text →
  determineConfigType filePath = Some configType →
  effectiveMaxFileSize o = 10 * 1024 * 1024
  ∧ scanFile w filePath o t
    = Done (Ok [record_of filePath configType stats text],
            EvReadFile filePath :: EvStat filePath :: t).
Proof.
  intros Hzero Hstat Hpos Hsmall Hread Hkind.
  assert (Heff : effectiveMaxFileSize o = 10 * 1024 * 1024).
  { unfold effectiveMaxFileSize. by rewrite Hzero. }
  split; [done|].
  rewrite (scanFile_within_limit _ _ stats) by (rewrite ?Heff; (lia || done)).
  by rewrite Hread, Hkind.
Qed.

(** [scanPath] on a regular file is [scanFile] after one more [stat]. *)
Lemma scanPath_file fuel p o stats t :
  w_stat w p = Ok stats → st_kind stats = RegularFile →
  scanPath w fuel p o t = scanFile w p o (EvStat p :: t).
Proof.
  intros H Hk. unfold scanPath at 1, stat at 1, mbind, IO_bind.
  by rewrite H, Hk.
Qed.

Lemma scanPath_stat_fails fuel p o e t :
  w_stat w p = Err e →
  scanPath w fuel p o t = Done (Err e, EvStat p :: t).
Proof.
  intros H. unfold scanPath, stat, mbind, IO_bind. by rewrite H.
Qed.

(** [scan] for a single requested path, in terms of [scanPath]. *)
Lemma scan_single fuel o p t :
  pathsToScan o = [p] →
  scan w fuel o t
  = match scanPath w fuel (resolvePath w p) o t with
    | Done (r, t') =>
        let cs := match r with Ok data => data | Err _ => [] end in
        let es := match r with
                  | Ok _ => []
                  | Err e => [ {| se_path := resolvePath w p;
                                  se_message := err_message e;
                                  se_type := categorizeError e;
                                  se_name := name_or_default e |} ]
                  end in
        Done (Ok {| configs := cs;
                    metadata := {| totalFiles := 1;
                                   validConfigs := length cs;
                                   duration := w_clock w (length t')
                                               - w_clock w (length t);
                                   startTime := w_clock w (length t);
                                   endTime := w_clock w (length t') |};
                    errors := es |}, t')
    | OutOfFuel => OutOfFuel
    | OutOfModel => OutOfModel
    end.
Proof.
  intros Hp. unfold scan, now, mbind, IO_bind, ret, mret, IO_ret.
  rewrite Hp. simpl. unfold mbind, IO_bind.
  destruct (scanPath w fuel (resolvePath w p) o t) as [[[data|e] t']| |];
    simpl; done.
Qed.

(** In a directory walk, an entry that is hidden under the hidden-file
    policy, or that the Exclusion Matcher matches, is skipped: it is neither
    stat'ed nor read. *)
Lemma walk_entries_skips scanSub dir o entry rest cs :
  hidden_skipped o && Js.startsWith (d_name entry) "." = true
  ∨ shouldExclude (Path.join dir (d_name entry)) (excludePatterns o)
    = Some (Ok true) →
  walk_entries w scanSub dir o (entry :: rest) cs
  = walk_entries w scanSub dir o rest cs.
Proof.
  intros [H|H]; simpl; [by rewrite H|].
  rewrite H. by destruct (_ && _).
Qed.

(** The options of a scan with the walk policy replaced. *)
Definition with_walk_policy (o : ScanOptions)
    (hidden : option bool) (exclude : option (list string)) : ScanOptions :=
  {| paths := paths o; includeHidden := hidden;
     maxFileSize := maxFileSize o; excludePatterns := exclude;
     useAI := useAI o |}.

(** The failure of an oversized file is categorised [size_limit]. *)
Lemma categorizeError_too_large (sz : N) :
  categorizeError (file_too_large sz) = size_limit.
Proof.
  destruct (N_to_string_digits sz) as [Hd Hne].
  unfold categorizeError, file_too_large, new_Error. simpl err_message.
  rewrite !toLowerCase_app, (toLowerCase_digits _ Hd).
  rewrite !(includes_sandwich Js.is_digit) by done.
  reflexivity.
Qed.

(** ** What a scan reads and what it records *)

(** [stat] reports for [q] a size within the effective maximum. *)
Definition within_limit (o : ScanOptions) (q : string) : Prop :=
  ∃ st, w_stat w q = Ok st ∧ Z.of_N (st_size st) ≤ effectiveMaxFileSize o.

(** Every file read between the traces [t] and [t'] is within the limit. *)
Definition reads_ok (o : ScanOptions) (t t' : Trace) : Prop :=
  ∀ q, was_read q t' → was_read q t ∨ within_limit o q.

(** Every record is the record of a file within the limit. *)
Definition records_ok (o : ScanOptions) (cs : list DotfileConfig) : Prop :=
  ∀ c, c ∈ cs → within_limit o (path c).

(** A computation that reads and records files within the limit only. *)
Definition sound (o : ScanOptions)
    (m : IO (Result (list DotfileConfig) JsError)) : Prop :=
  ∀ t r t', m t = Done (r, t') →
    reads_ok o t t' ∧ ∀ data, r = Ok data → records_ok o data.

Lemma reads_ok_refl o t : reads_ok o t t.
Proof. intros q Hq. by left. Qed.

Lemma reads_ok_trans o t1 t2 t3 :
  reads_ok o t1 t2 → reads_ok o t2 t3 → reads_ok o t1 t3.
Proof.
  intros H12 H23 q Hq. destruct (H23 q Hq) as [H|H]; [by apply H12|by right].
Qed.

Lemma reads_ok_stat o q t : reads_ok o t (EvStat q :: t).
Proof.
  intros x Hx. apply elem_of_cons in Hx as [Hx|Hx]; [done|by left].
Qed.

Lemma records_ok_app o cs ds :
  records_ok o cs → records_ok o ds → records_ok o (cs ++ ds).
Proof.
  intros Hc Hd c Hin. apply elem_of_app in Hin as [Hin|Hin]; auto.
Qed.

Lemma records_ok_nil o : records_ok o [].
Proof. intros c Hc. by apply elem_of_nil in Hc. Qed.

Lemma scanFile_sound o q : sound o (scanFile w q o).
Proof.
  intros t r t' H. destruct (w_stat w q) as [stats|e] eqn:Hstat.
  - destruct (Z_gt_le_dec (Z.of_N (st_size stats)) (effectiveMaxFileSize o))
      as [Hbig|Hsmall].
    + rewrite (scanFile_too_large _ _ stats) in H by done. simplify_eq.
      split; [apply reads_ok_stat|done].
    + rewrite (scanFile_within_limit _ _ stats) in H by done. simplify_eq.
      assert (Hq : within_limit o q) by by exists stats.
      split.
      * intros x Hx. apply elem_of_cons in Hx as [Hx|Hx]; [right; by simplify_eq|].
        apply elem_of_cons in Hx as [Hx|Hx]; [done|by left].
      * intros data Hdata. destruct (w_readFile w q); [|done].
        destruct (determineConfigType q); simplify_eq;
          [|apply records_ok_nil].
        intros c Hc. apply list_elem_of_singleton in Hc as ->. done.
  - rewrite (scanFile_stat_fails _ _ e) in H by done. simplify_eq.
    split; [apply reads_ok_stat|done].
Qed.

(** The loop of [scanDirectory] keeps what it has collected and adds what
    the File Scanner and the walks of the sub-directories return. *)
Lemma walk_entries_sound o scanSub dir :
  (∀ sub, sound o (scanSub sub)) →
  ∀ entries cs t r t',
    walk_entries w scanSub dir o entries cs t = Done (r, t') →
    reads_ok o t t'
    ∧ ∀ data, r = Ok data → records_ok o cs → records_ok o data.
Proof.
  intros Hsub. induction entries as [|entry rest IH]; intros cs t r t' H.
  - simpl in H. unfold ret, mret, IO_ret in H. simplify_eq.
    split; [apply reads_ok_refl|]. intros data ?; by simplify_eq.
  - simpl in H.
    destruct (hidden_skipped o && Js.startsWith (d_name entry) ".");
      [by apply IH|].
    destruct (shouldExclude _ _) as [[[|]|e]|]; [by apply IH| | |done].
    + destruct (d_kind entry); [| |by apply IH].
      * unfold mbind, IO_bind in H.
        destruct (scanFile w _ o t) as [[r1 t1]| |] eqn:E1; [|done..].
        destruct (scanFile_sound _ _ _ _ _ E1) as [Hr1 Hd1].
        destruct r1 as [data1|e1].
        -- destruct (IH _ _ _ _ H) as [Hr Hd].
           split; [by eapply reads_ok_trans|].
           intros data Hdata Hcs. apply (Hd _ Hdata).
           apply records_ok_app; [done|by apply Hd1].
        -- destruct (IH _ _ _ _ H) as [Hr Hd].
           split; [by eapply reads_ok_trans|done].
      * unfold mbind, IO_bind in H.
        destruct (scanSub _ t) as [[r1 t1]| |] eqn:E1; [|done..].
        destruct (Hsub _ _ _ _ E1) as [Hr1 Hd1].
        destruct r1 as [data1|e1].
        -- destruct (IH _ _ _ _ H) as [Hr Hd].
           split; [by eapply reads_ok_trans|].
           intros data Hdata Hcs. apply (Hd _ Hdata).
           apply records_ok_app; [done|by apply Hd1].
        -- destruct (IH _ _ _ _ H) as [Hr Hd].
           split; [by eapply reads_ok_trans|done].
    + unfold ret, mret, IO_ret in H. simplify_eq.
      split; [apply reads_ok_refl|done].
Qed.

Lemma scanDirectory_sound o fuel : ∀ dir, sound o (scanDirectory w fuel dir o).
Proof.
  induction fuel as [|fuel IH]; intros dir t r t' H; [done|].
  simpl in H. unfold mbind, IO_bind, readdir in H.
  destruct (w_readdir w dir) as [entries|e].
  - destruct (walk_entries_sound o _ dir IH _ _ _ _ _ H) as [Hr Hd].
    split.
    + intros q Hq. destruct (Hr q Hq) as [Hq'|]; [|by right].
      apply elem_of_cons in Hq' as [?|?]; [done|by left].
    + intros data Hdata. apply (Hd _ Hdata), records_ok_nil.
  - unfold ret, mret, IO_ret in H. simplify_eq. split; [|done].
    intros q Hq. apply elem_of_cons in Hq as [?|?]; [done|by left].
Qed.

Lemma scanPath_sound o fuel p : sound o (scanPath w fuel p o).
Proof.
  intros t r t' H. unfold scanPath, stat, mbind, IO_bind in H.
  destruct (w_stat w p) as [stats|e].
  - destruct (st_kind stats).
    + destruct (scanFile_sound _ _ _ _ _ H) as [Hr Hd].
      split; [|done]. eapply reads_ok_trans; [apply reads_ok_stat|done].
    + destruct (scanDirectory_sound _ _ _ _ _ _ H) as [Hr Hd].
      split; [|done]. eapply reads_ok_trans; [apply reads_ok_stat|done].
    + unfold ret, mret, IO_ret in H. simplify_eq.
      split; [apply reads_ok_stat|done].
  - unfold ret, mret, IO_ret in H. simplify_eq.
    split; [apply reads_ok_stat|done].
Qed.

Lemma scan_paths_sound o fuel ps : ∀ cs es t cs' es' t',
  scan_paths w fuel o ps cs es t = Done ((cs', es'), t') →
  reads_ok o t t' ∧ (records_ok o cs → records_ok o cs').
Proof.
  induction ps as [|p ps IH]; intros cs es t cs' es' t' H.
  - simpl in H. unfold ret, mret, IO_ret in H. simplify_eq.
    split; [apply reads_ok_refl|done].
  - simpl in H. unfold mbind, IO_bind in H.
    destruct (scanPath w fuel _ o t) as [[r1 t1]| |] eqn:E1; [|done..].
    destruct (scanPath_sound _ _ _ _ _ _ E1) as [Hr1 Hd1].
    destruct r1 as [data1|e1]; destruct (IH _ _ _ _ _ _ H) as [Hr Hd].
    + split; [by eapply reads_ok_trans|].
      intros Hcs. apply Hd, records_ok_app; [done|by apply Hd1].
    + split; [by eapply reads_ok_trans|done].
Qed.

(** [scan] always succeeds when it returns, and its metadata counts the
    requested paths and the records. *)
Lemma scan_result fuel o t r t' :
  scan w fuel o t = Done (r, t') →
  ∃ cs es, scan_paths w fuel o (pathsToScan o) [] [] t = Done ((cs, es), t')
    ∧ r = Ok {| configs := cs;
                metadata := {| totalFiles := length (pathsToScan o);
                               validConfigs := length cs;
                               duration := w_clock w (length t')
                                           - w_clock w (length t);
                               startTime := w_clock w (length t);
                               endTime := w_clock w (length t') |};
                errors := es |}.
Proof.
  unfold scan, now, mbind, IO_bind, ret, mret, IO_ret.
  destruct (scan_paths w fuel o (pathsToScan o) [] [] t)
    as [[[cs es] t1]| |]; [|done..].
  intros H. simplify_eq. by exists cs, es.
Qed.

(** ** When a scan returns *)

(** Every exclude pattern is in the fragment [Glob.RegExp] models. *)
Definition modelled (o : ScanOptions) : bool :=
  match excludePatterns o with
  | None => true
  | Some patterns =>
      forallb (λ pattern,
                 match Glob.RegExp
                         (Js.str (Glob.star_to_dotstar (Js.chars pattern))) with
                 | Glob.Unmodelled => false
                 | _ => true
                 end) patterns
  end.

(** The directory tree under [dir] is at most [d] levels deep. *)
Fixpoint depth_within (d : nat) (dir : string) : bool :=
  match d with
  | O => false
  | S d' =>
      match w_readdir w dir with
      | Err _ => true
      | Ok entries =>
          forallb (λ entry,
                     match d_kind entry with
                     | Directory =>
                         depth_within d' (Path.join dir (d_name entry))
                     | _ => true
                     end) entries
      end
  end.

(** A requested path that is a directory has modelled exclude patterns
    and a tree at most [d] levels deep. *)
Definition top_within (o : ScanOptions) (d : nat) (p : string) : bool :=
  match w_stat w p with
  | Ok st =>
      match st_kind st with
      | Directory => modelled o && depth_within d p
      | _ => true
      end
  | Err _ => true
  end.

Definition returns {A} (m : IO A) : Prop := ∀ t, ∃ a t', m t = Done (a, t').

Lemma shouldExclude_modelled o q :
  modelled o = true → ∃ r, shouldExclude q (excludePatterns o) = Some r.
Proof.
  unfold modelled, shouldExclude.
  destruct (excludePatterns o) as [patterns|]; [|by eexists].
  induction patterns as [|pattern rest IH]; simpl; [by eexists|].
  intros H. apply andb_true_iff in H as [Hp Hrest].
  unfold pattern_matches. destruct (Glob.RegExp _); [|by eexists|done].
  destruct (Re.test r q); [by eexists|by apply IH].
Qed.

Lemma scanFile_returns q o : returns (scanFile w q o).
Proof.
  intros t. unfold scanFile, stat, readFile, mbind, IO_bind.
  destruct (w_stat w q) as [stats|]; [|by do 2 eexists].
  destruct (_ >? _); [by do 2 eexists|].
  destruct (w_readFile w q); [|by do 2 eexists].
  destruct (determineConfigType q); by do 2 eexists.
Qed.

Lemma walk_entries_returns o scanSub dir entries :
  modelled o = true →
  (∀ entry, entry ∈ entries → d_kind entry = Directory →
            returns (scanSub (Path.join dir (d_name entry)))) →
  ∀ cs, returns (walk_entries w scanSub dir o entries cs).
Proof.
  intros Hmod. induction entries as [|entry rest IH]; intros Hsub cs t.
  - by do 2 eexists.
  - assert (Hrest : ∀ cs, returns (walk_entries w scanSub dir o rest cs)).
    { apply IH. intros e He. apply Hsub. by right. }
    simpl. destruct (_ && _); [apply Hrest|].
    destruct (shouldExclude_modelled o (Path.join dir (d_name entry)) Hmod)
      as [[[|]|e] ->]; [apply Hrest| |by do 2 eexists].
    destruct (d_kind entry) eqn:Hk; [| |apply Hrest].
    + unfold mbind, IO_bind.
      destruct (scanFile_returns (Path.join dir (d_name entry)) o t)
        as ([data|e] & t1 & ->); apply Hrest.
    + unfold mbind, IO_bind.
      destruct (Hsub entry (list_elem_of_here _ _) Hk t)
        as ([data|e] & t1 & ->); apply Hrest.
Qed.

Lemma scanDirectory_returns o d : ∀ dir,
  modelled o = true → depth_within d dir = true →
  returns (scanDirectory w d dir o).
Proof.
  induction d as [|d IH]; intros dir Hmod Hd t; [done|].
  simpl in *. unfold mbind, IO_bind, readdir.
  destruct (w_readdir w dir) as [entries|e]; [|by do 2 eexists].
  apply walk_entries_returns; [done|].
  intros entry Hin Hk. apply IH; [done|].
  rewrite forallb_forall in Hd. apply list_elem_of_In, Hd in Hin.
  by rewrite Hk in Hin.
Qed.

Lemma scanPath_returns o d q :
  top_within o d q = true → returns (scanPath w d q o).
Proof.
  unfold top_within. intros H t. unfold scanPath, stat, mbind, IO_bind.
  destruct (w_stat w q) as [stats|e]; [|by do 2 eexists].
  destruct (st_kind stats); [apply scanFile_returns| |by do 2 eexists].
  apply andb_true_iff in H as [??]. by apply scanDirectory_returns.
Qed.

Lemma scan_paths_returns o d ps :
  Forall (λ p, top_within o d (resolvePath w p) = true) ps →
  ∀ cs es, returns (scan_paths w d o ps cs es).
Proof.
  induction 1 as [|p ps Hp _ IH]; intros cs es t; [by do 2 eexists|].
  simpl. unfold mbind, IO_bind.
  destruct (scanPath_returns o d _ Hp t) as ([data|e] & t1 & ->); apply IH.
Qed.

(** With exclude patterns in the modelled fragment and a fuel that covers
    the depth of every requested directory, [scan] returns. *)
Lemma scan_returns o d :
  Forall (λ p, top_within o d (resolvePath w p) = true) (pathsToScan o) →
  returns (scan w d o).
Proof.
  intros H t. unfold scan, now, mbind, IO_bind, ret, mret, IO_ret.
  destruct (scan_paths_returns o d _ H [] [] t) as ([cs es] & t1 & ->).
  by do 2 eexists.
Qed.

(** C3.  Scanning the path list [/nonexistent/file], a path that does not
    exist, returns a successful result with no record, exactly one error,
    of category not-found, and [totalFiles = 1].  In general a scan
    returns whenever the fuel covers the depth of the requested
    directories, and in every result [totalFiles] is the number of
    requested top-level paths and [validConfigs] the number of records. *)
Theorem C3_missing_path_and_counts (fuel : nat) (o : ScanOptions) :
  (paths o = Some ["/nonexistent/file"] →
   w_stat w "/nonexistent/file" = Err (ENOENT "stat" "/nonexistent/file") →
   ∃ r t, run_scan w fuel o = Done (Ok r, t)
          ∧ configs r = []
          ∧ (∃ e, errors r = [e] ∧ se_type e = not_found)
          ∧ totalFiles (metadata r) = 1%nat)
  ∧ (Forall (λ p, top_within o fuel (resolvePath w p) = true) (pathsToScan o) →
     ∃ r t, run_scan w fuel o = Done (Ok r, t)
            ∧ totalFiles (metadata r) = length (pathsToScan o)
            ∧ validConfigs (metadata r) = length (configs r))
  ∧ (∀ r t, run_scan w fuel o = Done (r, t) →
            ∃ sr, r = Ok sr
                  ∧ totalFiles (metadata sr) = length (pathsToScan o)
                  ∧ validConfigs (metadata sr) = length (configs sr)).
Proof.
  assert (Hgen : ∀ r t, run_scan w fuel o = Done (r, t) →
            ∃ sr, r = Ok sr
                  ∧ totalFiles (metadata sr) = length (pathsToScan o)
                  ∧ validConfigs (metadata sr) = length (configs sr)).
  { intros r t H. apply scan_result in H as (cs & es & _ & ->).
    by eexists. }
  split; [|split; [|done]].
  - intros Hp Hstat. unfold run_scan.
    assert (Hres : resolvePath w "/nonexistent/file" = "/nonexistent/file")
      by reflexivity.
    rewrite (scan_single _ _ "/nonexistent/file")
      by (unfold pathsToScan; by rewrite Hp).
    rewrite Hres, (scanPath_stat_fails _ _ _ _ _ Hstat). simpl.
    do 2 eexists. split; [reflexivity|]. simpl.
    split; [done|]. split; [|done]. eexists. split; [reflexivity|].
    reflexivity.
  - intros Hd. destruct (scan_returns o fuel Hd []) as (r & t & H).
    destruct (Hgen _ _ H) as (sr & -> & ?). by exists sr, t.
Qed.

(** ** Oversized files *)

(** The error a scan reports for an oversized file requested at top level. *)
Definition too_large_error (p : string) (stats : Stats) : ScanError :=
  {| se_path := p;
     se_message := err_message (file_too_large (st_size stats));
     se_type := size_limit;
     se_name := "Error" |}.

Lemma scan_paths_errors fuel o p stats ps :
  w_stat w p = Ok stats → st_kind stats = RegularFile →
  Z.of_N (st_size stats) > effectiveMaxFileSize o →
  ∀ cs es t cs' es' t',
    scan_paths w fuel o ps cs es t = Done ((cs', es'), t') →
    filter (λ e, se_path e = p) es'
    = filter (λ e, se_path e = p) es
      ++ replicate (length (filter (λ q, resolvePath w q = p) ps))
           (too_large_error p stats).
Proof.
  intros Hstat Hfile Hbig.
  induction ps as [|q ps IH]; intros cs es t cs' es' t' H.
  - simpl in H. unfold ret, mret, IO_ret in H. simplify_eq.
    by rewrite filter_nil, app_nil_r.
  - simpl in H. unfold mbind, IO_bind in H.
    destruct (decide (resolvePath w q = p)) as [Hq|Hq].
    + rewrite Hq, (scanPath_file _ _ _ stats),
        (scanFile_too_large _ _ stats) in H by done.
      apply IH in H. rewrite categorizeError_too_large in H.
      rewrite H, (filter_cons_True _ q) by done.
      rewrite filter_app, filter_cons_True, filter_nil by done.
      by rewrite <- app_assoc.
    + rewrite filter_cons_False by done.
      destruct (scanPath w fuel _ o t) as [[[data|e] t1]| |]; [| |done..];
        apply IH in H; [done|].
      rewrite H, filter_app, filter_cons_False, filter_nil by done.
      by rewrite app_nil_r.
Qed.

(** C2 (amended).  Take a regular file whose stat-reported size exceeds the
    effective maximum: the configured [maxFileSize] when it is supplied and
    not zero, the default otherwise.  The File Scanner fails on it with an
    error of the size-limit category, after the [stat] and without reading
    it.  Any scan that returns has no record for that path, never read it,
    and reports for it one size-limit error per time it was requested at
    top level; and the scan that requests only that path returns no record
    and exactly one error, of the size-limit category. *)
Theorem C2_oversized_file_is_refused_unread
    (fuel : nat) (o : ScanOptions) (p : string) (stats : Stats) :
  w_stat w p = Ok stats →
  st_kind stats = RegularFile →
  Z.of_N (st_size stats) > effectiveMaxFileSize o →
  (∀ t, ∃ e, scanFile w p o t = Done (Err e, EvStat p :: t)
             ∧ categorizeError e = size_limit)
  ∧ (∀ r t, run_scan w fuel o = Done (Ok r, t) →
       (∀ c, c ∈ configs r → path c ≠ p)
       ∧ filter (λ e, se_path e = p) (errors r)
         = replicate (length (filter (λ q, resolvePath w q = p) (pathsToScan o)))
             (too_large_error p stats)
       ∧ ¬ was_read p t)
  ∧ (∀ q, paths o = Some [q] → resolvePath w q = p →
       ∃ r t, run_scan w fuel o = Done (Ok r, t)
              ∧ configs r = []
              ∧ errors r = [too_large_error p stats]
              ∧ ¬ was_read p t).
Proof.
  intros Hstat Hfile Hbig.
  assert (Hnot : ¬ within_limit o p).
  { intros (st & Hst & Hle). rewrite Hstat in Hst. simplify_eq. lia. }
  split; [|split].
  - intros t. eexists. split; [by apply scanFile_too_large|].
    apply categorizeError_too_large.
  - intros r t H. apply scan_result in H as (cs & es & H & Hr).
    simplify_eq. simpl.
    destruct (scan_paths_sound _ _ _ _ _ _ _ _ _ H) as [Hreads Hrec].
    split; [|split].
    + intros c Hc Heq. apply Hnot. rewrite <- Heq.
      apply Hrec; [apply records_ok_nil|done].
    + by rewrite (scan_paths_errors _ _ p stats _ Hstat Hfile Hbig
                    _ _ _ _ _ _ H).
    + intros Hread. destruct (Hreads p Hread) as [Hin|Hin]; [|done].
      by apply elem_of_nil in Hin.
  - intros q Hq Hres. unfold run_scan.
    rewrite (scan_single _ _ q) by (unfold pathsToScan; by rewrite Hq).
    rewrite Hres, (scanPath_file _ _ _ stats),
      (scanFile_too_large _ _ stats) by done.
    do 2 eexists. split; [reflexivity|]. simpl.
    split; [done|]. split.
    + unfold too_large_error. do 2 f_equal. apply categorizeError_too_large.
    + intros Hread. do 2 (apply elem_of_cons in Hread as [?|Hread]; [done|]).
      by apply elem_of_nil in Hread.
Qed.

End ScannerProperties.

(* ===================================================================== *)
(** * Requested files and the walk policy *)
(* ===================================================================== *)

Section RequestedFiles.
Variable w : World.

(** The calls of a computation are added to those made before it. *)
Definition grows {A} (m : IO A) : Prop :=
  ∀ t a t', m t = Done (a, t') → ∃ new, t' = new ++ t.

Lemma grows_step (ev : Event) (t t' : Trace) :
  (∃ new, t' = new ++ ev :: t) → ∃ new, t' = new ++ t.
Proof.
  intros [new ->]. exists (new ++ [ev]). by rewrite <- app_assoc.
Qed.

Lemma grows_trans (t t1 t' : Trace) :
  (∃ new, t1 = new ++ t) → (∃ new, t' = new ++ t1) → ∃ new, t' = new ++ t.
Proof.
  intros [n1 ->] [n2 ->]. exists (n2 ++ n1). by rewrite app_assoc.
Qed.

Lemma scanFile_grows o q : grows (scanFile w q o).
Proof.
  intros t r t' H. unfold scanFile, stat, readFile, mbind, IO_bind in H.
  destruct (w_stat w q) as [stats|];
    [|unfold ret, mret, IO_ret in H; simplify_eq; by exists [EvStat q]].
  destruct (_ >? _);
    [unfold ret, mret, IO_ret in H; simplify_eq; by exists [EvStat q]|].
  destruct (w_readFile w q);
    [destruct (determineConfigType q)|];
    unfold ret, mret, IO_ret in H; simplify_eq;
    by exists [EvReadFile q; EvStat q].
Qed.

Lemma walk_entries_grows o scanSub dir :
  (∀ sub, grows (scanSub sub)) →
  ∀ entries cs, grows (walk_entries w scanSub dir o entries cs).
Proof.
  intros Hsub. induction entries as [|entry rest IH]; intros cs t r t' H.
  - simpl in H. unfold ret, mret, IO_ret in H. simplify_eq. by exists [].
  - simpl in H.
    destruct (hidden_skipped o && Js.startsWith (d_name entry) ".");
      [by eapply IH|].
    destruct (shouldExclude _ _) as [[[|]|e]|];
      [by eapply IH| |unfold ret, mret, IO_ret in H; simplify_eq; by exists []
      |done].
    destruct (d_kind entry); [| |by eapply IH]; unfold mbind, IO_bind in H.
    + destruct (scanFile w _ o t) as [[r1 t1]| |] eqn:E1; [|done..].
      apply scanFile_grows in E1.
      eapply grows_trans; [exact E1|]. destruct r1; by eapply IH.
    + destruct (scanSub _ t) as [[r1 t1]| |] eqn:E1; [|done..].
      apply Hsub in E1.
      eapply grows_trans; [exact E1|]. destruct r1; by eapply IH.
Qed.

Lemma scanDirectory_grows o fuel : ∀ dir, grows (scanDirectory w fuel dir o).
Proof.
  induction fuel as [|fuel IH]; intros dir t r t' H; [done|].
  simpl in H. unfold mbind, IO_bind, readdir in H.
  destruct (w_readdir w dir) as [entries|e].
  - apply grows_step with (EvReaddir dir).
    eapply walk_entries_grows; [exact IH|exact H].
  - unfold ret, mret, IO_ret in H. simplify_eq. by exists [EvReaddir dir].
Qed.

Lemma scanPath_grows o fuel p : grows (scanPath w fuel p o).
Proof.
  intros t r t' H. unfold scanPath, stat, mbind, IO_bind in H.
  destruct (w_stat w p) as [stats|e];
    [|unfold ret, mret, IO_ret in H; simplify_eq; by exists [EvStat p]].
  apply grows_step with (EvStat p). destruct (st_kind stats).
  - by eapply scanFile_grows.
  - by eapply scanDirectory_grows.
  - unfold ret, mret, IO_ret in H. simplify_eq. by exists [].
Qed.

(** The loop of [scan] only appends: to the records and to the calls. *)
Lemma scan_paths_appends o fuel ps : ∀ cs es t cs' es' t',
  scan_paths w fuel o ps cs es t = Done ((cs', es'), t') →
  (∃ more, cs' = cs ++ more) ∧ (∃ new, t' = new ++ t).
Proof.
  induction ps as [|p ps IH]; intros cs es t cs' es' t' H.
  - simpl in H. unfold ret, mret, IO_ret in H. simplify_eq.
    split; [exists []; by rewrite app_nil_r|by exists []].
  - simpl in H. unfold mbind, IO_bind in H.
    destruct (scanPath w fuel _ o t) as [[r1 t1]| |] eqn:E1; [|done..].
    apply scanPath_grows in E1. destruct r1 as [data|e].
    + apply IH in H as [[more ->] Ht]. split.
      * exists (data ++ more). by rewrite app_assoc.
      * by eapply grows_trans.
    + apply IH in H as [Hcs Ht]. split; [done|]. by eapply grows_trans.
Qed.

(** A requested regular file within the limit, readable and of a known
    kind, is read and recorded by the loop of [scan], wherever it stands
    in the list of requests. *)
Lemma scan_paths_requested_file o fuel p stats text ty :
  w_stat w (resolvePath w p) = Ok stats →
  st_kind stats = RegularFile →
  Z.of_N (st_size stats) ≤ effectiveMaxFileSize o →
  w_readFile w (resolvePath w p) = Ok text →
  determineConfigType (resolvePath w p) = Some ty →
  ∀ ps cs es t cs' es' t',
    p ∈ ps →
    scan_paths w fuel o ps cs es t = Done ((cs', es'), t') →
    record_of (resolvePath w p) ty stats text ∈ cs'
    ∧ EvReadFile (resolvePath w p) ∈ t'.
Proof.
  intros Hstat Hfile Hsize Hread Hty.
  induction ps as [|q ps IH]; intros cs es t cs' es' t' Hin H.
  - by apply elem_of_nil in Hin.
  - simpl in H. unfold mbind, IO_bind in H.
    apply elem_of_cons in Hin as [<-|Hin].
    + rewrite (scanPath_file w _ _ _ stats) in H by done.
      rewrite (scanFile_within_limit w _ _ stats) in H by done.
      rewrite Hread, Hty in H.
      apply scan_paths_appends in H as [[more ->] [new ->]]. split.
      * apply elem_of_app. left. apply elem_of_app. right.
        apply list_elem_of_here.
      * apply elem_of_app. right. apply list_elem_of_here.
    + destruct (scanPath w fuel _ o t) as [[r1 t1]| |]; [|done..].
      destruct r1; by eapply IH.
Qed.

(** C9.  The hidden-file policy and the Exclusion Matcher act on the
    entries of a directory walk only.  A regular file requested as a
    top-level path is handed by [scan], through [scanPath], to the File
    Scanner, whatever [includeHidden] and [excludePatterns] are, also when
    its name starts with a dot and [includeHidden] is false and when a
    pattern matches its path: the scan of that one path returns, its calls
    are the [stat] of [scanPath] followed by those of the File Scanner, and
    its records and its error are the File Scanner's; in a scan of any
    list of requests that returns, such a file that is within the size
    limit, readable and of a known kind has been read and has its record.
    The same entry met in a directory walk is skipped. *)
Theorem C9_walk_policy_spares_top_level_files
    (fuel : nat) (o : ScanOptions) (p : string) (stats : Stats) :
  w_stat w (resolvePath w p) = Ok stats →
  st_kind stats = RegularFile →
  (∀ t, scanPath w fuel (resolvePath w p) o t
        = scanFile w (resolvePath w p) o (EvStat (resolvePath w p) :: t))
  ∧ (paths o = Some [p] →
     ∀ hidden exclude,
       run_scan w fuel (with_walk_policy o hidden exclude)
       = run_scan w fuel (with_walk_policy o (Some true) None))
  ∧ (∀ scanSub dir entry rest cs,
       Path.join dir (d_name entry) = resolvePath w p →
       hidden_skipped o && Js.startsWith (d_name entry) "." = true
       ∨ shouldExclude (resolvePath w p) (excludePatterns o) = Some (Ok true) →
       walk_entries w scanSub dir o (entry :: rest) cs
       = walk_entries w scanSub dir o rest cs)
  ∧ (paths o = Some [p] →
     ∀ hidden exclude,
       ∃ result t' sr,
         scanFile w (resolvePath w p) (with_walk_policy o hidden exclude)
           [EvStat (resolvePath w p)]
         = Done (result, t')
         ∧ run_scan w fuel (with_walk_policy o hidden exclude)
           = Done (Ok sr, t')
         ∧ match result with
           | Ok data => configs sr = data ∧ errors sr = []
           | Err e =>
               configs sr = []
               ∧ ∃ e', errors sr = [e']
                       ∧ se_path e' = resolvePath w p
                       ∧ se_message e' = err_message e
           end)
  ∧ (∀ text ty r t,
       p ∈ pathsToScan o →
       Z.of_N (st_size stats) ≤ effectiveMaxFileSize o →
       w_readFile w (resolvePath w p) = Ok text →
       determineConfigType (resolvePath w p) = Some ty →
       run_scan w fuel o = Done (Ok r, t) →
       record_of (resolvePath w p) ty stats text ∈ configs r
       ∧ was_read (resolvePath w p) t).
Proof.
  intros Hstat Hfile. split; [|split; [|split; [|split]]].
  - intros t. by apply scanPath_file with stats.
  - intros Hp hidden exclude. unfold run_scan.
    rewrite !(scan_single w _ _ p) by (unfold pathsToScan; simpl; by rewrite Hp).
    rewrite !(scanPath_file w _ _ _ stats) by done.
    by rewrite (scanFile_options w _ (with_walk_policy o hidden exclude)
                  (with_walk_policy o (Some true) None)).
  - intros scanSub dir entry rest cs Hjoin H. apply walk_entries_skips.
    by rewrite Hjoin.
  - intros Hp hidden exclude. unfold run_scan.
    rewrite (scan_single w _ _ p) by (unfold pathsToScan; simpl; by rewrite Hp).
    rewrite (scanPath_file w _ _ _ stats) by done.
    destruct (scanFile_returns w (resolvePath w p)
                (with_walk_policy o hidden exclude)
                [EvStat (resolvePath w p)]) as (result & t' & Hsf).
    rewrite Hsf. exists result, t'. eexists. split; [done|].
    split; [reflexivity|]. simpl. destruct result as [data|e]; [done|].
    split; [done|]. by eexists.
  - intros text ty r t Hin Hsize Hread Hty H. unfold run_scan in H.
    apply scan_result in H as (cs & es & H & Hr). simplify_eq. simpl.
    by eapply (scan_paths_requested_file o fuel p stats text ty).
Qed.

End RequestedFiles.

(** ** Oversized files: the claim as first stated, and concrete runs *)

(** The maximum as the claim words it: the configured maximum, or the
    default when none is configured. *)
Definition stated_maximum (o : ScanOptions) : Z :=
  match maxFileSize o with
  | Some m => m
  | None => MAX_FILE_SIZE
  end.

(** [{ paths: ['/home/u/.bashrc'], maxFileSize: 0 }] *)
Definition zero_limit : ScanOptions :=
  mkOptions (Some ["/home/u/.bashrc"]) None (Some 0) None None.

(** C2 with "the configured maximum" read as the value supplied fails when
    that value is 0: the 32-byte [.bashrc] exceeds a maximum of 0, and yet
    the scan reads it, returns its record and reports no error. *)
Lemma C2_counterexample :
  ∃ stats r t,
    w_stat Demo.world (resolvePath Demo.world "/home/u/.bashrc") = Ok stats
    ∧ st_kind stats = RegularFile
    ∧ Z.of_N (st_size stats) > stated_maximum zero_limit
    ∧ run_scan Demo.world 0 zero_limit = Done (Ok r, t)
    ∧ length (configs r) = 1%nat
    ∧ errors r = []
    ∧ was_read "/home/u/.bashrc" t.
Proof.
  do 3 eexists. repeat (split; [reflexivity|]).
  apply list_elem_of_here.
Qed.

(** [{ paths: ['~'], includeHidden: true }] *)
Definition walk_home : ScanOptions :=
  mkOptions (Some ["~"]) (Some true) None None None.

(** An oversized file met in a directory walk: the File Scanner stats it
    and fails, and the walk drops the failure, so the scan result has
    neither a record nor an error for it. *)
Example walked_oversized_file_reports_no_error :
  ∃ r t,
    run_scan Demo.world 2 walk_home = Done (Ok r, t)
    ∧ EvStat "/home/u/.largefile" ∈ t
    ∧ ¬ was_read "/home/u/.largefile" t
    ∧ map path (configs r)
      = ["/home/u/.bashrc"; "/home/u/notes.conf"; "/home/u/sub/.vimrc"]
    ∧ errors r = [].
Proof.
  do 2 eexists. split; [by vm_compute|]. unfold was_read.
  split; [apply (bool_decide_unpack _); by vm_compute|].
  split; [apply (bool_decide_unpack _); by vm_compute|]. done.
Qed.

Definition largefile_stats : Stats :=
  mkStats RegularFile (11 * 1024 * 1024) 1700000000001.

Lemma C2_witness :
  ∃ r t,
    run_scan Demo.world 0 (Demo.options_for ["~/.largefile"]) = Done (Ok r, t)
    ∧ configs r = []
    ∧ errors r = [too_large_error "/home/u/.largefile" largefile_stats]
    ∧ ¬ was_read "/home/u/.largefile" t.
Proof.
  destruct (C2_oversized_file_is_refused_unread Demo.world 0
              (Demo.options_for ["~/.largefile"]) "/home/u/.largefile"
              largefile_stats eq_refl eq_refl eq_refl) as (_ & _ & H).
  apply (H "~/.largefile"); reflexivity.
Defined.

Lemma C3_witness :
  ∃ r t,
    run_scan Demo.world 0 (Demo.options_for ["/nonexistent/file"])
    = Done (Ok r, t)
    ∧ configs r = []
    ∧ (∃ e, errors r = [e] ∧ se_type e = not_found)
    ∧ totalFiles (metadata r) = 1%nat.
Proof.
  apply (proj1 (C3_missing_path_and_counts Demo.world 0
                  (Demo.options_for ["/nonexistent/file"])));
    reflexivity.
Defined.

(** [{ paths: ['~/.bashrc'], includeHidden: false,
       excludePatterns: ['bashrc'] }] *)
Definition hidden_and_excluded : ScanOptions :=
  mkOptions (Some ["~/.bashrc"]) (Some false) None (Some ["bashrc"]) None.

Definition bashrc_stats : Stats := mkStats RegularFile 32 1700000000000.

(** The scan of that request: one record, three calls. *)
Definition hidden_and_excluded_result : ScanResult :=
  {| configs := [ record_of "/home/u/.bashrc" (Kind bash) bashrc_stats
                    Demo.bashrc_content ];
     metadata := {| totalFiles := 1;
                    validConfigs := 1;
                    duration := 3;
                    startTime := 1000;
                    endTime := 1003 |};
     errors := [] |}.

Definition hidden_and_excluded_trace : Trace :=
  [ EvReadFile "/home/u/.bashrc"; EvStat "/home/u/.bashrc";
    EvStat "/home/u/.bashrc" ].

Lemma C9_witness :
  hidden_skipped hidden_and_excluded && Js.startsWith ".bashrc" "." = true
  ∧ shouldExclude "/home/u/.bashrc" (excludePatterns hidden_and_excluded)
    = Some (Ok true)
  ∧ run_scan Demo.world 0 hidden_and_excluded
    = Done (Ok hidden_and_excluded_result, hidden_and_excluded_trace)
  ∧ record_of "/home/u/.bashrc" (Kind bash) bashrc_stats Demo.bashrc_content
      ∈ configs hidden_and_excluded_result
  ∧ was_read "/home/u/.bashrc" hidden_and_excluded_trace.
Proof.
  split; [reflexivity|]. split; [reflexivity|]. split; [reflexivity|].
  apply (proj2 (proj2 (proj2 (proj2
           (C9_walk_policy_spares_top_level_files Demo.world 0
              hidden_and_excluded "~/.bashrc" bashrc_stats
              eq_refl eq_refl))))
           Demo.bashrc_content (Kind bash)
           hidden_and_excluded_result hidden_and_excluded_trace).
  - apply list_elem_of_here.
  - by vm_compute.
  - reflexivity.
  - reflexivity.
  - reflexivity.
Defined.

Lemma C10_witness :
  effectiveMaxFileSize zero_limit = 10 * 1024 * 1024
  ∧ scanFile Demo.world "/home/u/.bashrc" zero_limit []
    = Done (Ok [record_of "/home/u/.bashrc" (Kind bash) bashrc_stats
                  Demo.bashrc_content],
            [EvReadFile "/home/u/.bashrc"; EvStat "/home/u/.bashrc"]).
Proof.
  apply (C10_zero_max_size_means_default Demo.world zero_limit
           "/home/u/.bashrc" bashrc_stats Demo.bashrc_content (Kind bash) []);
    reflexivity.
Defined.

(* ===================================================================== *)
(** * Properties of the Type Classifier *)
(* ===================================================================== *)

Section ClassifierProperties.

Lemma mapping_kinds key k :
  CONFIG_TYPE_MAPPING !! key = Some k → k ≠ custom.
Proof.
  intros H Hk. subst k. apply elem_of_list_to_map_2 in H.
  repeat (apply elem_of_cons in H as [H|H]; [by simplify_eq|]).
  by apply elem_of_nil in H.
Qed.

Lemma last_dot_suffix_dot s t :
  Path.last_dot_suffix s = Some t → ∃ t', t = String "." t'.
Proof.
  revert t. induction s as [|a s IH]; intros t; simpl; [done|].
  destruct (Path.last_dot_suffix s) as [u|].
  - intros ?; simplify_eq. by apply IH.
  - destruct (Ascii.eqb a Path.dot) eqn:E; [|done].
    apply Ascii.eqb_eq in E as ->. intros ?; simplify_eq. by eexists.
Qed.

(** An extension is empty or begins with a dot. *)
Lemma extname_dot p : Path.extname p = "" ∨ ∃ t, Path.extname p = String "." t.
Proof.
  unfold Path.extname.
  destruct (Path.last_dot_suffix (Path.basename p)) as [ext|] eqn:E;
    [|by left].
  destruct (_ =? _)%nat; [by left|].
  destruct (String.eqb _ _); [by left|].
  right. by eapply last_dot_suffix_dot.
Qed.

(** For an extension, [in] and indexing see the table's own keys only. *)
Lemma extension_lookup p :
  Js.truthy (Path.extname p) && in_mapping (Path.extname p)
  = bool_decide (is_Some (CONFIG_TYPE_MAPPING !! Path.extname p)).
Proof.
  unfold in_mapping.
  destruct (extname_dot p) as [->|[t ->]]; [reflexivity|].
  assert (inherited (String "." t) = false) as -> by reflexivity.
  by rewrite orb_false_r.
Qed.

(** C4.  A file whose base name is a key of the classification table gets
    that entry's kind, whatever its extension.  The extension is looked up
    only when the base name is not in the table, and the generic kind
    [custom] is the result only when both lookups have failed and the base
    name contains a supported-extension substring. *)
Theorem C4_name_match_wins (filePath : string) :
  (∀ k, CONFIG_TYPE_MAPPING !! Path.basename filePath = Some k →
        determineConfigType filePath = Some (Kind k))
  ∧ (in_mapping (Path.basename filePath) = false →
     determineConfigType filePath
     = match CONFIG_TYPE_MAPPING !! Path.extname filePath with
       | Some k => Some (Kind k)
       | None =>
           if existsb (λ ext, Js.includes (Path.basename filePath) ext)
                SUPPORTED_EXTENSIONS
           then Some (Kind custom) else None
       end)
  ∧ (determineConfigType filePath = Some (Kind custom) →
     CONFIG_TYPE_MAPPING !! Path.basename filePath = None
     ∧ CONFIG_TYPE_MAPPING !! Path.extname filePath = None
     ∧ ∃ ext, ext ∈ SUPPORTED_EXTENSIONS
              ∧ Js.includes (Path.basename filePath) ext = true).
Proof.
  assert (Hext : in_mapping (Path.basename filePath) = false →
     determineConfigType filePath
     = match CONFIG_TYPE_MAPPING !! Path.extname filePath with
       | Some k => Some (Kind k)
       | None =>
           if existsb (λ ext, Js.includes (Path.basename filePath) ext)
                SUPPORTED_EXTENSIONS
           then Some (Kind custom) else None
       end).
  { intros Hname. unfold determineConfigType.
    rewrite Hname, extension_lookup. unfold mapping_get.
    destruct (CONFIG_TYPE_MAPPING !! Path.extname filePath) as [k|] eqn:E.
    - by rewrite bool_decide_eq_true_2.
    - rewrite bool_decide_eq_false_2; [done|]. by intros [? ?]. }
  split; [|split; [done|]].
  - intros k Hk. unfold determineConfigType, in_mapping, mapping_get.
    rewrite Hk. by rewrite bool_decide_eq_true_2.
  - intros H.
    destruct (in_mapping (Path.basename filePath)) eqn:Hname.
    + unfold determineConfigType in H. rewrite Hname in H.
      unfold mapping_get in H.
      destruct (CONFIG_TYPE_MAPPING !! Path.basename filePath) as [k|] eqn:E;
        [|done].
      simplify_eq. by apply mapping_kinds in E.
    + rewrite (Hext eq_refl) in H.
      assert (Hbase : CONFIG_TYPE_MAPPING !! Path.basename filePath = None).
      { unfold in_mapping in Hname. apply orb_false_iff in Hname as [Hd _].
        apply bool_decide_eq_false in Hd.
        destruct (CONFIG_TYPE_MAPPING !! Path.basename filePath); [|done].
        destruct Hd. by eexists. }
      split; [done|].
      destruct (CONFIG_TYPE_MAPPING !! Path.extname filePath) as [k|] eqn:E.
      { simplify_eq. by apply mapping_kinds in E. }
      split; [done|].
      destruct (existsb _ _) eqn:Hex; [|done].
      apply existsb_exists in Hex as (ext & Hin & Hinc).
      exists ext. split; [by apply list_elem_of_In|done].
Qed.

(** [.tmux.conf] is a key of the table: its kind is the table's, although
    the name carries the extension [.conf]. *)
Lemma C4_witness :
  Path.extname "/home/u/.tmux.conf" = ".conf"
  ∧ determineConfigType "/home/u/.tmux.conf" = Some (Kind system).
Proof.
  split; [reflexivity|].
  apply (proj1 (C4_name_match_wins "/home/u/.tmux.conf")). reflexivity.
Defined.

End ClassifierProperties.

(* ===================================================================== *)
(** * Properties of the shell parser *)
(* ===================================================================== *)

Section ShellParserProperties.
Import Parsers.

(** The three lines the properties are about: an assignment behind the
    [export] keyword, the same assignment at the start of the line, and an
    alias definition.  The values are in double quotes. *)
Definition export_line : string := "export FOO=" +:+ dq +:+ "bar" +:+ dq.
Definition var_line : string := "FOO=" +:+ dq +:+ "bar" +:+ dq.
Definition alias_line : string := "alias ll=" +:+ dq +:+ "ls -la" +:+ dq.

(** [data.aliases] of a shell parse. *)
Definition bash_aliases (d : ParsedData) : list string :=
  match d with
  | BashData _ _ _ _ aliases _ => aliases
  | _ => []
  end.

(** The line, parsed on its own, defines the variable [name]. *)
Definition assigns (name line : string) : bool :=
  bool_decide (is_Some (Bash.s_variables (Bash.step line Bash.init) !! name)).

(** The [export] line matches no rule of the loop: the state is unchanged. *)
Lemma step_export s : Bash.step export_line s = s.
Proof. reflexivity. Qed.

Lemma step_alias s :
  Bash.step alias_line s
  = Bash.mkState (Bash.s_variables s) (Bash.s_imports s) (Bash.s_comments s)
      (Bash.s_functions s) (push (Bash.s_aliases s) "ll").
Proof. reflexivity. Qed.

Lemma step_var s :
  Bash.step var_line s
  = Bash.mkState (<["FOO" := VStr "bar"]> (Bash.s_variables s))
      (Bash.s_imports s) (Bash.s_comments s)
      (Bash.s_functions s) (Bash.s_aliases s).
Proof. reflexivity. Qed.

Lemma step_aliases_mono x line s :
  x ∈ Bash.s_aliases s → x ∈ Bash.s_aliases (Bash.step line s).
Proof.
  intros H. unfold Bash.step. repeat case_match; simpl; try done.
  apply elem_of_app. by left.
Qed.

Lemma run_aliases_mono x lines s :
  x ∈ Bash.s_aliases s →
  x ∈ Bash.s_aliases (foldl (λ s line, Bash.step line s) s lines).
Proof.
  revert s. induction lines as [|l ls IH]; intros s H; [done|].
  simpl. by apply IH, step_aliases_mono.
Qed.

Lemma step_variables_other name line s :
  assigns name line = false →
  Bash.s_variables (Bash.step line s) !! name = Bash.s_variables s !! name.
Proof.
  unfold assigns, Bash.step. intros H.
  destruct (negb _); [done|]. destruct (Js.startsWith _ _); [done|].
  destruct (Re.exec Bash.varRe _) as [m|].
  - destruct (Re.group 1 m) as [n|]; [|done].
    destruct (Re.group 2 m) as [v|]; [|done]. simpl in *.
    unfold obj_set in *. destruct (String.eqb n "__proto__"); [done|].
    destruct (decide (n = name)) as [->|Hne].
    + rewrite lookup_insert_eq in H. by rewrite bool_decide_eq_true_2 in H.
    + by rewrite lookup_insert_ne.
  - repeat case_match; done.
Qed.

Lemma run_variables_other name lines s :
  forallb (λ l, negb (assigns name l)) lines = true →
  Bash.s_variables (foldl (λ s line, Bash.step line s) s lines) !! name
  = Bash.s_variables s !! name.
Proof.
  revert s. induction lines as [|l ls IH]; intros s H; [done|].
  simpl in *. apply andb_true_iff in H as [Hl Hls].
  rewrite IH by done. apply step_variables_other.
  by destruct (assigns name l).
Qed.

(** Lines that leave every state unchanged can be dropped. *)
Lemma run_without_noop (noop : string) lines s :
  (∀ s, Bash.step noop s = s) →
  foldl (λ s line, Bash.step line s) s (filter (λ l, l ≠ noop) lines)
  = foldl (λ s line, Bash.step line s) s lines.
Proof.
  intros Hnoop. revert s. induction lines as [|l ls IH]; intros s; [done|].
  destruct (decide (l = noop)) as [->|Hne].
  - rewrite filter_cons_False by (intros H; by apply H).
    simpl. by rewrite Hnoop.
  - rewrite filter_cons_True by done. simpl. apply IH.
Qed.

Lemma parse_result config :
  Bash.parse config
  = Done (Ok {| data :=
                  BashData (Bash.s_variables (Bash.run_lines (Js.lines (content config))))
                    (Bash.s_imports (Bash.run_lines (Js.lines (content config))))
                    (Bash.s_comments (Bash.run_lines (Js.lines (content config))))
                    (Bash.s_functions (Bash.run_lines (Js.lines (content config))))
                    (Bash.s_aliases (Bash.run_lines (Js.lines (content config))))
                    (length (Js.lines (content config)));
                variables := Bash.s_variables (Bash.run_lines (Js.lines (content config)));
                imports := Bash.s_imports (Bash.run_lines (Js.lines (content config)));
                comments := Bash.s_comments (Bash.run_lines (Js.lines (content config)));
                validation := valid_literal |}).
Proof. reflexivity. Qed.

Lemma alias_extracted lines :
  alias_line ∈ lines → "ll" ∈ Bash.s_aliases (Bash.run_lines lines).
Proof.
  intros H. apply list_elem_of_split in H as (l1 & l2 & ->).
  unfold Bash.run_lines. rewrite foldl_app. simpl.
  apply run_aliases_mono. rewrite step_alias. simpl.
  apply elem_of_app. right. apply list_elem_of_here.
Qed.

(** The two-line file of the scenario: the [export] line, then the alias. *)
Definition export_then_alias : DotfileConfig :=
  Demo.config_of (export_line +:+ Demo.NL +:+ alias_line).

(** C1 as first stated fails: on the two-line file, [parse] succeeds and
    extracts the alias [ll], but [variables] has no [FOO] at all. *)
Lemma C1_counterexample :
  ∃ pc, parse BashParser export_then_alias = Done (Ok pc)
        ∧ bash_aliases (data pc) = ["ll"]
        ∧ variables pc !! "FOO" = None
        ∧ variables pc !! "FOO" ≠ Some (VStr "bar").
Proof. eexists. repeat (split; [reflexivity|]). done. Qed.

(** C1 (amended).  For a shell file that contains the line [FOO=DQ bar DQ],
    the name at the start of the line and not assigned again further down,
    and the line [alias ll=DQ ls -la DQ], [parse] succeeds with
    [variables.FOO] the string [bar] and [ll] among the aliases.  A line
    [export FOO=DQ bar DQ] matches none of the parser's rules: with the
    alias line in the file [parse] still succeeds and extracts [ll], and
    the variables are those of the file without its [export] lines. *)
Theorem C1_shell_parse_assignment_and_alias :
  (∀ config pre post,
     Js.lines (content config) = pre ++ var_line :: post →
     forallb (λ l, negb (assigns "FOO" l)) post = true →
     alias_line ∈ Js.lines (content config) →
     ∃ pc, parse BashParser config = Done (Ok pc)
           ∧ variables pc !! "FOO" = Some (VStr "bar")
           ∧ "ll" ∈ bash_aliases (data pc))
  ∧ (∀ config,
       alias_line ∈ Js.lines (content config) →
       ∃ pc, parse BashParser config = Done (Ok pc)
             ∧ "ll" ∈ bash_aliases (data pc)
             ∧ variables pc
               = Bash.s_variables
                   (Bash.run_lines
                      (filter (λ l, l ≠ export_line)
                         (Js.lines (content config))))).
Proof.
  split.
  - intros config pre post Hlines Hpost Halias.
    eexists. split; [apply parse_result|]. simpl. split.
    + rewrite Hlines. unfold Bash.run_lines. rewrite foldl_app. simpl.
      rewrite run_variables_other by done.
      rewrite step_var. simpl. apply lookup_insert_eq.
    + by apply alias_extracted.
  - intros config Halias.
    eexists. split; [apply parse_result|]. simpl. split.
    + by apply alias_extracted.
    + unfold Bash.run_lines. by rewrite (run_without_noop _ _ _ step_export).
Qed.

(** The two-line file with the assignment at the start of its line. *)
Definition var_then_alias : DotfileConfig :=
  Demo.config_of (var_line +:+ Demo.NL +:+ alias_line).

Lemma C1_witness :
  ∃ pc, parse BashParser var_then_alias = Done (Ok pc)
        ∧ variables pc !! "FOO" = Some (VStr "bar")
        ∧ "ll" ∈ bash_aliases (data pc).
Proof.
  apply (proj1 C1_shell_parse_assignment_and_alias var_then_alias
           [] [alias_line]).
  - reflexivity.
  - reflexivity.
  - vm_compute. apply list_elem_of_further, list_elem_of_here.
Defined.

End ShellParserProperties.

(* ===================================================================== *)
(** * Properties of the Exclusion Matcher *)
(* ===================================================================== *)

(** Following the specification: the meaning of a glob-like pattern. *)
Module GlobSpec.

(** A pattern character by character against a text: a star, read as the
    [.*] it is replaced by, stands for any run of characters other than
    line terminators; every other character stands for itself. *)
Inductive matches : list ascii → list ascii → Prop :=
| matches_nil : matches [] []
| matches_star pattern run text :
    Forall (λ a, Js.is_line_terminator a = false) run →
    matches pattern text →
    matches ("*"%char :: pattern) (run ++ text)
| matches_lit a pattern text :
    a ≠ "*"%char →
    matches pattern text →
    matches (a :: pattern) (a :: text).

(** The pattern matches a substring of the path: not anchored. *)
Definition matches_somewhere (pattern path : string) : Prop :=
  ∃ before mid after,
    Js.chars path = before ++ mid ++ after
    ∧ matches (Js.chars pattern) mid.

(** The pattern is made of stars and of characters without a meaning in a
    regular expression. *)
Definition literal_or_star (pattern : string) : bool :=
  forallb (λ a, Ascii.eqb a "*" || negb (Glob.is_syntax_char a))
    (Js.chars pattern).

End GlobSpec.

Section ExclusionProperties.
Import Re.

(** The expression [new RegExp] builds from the source of such a pattern. *)
Fixpoint glob_regex (pattern : list ascii) : regex :=
  match pattern with
  | [] => Eps
  | a :: rest =>
      Seq (if Ascii.eqb a "*" then Star Dot else Lit a) (glob_regex rest)
  end.

Lemma compile_from_cons source a rest :
  Glob.compile_from source (a :: rest)
  = if Ascii.eqb a "*" then Glob.SyntaxError (Glob.nothing_to_repeat source)
    else if Ascii.eqb a "." || negb (Glob.is_syntax_char a) then
      let atom := if Ascii.eqb a "." then Dot else Lit a in
      match rest with
      | b :: rest' =>
          if Ascii.eqb b "*" then
            match Glob.compile_from source rest' with
            | Glob.Compiled r => Glob.Compiled (Seq (Star atom) r)
            | other => other
            end
          else
            match Glob.compile_from source rest with
            | Glob.Compiled r => Glob.Compiled (Seq atom r)
            | other => other
            end
      | [] => Glob.Compiled (Seq atom Eps)
      end
    else Glob.Unmodelled.
Proof. by destruct rest. Qed.

(** The source derived from a pattern never begins with a quantifier. *)
Lemma star_to_dotstar_head pattern b rest :
  Glob.star_to_dotstar pattern = b :: rest → Ascii.eqb b "*" = false.
Proof.
  destruct pattern as [|a pattern]; simpl; [done|].
  destruct (Ascii.eqb a "*") eqn:E; intros H; by simplify_eq.
Qed.

Lemma compile_glob source pattern :
  forallb (λ a, Ascii.eqb a "*" || negb (Glob.is_syntax_char a)) pattern
  = true →
  Glob.compile_from source (Glob.star_to_dotstar pattern)
  = Glob.Compiled (glob_regex pattern).
Proof.
  induction pattern as [|a rest IH]; [done|].
  simpl. intros H. apply andb_true_iff in H as [Ha Hrest].
  specialize (IH Hrest). destruct (Ascii.eqb a "*") eqn:E.
  - rewrite compile_from_cons. simpl. by rewrite IH.
  - simpl in Ha. apply negb_true_iff in Ha.
    assert (Hdot : Ascii.eqb a "." = false).
    { destruct (Ascii.eqb a ".") eqn:E'; [|done].
      apply Ascii.eqb_eq in E' as ->. done. }
    rewrite compile_from_cons, E, Hdot, Ha. simpl.
    destruct (Glob.star_to_dotstar rest) as [|b rest'] eqn:Hsrc.
    + by destruct rest as [|c rest]; [|simpl in Hsrc; destruct (Ascii.eqb c "*")].
    + rewrite (star_to_dotstar_head _ _ _ Hsrc). by rewrite IH.
Qed.

(** ** The matcher on these expressions *)

Section Run.
Context {A : Type} (total : nat).
Implicit Types (k : list ascii → captures → option A).

Lemma run_chr p s c k :
  run total (Chr p) s c k
  = match s with
    | [] => None
    | a :: s' => if p a then k s' c else None
    end.
Proof. by destruct s. Qed.

Lemma run_seq r1 r2 s c k :
  run total (Seq r1 r2) s c k
  = run total r1 s c (λ s' c', run total r2 s' c' k).
Proof. reflexivity. Qed.

Lemma run_star r s c k :
  run total (Star r) s c k = star_loop (run total r) k (length s) s c.
Proof. reflexivity. Qed.

(** The greedy star over a one-character atom succeeds exactly when the
    continuation succeeds after some run of characters the atom accepts. *)
Lemma star_loop_chr p k c : ∀ n s,
  (length s ≤ n)%nat →
  is_Some (star_loop (run total (Chr p)) k n s c)
  ↔ ∃ prefix rest, s = prefix ++ rest
                   ∧ Forall (λ a, p a = true) prefix
                   ∧ is_Some (k rest c).
Proof.
  assert (Hnil : ∀ s, s = [] →
            is_Some (k s c)
            ↔ ∃ prefix rest, s = prefix ++ rest
                             ∧ Forall (λ a, p a = true) prefix
                             ∧ is_Some (k rest c)).
  { intros s ->. split.
    - intros H. by exists [], [].
    - intros (prefix & rest & Hs & _ & Hk).
      symmetry in Hs. apply app_eq_nil in Hs as [-> ->]. done. }
  remember (run total (Chr p)) as body eqn:Hbody.
  assert (Hb : ∀ s c k, body s c k
                        = match s with
                          | [] => None
                          | a :: s' => if p a then k s' c else None
                          end).
  { intros. subst body. apply run_chr. }
  clear Hbody.
  induction n as [|n IH]; intros s Hlen.
  - destruct s; [|simpl in Hlen; lia]. simpl. by apply Hnil.
  - simpl. rewrite Hb. destruct s as [|a s]; [by apply Hnil|].
    destruct (p a) eqn:Hp.
    + assert (Hlt : (length s <? length (a :: s))%nat = true)
        by (apply Nat.ltb_lt; simpl; lia).
      rewrite Hlt. simpl in Hlen.
      specialize (IH s ltac:(lia)).
      destruct (star_loop body k n s c) as [x|] eqn:Eloop.
      * split; [|by eexists].
        intros _. destruct (proj1 IH) as (prefix & rest & -> & Hf & Hk);
          [by eexists|].
        exists (a :: prefix), rest. split; [done|]. split; [|done].
        by constructor.
      * split.
        -- intros H. by exists [], (a :: s).
        -- intros (prefix & rest & Hs & Hf & Hk).
           destruct prefix as [|b prefix]; [simpl in Hs; by subst|].
           simpl in Hs. simplify_eq. apply Forall_cons in Hf as [_ Hf].
           assert (Hsome : is_Some (@None A)); [|by destruct Hsome].
           apply IH. by exists prefix, rest.
    + split.
      * intros H. by exists [], (a :: s).
      * intros (prefix & rest & Hs & Hf & Hk).
        destruct prefix as [|b prefix]; [simpl in Hs; by subst|].
        simpl in Hs. simplify_eq. apply Forall_cons in Hf as [Hb' _].
        congruence.
Qed.

(** The matcher on [glob_regex pattern] succeeds exactly when the pattern
    matches a prefix of the input and the continuation accepts the rest. *)
Lemma run_glob pattern : ∀ s c k,
  is_Some (run total (glob_regex pattern) s c k)
  ↔ ∃ mid rest, s = mid ++ rest
                ∧ GlobSpec.matches pattern mid
                ∧ is_Some (k rest c).
Proof.
  induction pattern as [|a pattern IH]; intros s c k.
  - simpl. split.
    + intros H. exists [], s. split; [done|]. split; [constructor|done].
    + intros (mid & rest & -> & Hm & Hk). by inversion Hm.
  - cbn [glob_regex]. rewrite run_seq. destruct (Ascii.eqb a "*") eqn:E.
    + apply Ascii.eqb_eq in E as ->. rewrite run_star. unfold Dot.
      rewrite star_loop_chr by done. split.
      * intros (prefix & rest & -> & Hf & Hk).
        apply IH in Hk as (mid & rest' & -> & Hm & Hk).
        exists (prefix ++ mid), rest'. split; [by rewrite app_assoc|].
        split; [|done]. constructor; [|done].
        eapply Forall_impl; [exact Hf|]. simpl. intros x Hx.
        by destruct (Js.is_line_terminator x).
      * intros (mid & rest & -> & Hm & Hk).
        inversion Hm as [|pattern' prefix text Hf Hm'|]; subst; [|done].
        exists prefix, (text ++ rest). split; [by rewrite app_assoc|].
        split.
        -- eapply Forall_impl; [exact Hf|]. simpl. by intros x ->.
        -- apply IH. by exists text, rest.
    + unfold Lit. rewrite run_chr. destruct s as [|b s].
      * split; [by intros [? ?]|].
        intros (mid & rest & Hs & Hm & Hk).
        inversion Hm; subst; [done|]. done.
      * destruct (Ascii.eqb a b) eqn:Eb.
        -- apply Ascii.eqb_eq in Eb as ->. rewrite IH. split.
           ++ intros (mid & rest & -> & Hm & Hk).
              exists (b :: mid), rest. split; [done|]. split; [|done].
              constructor; [|done]. intros ->. done.
           ++ intros (mid & rest & Hs & Hm & Hk).
              inversion Hm; subst; [done|]. simpl in Hs. simplify_eq.
              by eexists _, _.
        -- split; [by intros [? ?]|].
           intros (mid & rest & Hs & Hm & Hk).
           inversion Hm; subst; [done|]. simpl in Hs. simplify_eq.
           by rewrite Ascii.eqb_refl in Eb.
Qed.

End Run.

Lemma search_some total r : ∀ s,
  is_Some (search total r s)
  ↔ ∃ before rest, s = before ++ rest ∧ is_Some (match_here total r rest).
Proof.
  induction s as [|a s IH]; simpl.
  - destruct (match_here total r []) as [[s' c]|] eqn:E.
    + split; [|by eexists]. intros _. exists [], []. by rewrite E.
    + split; [by intros [? ?]|].
      intros (before & rest & Hs & Hm).
      symmetry in Hs. apply app_eq_nil in Hs as [-> ->].
      rewrite E in Hm. by destruct Hm.
  - destruct (match_here total r (a :: s)) as [[s' c]|] eqn:E.
    + split; [|by eexists]. intros _. exists [], (a :: s). by rewrite E.
    + rewrite IH. split.
      * intros (before & rest & -> & Hm). by exists (a :: before), rest.
      * intros (before & rest & Hs & Hm).
        destruct before as [|b before]; simpl in Hs; simplify_eq.
        -- rewrite E in Hm. by destruct Hm.
        -- by exists before, rest.
Qed.

(** On the expression of a glob-like pattern, [test] says whether the
    pattern matches some substring of the path. *)
Lemma test_glob pattern path :
  Re.test (glob_regex (Js.chars pattern)) path = true
  ↔ GlobSpec.matches_somewhere pattern path.
Proof.
  unfold Re.test, Re.exec, GlobSpec.matches_somewhere.
  set (total := length (Js.chars path)).
  assert (Hs : is_Some (search total (glob_regex (Js.chars pattern))
                          (Js.chars path))
               ↔ ∃ before mid after,
                   Js.chars path = before ++ mid ++ after
                   ∧ GlobSpec.matches (Js.chars pattern) mid).
  { rewrite search_some. split.
    - intros (before & rest & Hp & Hm). unfold match_here in Hm.
      apply run_glob in Hm as (mid & after & -> & Hm & _).
      by exists before, mid, after.
    - intros (before & mid & after & Hp & Hm).
      exists before, (mid ++ after). split; [done|].
      unfold match_here. apply run_glob. exists mid, after.
      split; [done|]. split; [done|]. by eexists. }
  rewrite <- Hs.
  destruct (search total _ _); split; try done;
    first [by eexists | by intros [? ?]].
Qed.

Lemma pattern_matches_glob path pattern :
  GlobSpec.literal_or_star pattern = true →
  pattern_matches path pattern
  = Some (Ok (Re.test (glob_regex (Js.chars pattern)) path)).
Proof.
  intros H. unfold pattern_matches, Glob.RegExp, Js.str.
  rewrite list_ascii_of_string_of_list_ascii.
  by rewrite compile_glob.
Qed.

Lemma some_pattern_glob path patterns :
  forallb GlobSpec.literal_or_star patterns = true →
  ∃ b, some_pattern path patterns = Some (Ok b)
       ∧ (b = true
          ↔ ∃ pattern, pattern ∈ patterns
                       ∧ GlobSpec.matches_somewhere pattern path).
Proof.
  induction patterns as [|pattern rest IH]; simpl.
  - intros _. exists false. split; [done|]. split; [done|].
    intros (pattern & Hin & _). by apply elem_of_nil in Hin.
  - intros H. apply andb_true_iff in H as [Hp Hrest].
    rewrite (pattern_matches_glob _ _ Hp).
    destruct (Re.test (glob_regex (Js.chars pattern)) path) eqn:E.
    + exists true. split; [done|]. split; [|done]. intros _.
      exists pattern. split; [apply list_elem_of_here|by apply test_glob].
    + destruct (IH Hrest) as (b & -> & Hb). exists b. split; [done|].
      rewrite Hb. split.
      * intros (q & Hin & Hm). exists q. split; [by right|done].
      * intros (q & Hin & Hm). apply elem_of_cons in Hin as [->|Hin].
        -- apply test_glob in Hm. congruence.
        -- by exists q.
Qed.

(** C5.  For exclude patterns made only of literal characters (none with
    a meaning in a regular expression) and stars, the Exclusion Matcher
    returns, without throwing, and excludes the path exactly when some
    pattern, each star read as [.*], matches a substring of the path;
    with no pattern list it never excludes. *)
Theorem C5_exclusion_is_unanchored_glob_match
    (path : string) (patterns : list string) :
  forallb GlobSpec.literal_or_star patterns = true →
  (∃ b, shouldExclude path (Some patterns) = Some (Ok b)
        ∧ (b = true
           ↔ ∃ pattern, pattern ∈ patterns
                        ∧ GlobSpec.matches_somewhere pattern path))
  ∧ shouldExclude path None = Some (Ok false).
Proof.
  intros H. split; [|done]. by apply some_pattern_glob.
Qed.

(** [tmp*rc] matches inside the path although it matches neither its
    beginning nor its end. *)
Lemma C5_witness :
  (∃ b, shouldExclude "/tmp/t/.bashrc.log" (Some ["vimrc"; "tmp*rc"])
        = Some (Ok b)
        ∧ (b = true
           ↔ ∃ pattern, pattern ∈ ["vimrc"; "tmp*rc"]
                ∧ GlobSpec.matches_somewhere pattern "/tmp/t/.bashrc.log"))
  ∧ shouldExclude "/tmp/t/.bashrc.log" None = Some (Ok false).
Proof.
  apply (C5_exclusion_is_unanchored_glob_match "/tmp/t/.bashrc.log"
           ["vimrc"; "tmp*rc"]).
  reflexivity.
Defined.

End ExclusionProperties.

(* ===================================================================== *)
(** * The other operations of the parsers *)
(* ===================================================================== *)

(** [extractDependencies], [getSummary] and their helpers, for the four
    parsers, and the cache of [ParserFactory]. *)
Module ParserOps.
Import Re Parsers.

(** [description], [lineCount], [functionCount], [variableCount],
    [isComplex], [features] *)
Record ConfigSummary : Type := mkSummary {
  description : string;
  lineCount : nat;
  functionCount : nat;
  variableCount : nat;
  isComplex : bool;
  features : list string
}.

(** [s.split(/\s+/)]: the pieces between maximal runs of whitespace; a run
    at either end leaves an empty piece there.  [in_run] says that the
    character before was whitespace. *)
Fixpoint split_ws_from (in_run : bool) (s : string) : list string :=
  match s with
  | EmptyString => [EmptyString]
  | String a s' =>
      if Js.is_space a then
        if in_run then split_ws_from true s'
        else EmptyString :: split_ws_from true s'
      else
        match split_ws_from false s' with
        | h :: t => String a h :: t
        | [] => [String a EmptyString]
        end
  end.
Definition split_ws (s : string) : list string := split_ws_from false s.

(** [[...new Set(arr)]]: the first occurrence of every element, in order.
    [seen] holds what the set contains already. *)
Fixpoint dedupe_from (seen arr : list string) : list string :=
  match arr with
  | [] => []
  | x :: rest =>
      if bool_decide (x ∈ seen) then dedupe_from seen rest
      else x :: dedupe_from (x :: seen) rest
  end.
Definition dedupe (arr : list string) : list string := dedupe_from [] arr.

(** [match[1].split(/\s+/).filter(pkg => pkg && !pkg.startsWith('-'))],
    for the first match of [re] in the line; nothing when there is none. *)
Definition install_arguments (re : regex) (line : string) : list string :=
  match Re.exec re line with
  | Some m =>
      match group 1 m with
      | Some args =>
          filter (λ pkg, Js.truthy pkg && negb (Js.startsWith pkg "-") = true)
            (split_ws args)
      | None => []
      end
  | None => []
  end.

(** [/apt(?:-get)?\s+install\s+(.+)/] *)
Definition aptRe : regex :=
  Seqs [ Str "apt"; Opt (Str "-get"); Plus Space; Str "install"; Plus Space;
         Group 1 (Plus Dot) ].
(** [/snap\s+install\s+(.+)/], [/pip\s+install\s+(.+)/] and
    [/npm\s+install\s+(.+)/] *)
Definition installRe (tool : string) : regex :=
  Seqs [ Str tool; Plus Space; Str "install"; Plus Space; Group 1 (Plus Dot) ].

(** The block both the shell and the generic parser run on every line. *)
Definition apt_packages (line : string) : list string :=
  if Js.includes line "apt install" || Js.includes line "apt-get install"
  then install_arguments aptRe line else [].

(** [Object.entries(commandMap)] filtered by [line.includes(command)]. *)
Definition commands_in (commandMap : list (string * string)) (line : string)
  : list string :=
  map snd (filter (λ entry, Js.includes line (fst entry) = true) commandMap).

(** [String(configType)] *)
Definition kind_name (configType : ConfigType) : string :=
  match configType with
  | bash => "bash" | zsh => "zsh" | vim => "vim" | git => "git"
  | ssh => "ssh" | vscode => "vscode" | system => "system"
  | custom => "custom"
  end.

(** [lines.filter(line => line.trim())] *)
Definition nonEmptyLines (lines : list string) : list string :=
  filter (λ line, Js.truthy (Js.trim line) = true) lines.

(** [lines.filter(line => re.test(line.trim()))] *)
Definition lines_matching (re : regex) (lines : list string) : list string :=
  filter (λ line, Re.test re (Js.trim line) = true) lines.

(** [if (c) features.push(name)], for a list of such statements. *)
Definition features_of (tests : list (bool * string)) : list string :=
  map snd (filter (λ t, fst t = true) tests).

(* ------------------------------------------------------------------- *)
(** ** [BashParser] *)

Module Bash.

Definition commandMap : list (string * string) :=
  [ ("git", "git"); ("docker", "docker.io"); ("node", "nodejs");
    ("npm", "npm"); ("python", "python3"); ("pip", "python3-pip");
    ("curl", "curl"); ("wget", "wget"); ("vim", "vim"); ("nano", "nano");
    ("htop", "htop"); ("tree", "tree"); ("jq", "jq"); ("yq", "yq");
    ("kubectl", "kubectl"); ("terraform", "terraform"); ("aws", "awscli") ].

(** [getCommandDependencies] *)
Definition getCommandDependencies (line : string) : list string :=
  map snd
    (filter (λ entry, Js.includes line (fst entry)
                      && negb (Js.includes line "which")
                      && negb (Js.includes line "command -v") = true)
       commandMap).

(** What one line adds to [dependencies]. *)
Definition line_dependencies (line : string) : list string :=
  apt_packages line
  ++ (if Js.includes line "snap install"
      then install_arguments (installRe "snap") line else [])
  ++ (if Js.includes line "pip install"
      then install_arguments (installRe "pip") line else [])
  ++ (if Js.includes line "npm install"
      then install_arguments (installRe "npm") line else [])
  ++ getCommandDependencies line.

(** [extractDependencies] *)
Definition extractDependencies (content : string) : list string :=
  dedupe (concat (map line_dependencies (Js.lines content))).

(** [generateDescription] *)
Definition generateDescription (content : string) : string :=
  if Js.includes content "PS1" || Js.includes content "prompt"
  then "Shell prompt and display configuration"
  else if Js.includes content "PATH" || Js.includes content "export PATH"
  then "Environment and PATH configuration"
  else if Js.includes content "alias" then "Command aliases and shortcuts"
  else if Js.includes content "function"
  then "Custom shell functions and utilities"
  else if Js.includes content "history" then "Command history configuration"
  else "Bash shell configuration file".

(** [/^[A-Z_][A-Z0-9_]*\s*=/] *)
Definition varHeadRe : regex :=
  Seqs [ Bol; Chr Parsers.Bash.upper_or_underscore;
         Star (Chr Parsers.Bash.upper_digit_or_underscore);
         Star Space; Lit "=" ].
(** [/^alias\s+\w+=/] *)
Definition aliasHeadRe : regex :=
  Seqs [ Bol; Str "alias"; Plus Space; Plus Word; Lit "=" ].

(** [getSummary] *)
Definition getSummary (content : string) : ConfigSummary :=
  let lines := Js.lines content in
  let functions := lines_matching Parsers.Bash.funcRe lines in
  let variables := lines_matching varHeadRe lines in
  let aliases := lines_matching aliasHeadRe lines in
  {| description := generateDescription content;
     lineCount := length lines;
     functionCount := length functions;
     variableCount := length variables;
     isComplex := (50 <? length (nonEmptyLines lines))%nat
                  || (5 <? length functions)%nat;
     features :=
       features_of
         [ (Js.includes content "export", "Environment variables");
           (Js.includes content "alias" || (0 <? length aliases)%nat,
            "Command aliases");
           (Js.includes content "function" || (0 <? length functions)%nat,
            "Custom functions");
           (Js.includes content "source" || Js.includes content ".",
            "File imports");
           (Js.includes content "PATH", "PATH modifications");
           (Js.includes content "PS1", "Prompt customization");
           (Js.includes content "history", "History configuration") ] |}.

End Bash.

(* ------------------------------------------------------------------- *)
(** ** [VimParser] *)

Module Vim.

(** What one line adds to [dependencies]. *)
Definition line_dependencies (line : string) : list string :=
  features_of
    [ (Js.includes line "fzf", "fzf");
      (Js.includes line "ripgrep" || Js.includes line "rg", "ripgrep");
      (Js.includes line "ctags", "ctags");
      (Js.includes line "clang" || Js.includes line "clangd", "clang");
      (Js.includes line "python" && Js.includes line "provider", "python3") ].

(** [extractDependencies] *)
Definition extractDependencies (content : string) : list string :=
  dedupe
    (features_of
       [ (Js.includes content "plug#begin" || Js.includes content "Plug",
          "vim-plug");
         (Js.includes content "Vundle" || Js.includes content "Plugin",
          "Vundle.vim");
         (Js.includes content "dein" || Js.includes content "dein#begin",
          "dein.vim") ]
     ++ concat (map line_dependencies (Js.lines content))).

(** [generateDescription] *)
Definition generateDescription (content : string) : string :=
  if Js.includes content "Plug" || Js.includes content "Plugin"
  then "Vim configuration with plugin management"
  else if Js.includes content "colorscheme"
  then "Vim configuration with custom color scheme"
  else if Js.includes content "function" || Js.includes content "autocmd"
  then "Advanced Vim configuration with custom functions"
  else if Js.includes content "set number" || Js.includes content "set syntax"
  then "Basic Vim configuration for development"
  else "Vim editor configuration file".

(** [/^set\s+/], [/^(?:nore)?map\s+/], [/^Plug\s+/], [/^function\s+/] *)
Definition setHeadRe : regex := Seqs [ Bol; Str "set"; Plus Space ].
Definition mapHeadRe : regex :=
  Seqs [ Bol; Opt (Str "nore"); Str "map"; Plus Space ].
Definition plugHeadRe : regex := Seqs [ Bol; Str "Plug"; Plus Space ].
Definition funcHeadRe : regex := Seqs [ Bol; Str "function"; Plus Space ].

(** [getSummary] *)
Definition getSummary (content : string) : ConfigSummary :=
  let lines := Js.lines content in
  let settings := lines_matching setHeadRe lines in
  let mappings := lines_matching mapHeadRe lines in
  let plugins := lines_matching plugHeadRe lines in
  let functions := lines_matching funcHeadRe lines in
  {| description := generateDescription content;
     lineCount := length lines;
     functionCount := length functions;
     variableCount := length settings;
     isComplex := (100 <? length (nonEmptyLines lines))%nat
                  || (10 <? length plugins)%nat;
     features :=
       features_of
         [ (Js.includes content "set number", "Line numbers");
           (Js.includes content "set syntax", "Syntax highlighting");
           (Js.includes content "set tabstop", "Tab configuration");
           (Js.includes content "set expandtab", "Spaces for tabs");
           (Js.includes content "set autoindent", "Auto-indentation");
           (Js.includes content "set hlsearch", "Search highlighting");
           (Js.includes content "set incsearch", "Incremental search");
           (Js.includes content "set ignorecase", "Case-insensitive search");
           (Js.includes content "set smartcase", "Smart case search");
           (Js.includes content "set wrap", "Line wrapping");
           (Js.includes content "set ruler", "Status line");
           (Js.includes content "set showcmd", "Command display");
           (Js.includes content "set wildmenu", "Command completion");
           (Js.includes content "set backspace", "Backspace behavior");
           (Js.includes content "set mouse", "Mouse support");
           (Js.includes content "colorscheme", "Color scheme");
           (Js.includes content "Plug", "Plugin management");
           ((0 <? length mappings)%nat, "Custom key mappings");
           ((0 <? length functions)%nat, "Custom functions") ] |}.

End Vim.

(* ------------------------------------------------------------------- *)
(** ** [GitParser] *)

Module Git.

Definition commandMap : list (string * string) :=
  [ ("tig", "tig"); ("lazygit", "lazygit"); ("gh", "gh"); ("hub", "hub");
    ("git-flow", "git-flow"); ("git-lfs", "git-lfs") ].

(** [getCommandDependencies] *)
Definition getCommandDependencies (command : string) : list string :=
  commands_in commandMap command.

(** [/core\.editor\s*=\s*(.+)/] and [/credential\.helper\s*=\s*(.+)/] *)
Definition settingRe (key : string) : regex :=
  Seqs [ Str key; Star Space; Lit "="; Star Space; Group 1 (Plus Dot) ].
(** [/alias\.(\w+)\s*=\s*(.+)/] *)
Definition aliasRe : regex :=
  Seqs [ Str "alias."; Group 1 (Plus Word); Star Space; Lit "="; Star Space;
         Group 2 (Plus Dot) ].

(** The [trim]med first group of the first match of [re] in the line. *)
Definition setting_value (re : regex) (line : string) : option string :=
  match Re.exec re line with
  | Some m => Js.trim <$> group 1 m
  | None => None
  end.

(** What one line adds to [dependencies]. *)
Definition line_dependencies (line : string) : list string :=
  (if Js.includes line "core.editor" then
     match setting_value (settingRe "core.editor") line with
     | Some editor =>
         if Js.includes editor "vim" then ["vim"]
         else if Js.includes editor "nano" then ["nano"]
         else if Js.includes editor "code" then ["code"]
         else []
     | None => []
     end
   else [])
  ++ (if Js.includes line "diff.tool" || Js.includes line "merge.tool"
      then ["meld"] else [])
  ++ (if Js.includes line "credential.helper" then
        match setting_value (settingRe "credential.helper") line with
        | Some helper =>
            if Js.includes helper "store" then []
            else if Js.includes helper "cache" then []
            else if Js.includes helper "manager"
            then ["git-credential-manager"]
            else []
        | None => []
        end
      else [])
  ++ (if Js.includes line "alias" && Js.includes line "=" then
        match Re.exec aliasRe line with
        | Some m =>
            match group 2 m with
            | Some command => getCommandDependencies command
            | None => []
            end
        | None => []
        end
      else []).

(** [extractDependencies] *)
Definition extractDependencies (content : string) : list string :=
  dedupe ("git" :: concat (map line_dependencies (Js.lines content))).

(** [generateDescription] *)
Definition generateDescription (content : string) : string :=
  if Js.includes content "alias." && Js.includes content "="
  then "Git configuration with custom aliases"
  else if Js.includes content "remote." && Js.includes content "url"
  then "Git configuration with remote repositories"
  else if Js.includes content "credential." || Js.includes content "user."
  then "Git configuration with user and credential settings"
  else if Js.includes content "color." || Js.includes content "diff."
  then "Git configuration with display and diff settings"
  else "Git configuration file".

(** [/^alias\./] and [/^[^#\[]/] *)
Definition aliasHeadRe : regex := Seqs [ Bol; Str "alias." ].
Definition settingHeadRe : regex :=
  Seqs [ Bol; NoneOf ["#"%char; "["%char] ].

(** [getSummary] *)
Definition getSummary (content : string) : ConfigSummary :=
  let lines := Js.lines content in
  let aliases := lines_matching aliasHeadRe lines in
  let settings :=
    filter (λ line, Re.test settingHeadRe (Js.trim line)
                    && Js.includes line "=" = true) lines in
  {| description := generateDescription content;
     lineCount := length lines;
     functionCount := length aliases;
     variableCount := length settings;
     isComplex := (50 <? length (nonEmptyLines lines))%nat
                  || (10 <? length aliases)%nat;
     features :=
       features_of
         [ (Js.includes content "user.name", "User identity");
           (Js.includes content "user.email", "User email");
           (Js.includes content "core.editor", "Default editor");
           (Js.includes content "core.autocrlf", "Line ending handling");
           (Js.includes content "core.ignorecase", "Case sensitivity");
           (Js.includes content "init.defaultBranch", "Default branch");
           (Js.includes content "pull.rebase", "Pull strategy");
           (Js.includes content "push.default", "Push strategy");
           (Js.includes content "branch.autosetupmerge", "Branch tracking");
           (Js.includes content "color.", "Color output");
           (Js.includes content "alias." || (0 <? length aliases)%nat,
            "Command aliases");
           (Js.includes content "remote.", "Remote repositories");
           (Js.includes content "credential.", "Credential management");
           (Js.includes content "diff.", "Diff configuration");
           (Js.includes content "merge.", "Merge configuration") ] |}.

End Git.

(* ------------------------------------------------------------------- *)
(** ** [SimpleParser] *)

Module Simple.

(** [extractDependencies] *)
Definition extractDependencies (content : string) : list string :=
  dedupe (concat (map apt_packages (Js.lines content))).

(** [getSummary] *)
Definition getSummary (configType : ConfigType) (content : string)
  : ConfigSummary :=
  let lines := Js.lines content in
  {| description := kind_name configType +:+ " configuration file";
     lineCount := length lines;
     functionCount := 0;
     variableCount := 0;
     isComplex := (50 <? length (nonEmptyLines lines))%nat;
     features := [kind_name configType +:+ " configuration"] |}.

End Simple.

(* ------------------------------------------------------------------- *)
(** ** The four operations by kind, and [ParserFactory] *)

(** [ParserFactory.getParser(configType).extractDependencies(content)] *)
Definition extractDependencies (configType : ConfigType) (content : string)
  : list string :=
  match configType with
  | bash | zsh => Bash.extractDependencies content
  | vim => Vim.extractDependencies content
  | git => Git.extractDependencies content
  | _ => Simple.extractDependencies content
  end.

(** [ParserFactory.getParser(configType).getSummary(content)] *)
Definition getSummary (configType : ConfigType) (content : string)
  : ConfigSummary :=
  match configType with
  | bash | zsh => Bash.getSummary content
  | vim => Vim.getSummary content
  | git => Git.getSummary content
  | other => Simple.getSummary other content
  end.

(** [getAvailableParsers] *)
Definition getAvailableParsers : list ConfigType :=
  [bash; zsh; vim; git; ssh; vscode; system; custom].

(** The static [parsers] map of [ParserFactory], in insertion order. *)
Definition Cache : Type := list (ConfigType * ConfigParser).

(** [Map.prototype.get] *)
Fixpoint cache_get (cache : Cache) (configType : ConfigType)
  : option ConfigParser :=
  match cache with
  | [] => None
  | (k, parser) :: rest =>
      if bool_decide (k = configType) then Some parser
      else cache_get rest configType
  end.

(** [getParser] with its cache: the parser and the cache afterwards.
    [Map.prototype.set] is only reached for a key that is absent, which it
    appends. *)
Definition getParser (cache : Cache) (configType : ConfigType)
  : ConfigParser * Cache :=
  match cache_get cache configType with
  | Some parser => (parser, cache)
  | None =>
      let cache' := cache ++ [(configType, createParser configType)] in
      (default (createParser configType) (cache_get cache' configType), cache')
  end.

End ParserOps.

(* ===================================================================== *)
(** * Properties of the other parser operations *)
(* ===================================================================== *)

Section ParserOpsProperties.
Import Parsers ParserOps.

(** ** Counting characters *)

(** How often [c] occurs in [s]. *)
Fixpoint count_char (c : ascii) (s : string) : nat :=
  match s with
  | EmptyString => 0
  | String a s' => (if Ascii.eqb a c then 1 else 0) + count_char c s'
  end.

Lemma split_nonempty sep s : Js.split sep s ≠ [].
Proof. destruct s as [|a s]; simpl; [done|]. by repeat case_match. Qed.

(** [split] cuts at every separator: one piece more than separators. *)
Lemma split_length sep s :
  length (Js.split sep s) = S (count_char sep s).
Proof.
  induction s as [|a s IH]; [done|]. simpl.
  destruct (Ascii.eqb a sep); simpl; [by rewrite IH|].
  destruct (Js.split sep s) eqn:E; [by apply split_nonempty in E|].
  simpl in *. lia.
Qed.

Lemma includes_char c s :
  Js.includes s (String c "") = (0 <? count_char c s)%nat.
Proof.
  induction s as [|a s IH]; [done|].
  cbn [Js.includes count_char]. rewrite IH. simpl.
  destruct (ascii_dec c a) as [->|Hne].
  - rewrite Ascii.eqb_refl. by destruct s.
  - assert (Ascii.eqb a c = false) as ->; [|done].
    apply Ascii.eqb_neq. congruence.
Qed.

(** ** Deduplication *)

Lemma dedupe_from_spec arr : ∀ seen,
  NoDup (dedupe_from seen arr)
  ∧ ∀ x, x ∈ dedupe_from seen arr ↔ x ∈ arr ∧ x ∉ seen.
Proof.
  induction arr as [|a arr IH]; intros seen; simpl.
  - split; [constructor|]. intros x. split; [by intros ?%elem_of_nil|].
    by intros [?%elem_of_nil _].
  - case_bool_decide as Ha.
    + destruct (IH seen) as [Hnd Hin]. split; [done|].
      intros x. rewrite Hin, elem_of_cons. split; [tauto|].
      intros [[->|?] ?]; tauto.
    + destruct (IH (a :: seen)) as [Hnd Hin]. split.
      * constructor; [|done]. rewrite Hin. rewrite elem_of_cons. tauto.
      * intros x. rewrite elem_of_cons, Hin, !elem_of_cons.
        destruct (decide (x = a)) as [->|]; tauto.
Qed.

Lemma dedupe_NoDup arr : NoDup (dedupe arr).
Proof. apply dedupe_from_spec. Qed.

Lemma elem_of_dedupe arr x : x ∈ dedupe arr ↔ x ∈ arr.
Proof.
  unfold dedupe. rewrite (proj2 (dedupe_from_spec arr [])).
  split; [by intros [? _]|]. intros H. split; [done|]. apply not_elem_of_nil.
Qed.

(** The first element stays first. *)
Lemma dedupe_cons x arr :
  ∃ rest, dedupe (x :: arr) = x :: rest ∧ x ∉ rest.
Proof.
  unfold dedupe. cbn [dedupe_from].
  rewrite bool_decide_eq_false_2 by apply not_elem_of_nil.
  eexists. split; [done|]. rewrite (proj2 (dedupe_from_spec arr [x])).
  intros [_ H]. apply H. by left.
Qed.

(** ** Dependency lists *)

(** A usable package name: not empty and not a flag. *)
Definition clean (pkg : string) : bool :=
  Js.truthy pkg && negb (Js.startsWith pkg "-").

Lemma elem_of_features_of tests x :
  x ∈ features_of tests → ∃ c, (c, x) ∈ tests ∧ c = true.
Proof.
  unfold features_of. intros H. apply list_elem_of_fmap in H as ([c y] & -> & H).
  apply list_elem_of_filter in H as [Hc H]. by exists c.
Qed.

Lemma features_of_elem tests x : (true, x) ∈ tests → x ∈ features_of tests.
Proof.
  intros H. unfold features_of. apply list_elem_of_fmap. exists (true, x).
  split; [done|]. by apply list_elem_of_filter.
Qed.

Lemma install_arguments_clean re line :
  Forall (λ pkg, clean pkg = true) (install_arguments re line).
Proof.
  unfold install_arguments.
  destruct (Re.exec re line) as [m|]; [|constructor].
  destruct (Re.group 1 m); [|constructor].
  apply Forall_forall. intros x Hx. by apply list_elem_of_filter in Hx as [? _].
Qed.

Lemma apt_packages_clean line : Forall (λ pkg, clean pkg = true) (apt_packages line).
Proof.
  unfold apt_packages. destruct (_ || _); [|constructor].
  apply install_arguments_clean.
Qed.

Lemma table_values_clean (table : list (string * string)) (P : string * string → Prop)
    `{∀ e, Decision (P e)} :
  forallb (λ e, clean (snd e)) table = true →
  Forall (λ pkg, clean pkg = true) (map snd (filter P table)).
Proof.
  intros Hall. apply Forall_forall. intros x Hx.
  apply list_elem_of_fmap in Hx as (e & -> & He).
  apply list_elem_of_filter in He as [_ He].
  rewrite forallb_forall in Hall. by apply Hall, list_elem_of_In.
Qed.

Lemma bash_line_clean line :
  Forall (λ pkg, clean pkg = true) (ParserOps.Bash.line_dependencies line).
Proof.
  unfold ParserOps.Bash.line_dependencies.
  repeat (apply Forall_app; split);
    try apply apt_packages_clean;
    try (case_match; [apply install_arguments_clean|constructor]).
  by apply table_values_clean.
Qed.

Lemma vim_line_clean line :
  Forall (λ pkg, clean pkg = true) (ParserOps.Vim.line_dependencies line).
Proof.
  apply Forall_forall. intros x Hx.
  apply elem_of_features_of in Hx as (c & Hx & _).
  repeat (apply elem_of_cons in Hx as [Hx|Hx]; [by simplify_eq|]).
  by apply elem_of_nil in Hx.
Qed.

Lemma git_line_clean line :
  Forall (λ pkg, clean pkg = true) (ParserOps.Git.line_dependencies line).
Proof.
  unfold ParserOps.Git.line_dependencies.
  repeat (apply Forall_app; split); repeat case_match;
    try (by repeat constructor).
  by apply table_values_clean.
Qed.

Lemma concat_map_clean (f : string → list string) lines :
  (∀ line, Forall (λ pkg, clean pkg = true) (f line)) →
  Forall (λ pkg, clean pkg = true) (concat (map f lines)).
Proof.
  intros Hf. induction lines as [|l ls IH]; simpl; [constructor|].
  apply Forall_app. by split.
Qed.

(** X1.  Whatever the parser and the text, the dependency list has no
    duplicate, no empty name and no name that begins with a dash. *)
Theorem dependencies_are_distinct_package_names
    (configType : ConfigType) (text : string) :
  NoDup (extractDependencies configType text)
  ∧ Forall (λ pkg, pkg ≠ "" ∧ Js.startsWith pkg "-" = false)
      (extractDependencies configType text).
Proof.
  assert (Hclean : ∀ l, Forall (λ pkg, clean pkg = true) l →
            Forall (λ pkg, pkg ≠ "" ∧ Js.startsWith pkg "-" = false)
              (dedupe l)).
  { intros l Hl. apply Forall_forall. intros x Hx.
    rewrite elem_of_dedupe in Hx. rewrite Forall_forall in Hl.
    specialize (Hl x Hx). unfold clean in Hl.
    apply andb_true_iff in Hl as [Ht Hs]. apply negb_true_iff in Hs.
    split; [|done]. by intros ->. }
  destruct configType; simpl; (split; [apply dedupe_NoDup|]); apply Hclean;
    try (apply concat_map_clean; first [ apply bash_line_clean
                                       | apply git_line_clean
                                       | apply apt_packages_clean ]).
  - apply Forall_app. split; [|apply concat_map_clean, vim_line_clean].
    apply Forall_forall. intros x Hx.
    apply elem_of_features_of in Hx as (c & Hx & _).
    repeat (apply elem_of_cons in Hx as [Hx|Hx]; [by simplify_eq|]).
    by apply elem_of_nil in Hx.
  - constructor; [done|]. apply concat_map_clean, git_line_clean.
Qed.

Lemma elem_of_concat_map (f : string → list string) lines x :
  x ∈ concat (map f lines) ↔ ∃ line, line ∈ lines ∧ x ∈ f line.
Proof.
  induction lines as [|l ls IH]; simpl.
  - split; [by intros ?%elem_of_nil|]. by intros (? & ?%elem_of_nil & _).
  - rewrite elem_of_app, IH. split.
    + intros [H|(line & Hin & H)]; [exists l|exists line];
        (split; [|done]); [apply list_elem_of_here|by right].
    + intros (line & Hin & H). apply elem_of_cons in Hin as [->|Hin];
        [by left|right; by exists line].
Qed.

(** X2.  What the generic parser reports as dependencies, the arguments
    of the [apt install] and [apt-get install] lines, the shell parser
    reports too. *)
Theorem generic_dependencies_are_shell_dependencies (text pkg : string) :
  pkg ∈ ParserOps.Simple.extractDependencies text →
  pkg ∈ ParserOps.Bash.extractDependencies text.
Proof.
  unfold ParserOps.Simple.extractDependencies,
    ParserOps.Bash.extractDependencies.
  rewrite !elem_of_dedupe, !elem_of_concat_map.
  intros (line & Hin & H). exists line. split; [done|].
  unfold ParserOps.Bash.line_dependencies. apply elem_of_app. by left.
Qed.

Definition apt_line : string := "sudo apt-get install -y tmux zsh".

Lemma generic_dependencies_are_shell_dependencies_witness :
  "tmux" ∈ ParserOps.Simple.extractDependencies apt_line
  ∧ "tmux" ∈ ParserOps.Bash.extractDependencies apt_line.
Proof.
  assert (H : "tmux" ∈ ParserOps.Simple.extractDependencies apt_line).
  { apply (bool_decide_unpack _). by vm_compute. }
  split; [done|].
  by apply (generic_dependencies_are_shell_dependencies apt_line "tmux").
Defined.

(** X3.  The shell parser's command table works by substring: a line that
    contains the name of a command anywhere, and neither [which] nor
    [command -v], makes the command's package a dependency of the file. *)
Theorem shell_command_table_matches_substrings
    (text line command package : string) :
  line ∈ Js.lines text →
  (command, package) ∈ ParserOps.Bash.commandMap →
  Js.includes line command = true →
  Js.includes line "which" = false →
  Js.includes line "command -v" = false →
  package ∈ ParserOps.Bash.extractDependencies text.
Proof.
  intros Hline Hentry Hc Hw Hv.
  unfold ParserOps.Bash.extractDependencies.
  rewrite elem_of_dedupe, elem_of_concat_map. exists line. split; [done|].
  unfold ParserOps.Bash.line_dependencies. rewrite !elem_of_app.
  do 4 right. unfold ParserOps.Bash.getCommandDependencies.
  apply list_elem_of_fmap. exists (command, package). split; [done|].
  apply list_elem_of_filter. split; [|done]. simpl. by rewrite Hc, Hw, Hv.
Qed.

(** [digit] contains [git]. *)
Lemma shell_command_table_matches_substrings_witness :
  "git" ∈ ParserOps.Bash.extractDependencies "echo digit".
Proof.
  apply (shell_command_table_matches_substrings "echo digit" "echo digit"
           "git" "git").
  - apply list_elem_of_here.
  - apply list_elem_of_here.
  - reflexivity.
  - reflexivity.
  - reflexivity.
Defined.

(** X4.  A line that mentions [which] or [command -v] adds no package of
    the command table, whatever commands it names. *)
Theorem existence_checks_add_no_command_package (line : string) :
  Js.includes line "which" = true ∨ Js.includes line "command -v" = true →
  ParserOps.Bash.getCommandDependencies line = [].
Proof.
  intros H. unfold ParserOps.Bash.getCommandDependencies.
  assert (Hnone : ∀ table : list (string * string),
            filter (λ entry, Js.includes line (fst entry)
                             && negb (Js.includes line "which")
                             && negb (Js.includes line "command -v") = true)
              table = []).
  { induction table as [|e table IH]; [done|].
    rewrite filter_cons_False; [done|].
    destruct H as [-> | ->]; simpl;
      rewrite ?andb_false_r; done. }
  by rewrite Hnone.
Qed.

Lemma existence_checks_add_no_command_package_witness :
  ParserOps.Bash.getCommandDependencies "which git docker" = [].
Proof.
  apply (existence_checks_add_no_command_package "which git docker").
  left. reflexivity.
Defined.

Lemma prefix_app_needle a b s :
  String.prefix (a +:+ b) s = true → String.prefix a s = true.
Proof.
  revert s. induction a as [|c a IH]; intros s; [by destruct s|].
  rewrite app_cons. destruct s as [|d s]; simpl; [done|].
  destruct (ascii_dec c d); [apply IH|done].
Qed.

(** A text that contains a needle contains every prefix of the needle. *)
Lemma includes_needle_prefix a b s :
  Js.includes s (a +:+ b) = true → Js.includes s a = true.
Proof.
  induction s as [|c s IH]; cbn [Js.includes]; intros H.
  - apply orb_true_iff in H as [H|H]; [|done].
    apply prefix_app_needle in H. by rewrite H.
  - apply orb_true_iff in H as [H|H].
    + apply prefix_app_needle in H. by rewrite H.
    + rewrite (IH H). apply orb_true_r.
Qed.

(** X5.  A vim file that uses Vundle's [Plugin] command is reported to
    depend on vim-plug as well as on Vundle, because [Plugin] contains
    [Plug]. *)
Theorem vundle_file_also_requires_vim_plug (text : string) :
  Js.includes text "Plugin" = true →
  "vim-plug" ∈ ParserOps.Vim.extractDependencies text
  ∧ "Vundle.vim" ∈ ParserOps.Vim.extractDependencies text.
Proof.
  intros H. pose proof (includes_needle_prefix "Plug" "in" text H) as Hplug.
  unfold ParserOps.Vim.extractDependencies. rewrite !elem_of_dedupe, !elem_of_app.
  rewrite H, Hplug, !orb_true_r.
  split; left; apply features_of_elem.
  - apply list_elem_of_here.
  - apply list_elem_of_further, list_elem_of_here.
Qed.

Lemma vundle_file_also_requires_vim_plug_witness :
  "vim-plug" ∈ ParserOps.Vim.extractDependencies "Plugin 'VundleVim/Vundle.vim'"
  ∧ "Vundle.vim"
    ∈ ParserOps.Vim.extractDependencies "Plugin 'VundleVim/Vundle.vim'".
Proof.
  apply (vundle_file_also_requires_vim_plug "Plugin 'VundleVim/Vundle.vim'").
  reflexivity.
Defined.

(** X6.  The git parser's dependency list always starts with [git], which
    occurs in it only there. *)
Theorem git_dependencies_start_with_git (text : string) :
  ∃ rest, ParserOps.Git.extractDependencies text = "git" :: rest
          ∧ "git" ∉ rest.
Proof. apply dedupe_cons. Qed.

(** ** Validation *)

Lemma validate_lines_errors_kept check :
  (∀ n line d, dg_errors (check n line d) = dg_errors d) →
  ∀ lines i d, dg_errors (validate_lines check i lines d) = dg_errors d.
Proof.
  intros Hcheck. induction lines as [|l ls IH]; intros i d; [done|].
  simpl. by rewrite IH, Hcheck.
Qed.

(** X7.  The vim validator has no error rule: whatever the text, the
    result is valid and its error list is empty. *)
Theorem vim_validation_never_fails (text : string) :
  ∃ v, Parsers.Vim.validate text = Ok v ∧ isValid v = true ∧ errors v = [].
Proof.
  eexists. split; [reflexivity|]. unfold validation_of. simpl.
  rewrite validate_lines_errors_kept; [done|].
  intros n line d. unfold Parsers.Vim.check, add_warning, add_suggestion.
  by repeat case_match.
Qed.

(** The three error rules of the shell validator, on one line: an opened
    arithmetic expansion without [))], an opened variable expansion without
    a closing brace, an odd number of backticks. *)
Definition shell_line_error (line : string) : bool :=
  Js.includes line "$((" && negb (Js.includes line "))")
  || Js.includes line "${" && negb (Js.includes line "}")
  || Nat.odd (count_char "`" line).

Lemma odd_mod_2 n : Nat.odd n = negb (n mod 2 =? 0)%nat.
Proof.
  induction n as [n IH] using (well_founded_induction lt_wf).
  destruct n as [|[|n]]; [done..|].
  change (Nat.odd (S (S n))) with (Nat.odd n). rewrite IH by lia.
  replace (S (S n)) with (n + 1 * 2)%nat by lia.
  by rewrite Nat.Div0.mod_add.
Qed.

Lemma backtick_rule line :
  Js.includes line "`"
  && negb (Parsers.Bash.count_backticks line mod 2 =? 0)%nat
  = Nat.odd (count_char "`" line).
Proof.
  unfold Parsers.Bash.count_backticks.
  rewrite split_length, includes_char.
  replace (S (count_char "`" line) - 1)%nat with (count_char "`" line) by lia.
  rewrite <- odd_mod_2.
  by destruct (count_char "`" line).
Qed.

Lemma dg_errors_add_error c msg d :
  dg_errors (add_error c msg d)
  = if c then dg_errors d ++ [msg] else dg_errors d.
Proof. by destruct c. Qed.

Lemma dg_errors_add_warning c msg d :
  dg_errors (add_warning c msg d) = dg_errors d.
Proof. by destruct c. Qed.

Lemma dg_errors_add_suggestion c msg d :
  dg_errors (add_suggestion c msg d) = dg_errors d.
Proof. by destruct c. Qed.

Lemma shell_check_errors n line d :
  dg_errors (Parsers.Bash.check n line d) = []
  ↔ dg_errors d = [] ∧ shell_line_error line = false.
Proof.
  unfold Parsers.Bash.check, shell_line_error.
  rewrite <- backtick_rule.
  rewrite !dg_errors_add_suggestion, !dg_errors_add_warning,
    !dg_errors_add_error.
  destruct (Js.includes line "$((" && negb (Js.includes line "))"));
  destruct (Js.includes line "${" && negb (Js.includes line "}"));
  destruct (Js.includes line "`"
            && negb (Parsers.Bash.count_backticks line mod 2 =? 0)%nat);
  destruct (dg_errors d); simpl; split;
    first [ by intros [? ?] | by intros ? ].
Qed.

Lemma shell_validate_lines_errors lines : ∀ i d,
  dg_errors (validate_lines Parsers.Bash.check i lines d) = []
  ↔ dg_errors d = [] ∧ Forall (λ line, shell_line_error line = false) lines.
Proof.
  induction lines as [|l ls IH]; intros i d; simpl.
  - split; [by intros ?|by intros [? _]].
  - rewrite IH, shell_check_errors, Forall_cons. tauto.
Qed.

(** X8.  A shell text is valid exactly when none of its lines opens an
    arithmetic expansion it does not close, opens a variable expansion it
    does not close, or holds an odd number of backticks; warnings and
    suggestions play no part. *)
Theorem shell_validity_is_line_by_line (text : string) :
  ∃ v, Parsers.Bash.validate text = Ok v
       ∧ (isValid v = true
          ↔ Forall (λ line, shell_line_error line = false) (Js.lines text)).
Proof.
  eexists. split; [reflexivity|]. unfold validation_of. simpl.
  rewrite Nat.eqb_eq, length_zero_iff_nil, shell_validate_lines_errors.
  split; [by intros [_ ?]|done].
Qed.

(** ** Summaries *)

Lemma length_filter_le {A} (P : A → Prop) `{∀ x, Decision (P x)} (l : list A) :
  (length (filter P l) ≤ length l)%nat.
Proof. apply length_filter. Qed.

(** X9.  In every summary the line count is one more than the number of
    line feeds of the text (so 1 for the empty text), the function and
    variable counts do not exceed it, and a text of five lines or fewer is
    never flagged complex. *)
Theorem summary_counts (configType : ConfigType) (text : string) :
  let summary := getSummary configType text in
  lineCount summary = S (count_char Js.LF text)
  ∧ (functionCount summary ≤ lineCount summary)%nat
  ∧ (variableCount summary ≤ lineCount summary)%nat
  ∧ (isComplex summary = true → (5 < lineCount summary)%nat).
Proof.
  pose proof (split_length Js.LF text) as Hlen. fold (Js.lines text) in Hlen.
  assert (Hne : (length (nonEmptyLines (Js.lines text))
                 ≤ length (Js.lines text))%nat) by apply length_filter.
  assert (Hm : ∀ re, (length (lines_matching re (Js.lines text))
                      ≤ length (Js.lines text))%nat)
    by (intros; apply length_filter).
  destruct configType; simpl;
    (split; [done|]); (split; [first [apply Hm | lia]|]);
    (split; [first [apply Hm | apply length_filter | lia]|]);
    intros Hc; try apply orb_true_iff in Hc as [Hc|Hc];
    apply Nat.ltb_lt in Hc;
    repeat match goal with
           | |- context [lines_matching ?re _] =>
               lazymatch goal with
               | _ : (length (lines_matching re (Js.lines text))
                      ≤ length (Js.lines text))%nat |- _ => fail
               | _ => pose proof (Hm re)
               end
           | H : context [lines_matching ?re _] |- _ =>
               lazymatch goal with
               | _ : (length (lines_matching re (Js.lines text))
                      ≤ length (Js.lines text))%nat |- _ => fail
               | _ => pose proof (Hm re)
               end
           end; lia.
Qed.

(** ** Comments *)

(** The comment lines of a text, as the shell and git parsers see them:
    the lines that begin with [#] once trimmed. *)
Definition hash_lines (lines : list string) : list string :=
  filter (λ line, Js.startsWith (Js.trim line) "#" = true) lines.

(** What those parsers keep of a comment line. *)
Definition comment_text (line : string) : string :=
  Js.trim (Js.tail (Js.trim line)).

Lemma startsWith_empty s p :
  Js.truthy s = false → Js.startsWith s (String p "") = false.
Proof. by destruct s. Qed.

Lemma shell_step_comments line s :
  Parsers.Bash.s_comments (Parsers.Bash.step line s)
  = Parsers.Bash.s_comments s
    ++ (if Js.startsWith (Js.trim line) "#" then [comment_text line] else []).
Proof.
  unfold Parsers.Bash.step, comment_text.
  destruct (Js.truthy (Js.trim line)) eqn:Et; simpl.
  - destruct (Js.startsWith (Js.trim line) "#"); [done|].
    rewrite app_nil_r. by repeat case_match.
  - by rewrite (startsWith_empty _ _ Et), app_nil_r.
Qed.

Lemma shell_run_comments lines : ∀ s,
  Parsers.Bash.s_comments (foldl (λ s line, Parsers.Bash.step line s) s lines)
  = Parsers.Bash.s_comments s ++ map comment_text (hash_lines lines).
Proof.
  induction lines as [|l ls IH]; intros s; simpl; [by rewrite app_nil_r|].
  rewrite IH, shell_step_comments. unfold hash_lines.
  destruct (Js.startsWith (Js.trim l) "#") eqn:E.
  - rewrite filter_cons_True by done. simpl. by rewrite <- app_assoc.
  - rewrite filter_cons_False by (by rewrite E). by rewrite app_nil_r.
Qed.

Lemma git_step_comments line s s' :
  Parsers.Git.step line s = Some s' →
  Parsers.Git.s_comments s'
  = Parsers.Git.s_comments s
    ++ (if Js.startsWith (Js.trim line) "#" then [comment_text line] else []).
Proof.
  unfold Parsers.Git.step, comment_text.
  destruct (Js.truthy (Js.trim line)) eqn:Et; simpl.
  - destruct (Js.startsWith (Js.trim line) "#"); [by intros ?; simplify_eq|].
    rewrite app_nil_r. repeat case_match; intros ?; by simplify_eq.
  - rewrite (startsWith_empty _ _ Et), app_nil_r. by intros ?; simplify_eq.
Qed.

Lemma git_run_comments lines : ∀ s s',
  Parsers.Git.run_lines lines s = Some s' →
  Parsers.Git.s_comments s'
  = Parsers.Git.s_comments s ++ map comment_text (hash_lines lines).
Proof.
  induction lines as [|l ls IH]; intros s s'; simpl.
  - intros ?; simplify_eq. by rewrite app_nil_r.
  - destruct (Parsers.Git.step l s) as [s1|] eqn:E1; [|done].
    intros H. rewrite (IH _ _ H), (git_step_comments _ _ _ E1).
    unfold hash_lines.
    destruct (Js.startsWith (Js.trim l) "#") eqn:E.
    + rewrite filter_cons_True by done. simpl. by rewrite <- app_assoc.
    + rewrite filter_cons_False by (by rewrite E). by rewrite app_nil_r.
Qed.

(** X10.  The shell, git and generic parsers agree on which lines are
    comments: the comments of a shell or git parse are those of the generic
    parse of the same file, each without its leading [#] and trimmed
    again. *)
Theorem comments_agree_across_parsers
    (configType : ConfigType) (config : DotfileConfig)
    (pc generic : ParsedConfig) :
  configType = bash ∨ configType = zsh ∨ configType = git →
  parse (createParser configType) config = Done (Ok pc) →
  parse (createParser custom) config = Done (Ok generic) →
  comments pc = map (λ c, Js.trim (Js.tail c)) (comments generic).
Proof.
  intros Hk Hpc Hg. simpl in Hg. unfold Parsers.Simple.parse in Hg.
  simplify_eq. simpl. rewrite map_map. fold (hash_lines (Js.lines (content config))).
  destruct Hk as [->|[->| ->]]; simpl in Hpc.
  - unfold Parsers.Bash.parse in Hpc. simpl in Hpc. simplify_eq. simpl.
    unfold Parsers.Bash.run_lines. by rewrite shell_run_comments.
  - unfold Parsers.Bash.parse in Hpc. simpl in Hpc. simplify_eq. simpl.
    unfold Parsers.Bash.run_lines. by rewrite shell_run_comments.
  - unfold Parsers.Git.parse in Hpc.
    destruct (Parsers.Git.run_lines _ _) as [s|] eqn:E; [|done].
    simpl in Hpc. simplify_eq. simpl. by rewrite (git_run_comments _ _ _ E).
Qed.

Definition commented_git : DotfileConfig :=
  Demo.config_of ("  # identity  " +:+ Demo.NL +:+ "[user]" +:+ Demo.NL
                  +:+ "name = A").

Lemma comments_agree_across_parsers_witness :
  ∃ pc generic,
    parse (createParser git) commented_git = Done (Ok pc)
    ∧ parse (createParser custom) commented_git = Done (Ok generic)
    ∧ comments generic = ["# identity"]
    ∧ comments pc = map (λ c, Js.trim (Js.tail c)) (comments generic).
Proof.
  do 2 eexists. split; [reflexivity|]. split; [reflexivity|].
  split; [reflexivity|].
  apply (comments_agree_across_parsers git commented_git);
    [by right; right|reflexivity|reflexivity].
Defined.

(** ** One rule per line *)

(** The number of things a shell parse has collected. *)
Definition collected (s : Parsers.Bash.State) : nat :=
  base.size (Parsers.Bash.s_variables s) + length (Parsers.Bash.s_imports s)
  + length (Parsers.Bash.s_comments s) + length (Parsers.Bash.s_functions s)
  + length (Parsers.Bash.s_aliases s).

Lemma size_obj_set (key : string) (value : Value) (obj : gmap string Value) :
  (base.size (obj_set key value obj) ≤ S (base.size obj))%nat.
Proof.
  unfold obj_set. destruct (String.eqb key "__proto__"); [lia|].
  destruct (obj !! key) eqn:E.
  - rewrite map_size_insert_Some by done. lia.
  - rewrite map_size_insert_None by done. lia.
Qed.

Lemma shell_step_collected line s :
  (collected (Parsers.Bash.step line s)
   ≤ collected s + (if Js.truthy (Js.trim line) then 1 else 0))%nat.
Proof.
  unfold Parsers.Bash.step, collected, push.
  destruct (Js.truthy (Js.trim line)); simpl; [|lia].
  repeat case_match; simpl; rewrite ?length_app; simpl;
    try pose proof (size_obj_set s0 (Parsers.Bash.parseValue s1)
                      (Parsers.Bash.s_variables s));
    lia.
Qed.

Lemma shell_run_collected lines : ∀ s,
  (collected (foldl (λ s line, Parsers.Bash.step line s) s lines)
   ≤ collected s + length (nonEmptyLines lines))%nat.
Proof.
  induction lines as [|l ls IH]; intros s; simpl; [lia|].
  etrans; [apply IH|]. pose proof (shell_step_collected l s) as Hs.
  unfold nonEmptyLines in *.
  destruct (Js.truthy (Js.trim l)) eqn:E.
  - rewrite filter_cons_True by done. simpl. lia.
  - rewrite filter_cons_False by (by rewrite E). lia.
Qed.

(** [data.functions] of a shell parse. *)
Definition bash_functions (d : ParsedData) : list string :=
  match d with
  | BashData _ _ _ functions _ _ => functions
  | _ => []
  end.

(** X11.  The shell parser applies at most one rule to a line and none to
    a blank line: the variables, imports, comments, functions and aliases
    of a parse are together no more than the non-blank lines of the
    file. *)
Theorem shell_parse_collects_at_most_one_item_per_line (config : DotfileConfig) :
  ∃ pc, parse BashParser config = Done (Ok pc)
        ∧ (base.size (variables pc) + length (imports pc) + length (comments pc)
           + length (bash_functions (data pc))
           + length (bash_aliases (data pc))
           ≤ length (nonEmptyLines (Js.lines (content config))))%nat.
Proof.
  eexists. split; [apply parse_result|]. simpl.
  pose proof (shell_run_collected (Js.lines (content config)) Parsers.Bash.init)
    as H.
  unfold collected in H at 1. unfold Parsers.Bash.run_lines.
  etrans; [exact H|]. by vm_compute (collected Parsers.Bash.init).
Qed.

(** ** The parser cache *)

(** Every cached parser is the parser [createParser] builds for its key. *)
Definition cache_ok (cache : Cache) : Prop :=
  ∀ k parser, cache_get cache k = Some parser → parser = createParser k.

Lemma cache_get_app cache k (parser : ConfigParser) key :
  cache_get (cache ++ [(k, parser)]) key
  = match cache_get cache key with
    | Some p => Some p
    | None => if bool_decide (k = key) then Some parser else None
    end.
Proof.
  induction cache as [|[k' p'] cache IH]; [reflexivity|].
  cbn [app cache_get]. destruct (bool_decide (k' = key)); [done|apply IH].
Qed.

(** X12.  The cache of [ParserFactory] is transparent: from a cache that
    holds only parsers built by [createParser] (the empty one, to begin
    with), [getParser] returns the parser [createParser] builds, leaves
    such a cache, keeps every other entry, and a second request for the
    same kind returns the same parser without changing the cache. *)
Theorem parser_cache_is_transparent (cache : Cache) (configType : ConfigType) :
  cache_ok cache →
  let (parser, cache') := ParserOps.getParser cache configType in
  parser = createParser configType
  ∧ cache_ok cache'
  ∧ (∀ k, k ≠ configType → cache_get cache' k = cache_get cache k)
  ∧ ParserOps.getParser cache' configType = (parser, cache').
Proof.
  intros Hok. unfold ParserOps.getParser.
  destruct (cache_get cache configType) as [p|] eqn:E.
  - rewrite E. by rewrite (Hok _ _ E) in *.
  - rewrite cache_get_app, E, bool_decide_eq_true_2 by done. simpl.
    split; [done|]. split; [|split].
    + intros k parser. rewrite cache_get_app.
      destruct (cache_get cache k) eqn:Ek; [by intros; simplify_eq; apply Hok|].
      case_bool_decide; intros; by simplify_eq.
    + intros k Hk. rewrite cache_get_app.
      destruct (cache_get cache k); [done|].
      by rewrite bool_decide_eq_false_2.
    + done.
Qed.

Lemma parser_cache_is_transparent_witness :
  ParserOps.getParser [] vim = (VimParser, [(vim, VimParser)])
  ∧ ParserOps.getParser [(vim, VimParser)] vim
    = (VimParser, [(vim, VimParser)]).
Proof.
  pose proof (parser_cache_is_transparent [] vim) as H.
  simpl in H. split; [reflexivity|]. apply H. by intros k parser.
Defined.

End ParserOpsProperties.

(* ===================================================================== *)
(** * More properties of the scanner *)
(* ===================================================================== *)

Section ScannerResults.
Variable w : World.

(** ** The errors of a scan *)

(** The category and the name of a [ScanError] as [scan] fills them in. *)
Definition error_wellformed (e : ScanError) : Prop :=
  se_type e = categorizeError (mkError (se_name e) (se_message e))
  ∧ se_name e ≠ "".

Lemma name_or_default_nonempty e : name_or_default e ≠ "".
Proof.
  unfold name_or_default. by destruct (err_name e).
Qed.

Lemma scan_paths_errors_shape fuel o ps : ∀ cs es t cs' es' t',
  scan_paths w fuel o ps cs es t = Done ((cs', es'), t') →
  ∃ new, es' = es ++ new
         ∧ map se_path new `sublist_of` map (resolvePath w) ps
         ∧ Forall error_wellformed new.
Proof.
  induction ps as [|p ps IH]; intros cs es t cs' es' t' H.
  - simpl in H. unfold ret, mret, IO_ret in H. simplify_eq.
    exists []. by rewrite app_nil_r.
  - simpl in H. unfold mbind, IO_bind in H.
    destruct (scanPath w fuel _ o t) as [[[data|e] t1]| |]; [| |done..].
    + apply IH in H as (new & -> & Hsub & Hwf). exists new.
      split; [done|]. split; [|done]. simpl. by apply sublist_cons.
    + apply IH in H as (new & -> & Hsub & Hwf).
      eexists (_ :: new). split; [by rewrite <- app_assoc|].
      split; [simpl; by apply sublist_skip|].
      constructor; [|done]. split; [done|]. apply name_or_default_nonempty.
Qed.

(** X13.  A scan reports at most one error per requested path, in the
    order of the requests: the paths of its errors are a sub-sequence of
    the resolved requested paths.  Every error carries the category of its
    own message and a name that is not empty. *)
Theorem scan_reports_one_error_per_failed_request
    (fuel : nat) (o : ScanOptions) (r : ScanResult) (t : Trace) :
  run_scan w fuel o = Done (Ok r, t) →
  map se_path (errors r) `sublist_of` map (resolvePath w) (pathsToScan o)
  ∧ (length (errors r) ≤ totalFiles (metadata r))%nat
  ∧ Forall error_wellformed (errors r).
Proof.
  intros H. apply scan_result in H as (cs & es & H & Hr). simplify_eq. simpl.
  apply scan_paths_errors_shape in H as (new & -> & Hsub & Hwf). simpl.
  split; [done|]. split; [|done].
  apply sublist_length in Hsub. by rewrite !length_map in Hsub.
Qed.

(** ** The records of a scan *)

(** The record is exactly what the file system says of its path: the
    content [readFile] returns, the size and date [stat] reports, the type
    the Type Classifier gives the path, and the three constant fields. *)
Definition faithful (c : DotfileConfig) : Prop :=
  ∃ stats text,
    w_stat w (path c) = Ok stats
    ∧ w_readFile w (path c) = Ok text
    ∧ determineConfigType (path c) = Some (type c)
    ∧ c = record_of (path c) (type c) stats text.

(** A computation all of whose records satisfy [P]. *)
Definition yields (P : DotfileConfig → Prop)
    (m : IO (Result (list DotfileConfig) JsError)) : Prop :=
  ∀ t data t', m t = Done (Ok data, t') → Forall P data.

Lemma scanFile_yields_faithful o q : yields faithful (scanFile w q o).
Proof.
  intros t data t' H. unfold scanFile, stat, readFile, mbind, IO_bind in H.
  destruct (w_stat w q) as [stats|] eqn:Es; [|done].
  destruct (_ >? _); [done|].
  destruct (w_readFile w q) as [text|] eqn:Er; [|done].
  destruct (determineConfigType q) as [k|] eqn:Ek;
    unfold ret, mret, IO_ret in H; simplify_eq; [|constructor].
  constructor; [|constructor]. by exists stats, text.
Qed.

Lemma walk_entries_yields P o scanSub dir :
  (∀ q, yields P (scanFile w q o)) →
  (∀ sub, yields P (scanSub sub)) →
  ∀ entries cs t data t',
    Forall P cs →
    walk_entries w scanSub dir o entries cs t = Done (Ok data, t') →
    Forall P data.
Proof.
  intros Hfile Hsub.
  induction entries as [|entry rest IH]; intros cs t data t' Hcs H.
  - simpl in H. unfold ret, mret, IO_ret in H. by simplify_eq.
  - simpl in H.
    destruct (hidden_skipped o && Js.startsWith (d_name entry) ".");
      [by eapply IH|].
    destruct (shouldExclude _ _) as [[[|]|e]|]; [by eapply IH| |done..].
    destruct (d_kind entry); [| |by eapply IH]; unfold mbind, IO_bind in H.
    + destruct (scanFile w _ o t) as [[[d1|e1] t1]| |] eqn:E1; [| |done..].
      * eapply IH; [|exact H]. apply Forall_app. split; [done|].
        by eapply Hfile.
      * by eapply IH.
    + destruct (scanSub _ t) as [[[d1|e1] t1]| |] eqn:E1; [| |done..].
      * eapply IH; [|exact H]. apply Forall_app. split; [done|].
        by eapply Hsub.
      * by eapply IH.
Qed.

Lemma scanDirectory_yields P o fuel :
  (∀ q, yields P (scanFile w q o)) →
  ∀ dir, yields P (scanDirectory w fuel dir o).
Proof.
  intros Hfile. induction fuel as [|fuel IH]; intros dir t data t' H; [done|].
  simpl in H. unfold mbind, IO_bind, readdir in H.
  destruct (w_readdir w dir) as [entries|e]; [|done].
  eapply (walk_entries_yields P); [done|exact IH|constructor|exact H].
Qed.

Lemma scanPath_yields P o fuel p :
  (∀ q, yields P (scanFile w q o)) → yields P (scanPath w fuel p o).
Proof.
  intros Hfile t data t' H. unfold scanPath, stat, mbind, IO_bind in H.
  destruct (w_stat w p) as [stats|e]; [|done].
  destruct (st_kind stats); [by eapply Hfile| |done].
  by eapply scanDirectory_yields.
Qed.

Lemma scan_paths_yields P o fuel ps :
  (∀ q, yields P (scanFile w q o)) →
  ∀ cs es t cs' es' t',
    Forall P cs →
    scan_paths w fuel o ps cs es t = Done ((cs', es'), t') → Forall P cs'.
Proof.
  intros Hfile. induction ps as [|p ps IH]; intros cs es t cs' es' t' Hcs H.
  - simpl in H. unfold ret, mret, IO_ret in H. by simplify_eq.
  - simpl in H. unfold mbind, IO_bind in H.
    destruct (scanPath w fuel _ o t) as [[[data|e] t1]| |] eqn:E1;
      [| |done..].
    + eapply IH; [|exact H]. apply Forall_app. split; [done|].
      by eapply scanPath_yields.
    + by eapply IH.
Qed.

(** X14.  Every record of a scan, whether its file was requested or found
    in a directory walk, is faithful to the file system: its content is
    what [readFile] returns for its path, its size and date are those
    [stat] reports, its type is the one the Type Classifier gives the path,
    it has no dependencies, is active and is not backed up. *)
Theorem scan_records_are_faithful
    (fuel : nat) (o : ScanOptions) (r : ScanResult) (t : Trace) :
  run_scan w fuel o = Done (Ok r, t) → Forall faithful (configs r).
Proof.
  intros H. apply scan_result in H as (cs & es & H & Hr). simplify_eq. simpl.
  eapply (scan_paths_yields faithful); [|constructor|exact H].
  intros q. apply scanFile_yields_faithful.
Qed.

(** ** The file-system calls of a scan *)

(** A trace in which every read of a file comes right after a [stat] of
    the same file. *)
Inductive disciplined : Trace → Prop :=
| disciplined_nil : disciplined []
| disciplined_stat p t : disciplined t → disciplined (EvStat p :: t)
| disciplined_readdir p t : disciplined t → disciplined (EvReaddir p :: t)
| disciplined_read p t :
    disciplined t → disciplined (EvReadFile p :: EvStat p :: t).

(** A computation that keeps traces disciplined. *)
Definition keeps_discipline {A} (m : IO A) : Prop :=
  ∀ t a t', disciplined t → m t = Done (a, t') → disciplined t'.

Lemma scanFile_discipline o q : keeps_discipline (scanFile w q o).
Proof.
  intros t r t' Ht H. unfold scanFile, stat, readFile, mbind, IO_bind in H.
  destruct (w_stat w q) as [stats|];
    [|unfold ret, mret, IO_ret in H; simplify_eq; by constructor].
  destruct (_ >? _);
    [unfold ret, mret, IO_ret in H; simplify_eq; by constructor|].
  destruct (w_readFile w q);
    [destruct (determineConfigType q)|];
    unfold ret, mret, IO_ret in H; simplify_eq;
    by apply disciplined_read.
Qed.

Lemma walk_entries_discipline o scanSub dir :
  (∀ sub, keeps_discipline (scanSub sub)) →
  ∀ entries cs, keeps_discipline (walk_entries w scanSub dir o entries cs).
Proof.
  intros Hsub. induction entries as [|entry rest IH]; intros cs t r t' Ht H.
  - simpl in H. unfold ret, mret, IO_ret in H. by simplify_eq.
  - simpl in H.
    destruct (hidden_skipped o && Js.startsWith (d_name entry) ".");
      [by eapply IH|].
    destruct (shouldExclude _ _) as [[[|]|e]|];
      [by eapply IH| |unfold ret, mret, IO_ret in H; by simplify_eq|done].
    destruct (d_kind entry); [| |by eapply IH]; unfold mbind, IO_bind in H.
    + destruct (scanFile w _ o t) as [[r1 t1]| |] eqn:E1; [|done..].
      apply scanFile_discipline in E1; [|done].
      destruct r1; by eapply IH.
    + destruct (scanSub _ t) as [[r1 t1]| |] eqn:E1; [|done..].
      apply Hsub in E1; [|done].
      destruct r1; by eapply IH.
Qed.

Lemma scanDirectory_discipline o fuel :
  ∀ dir, keeps_discipline (scanDirectory w fuel dir o).
Proof.
  induction fuel as [|fuel IH]; intros dir t r t' Ht H; [done|].
  simpl in H. unfold mbind, IO_bind, readdir in H.
  destruct (w_readdir w dir) as [entries|e].
  - eapply walk_entries_discipline; [exact IH| |exact H]. by constructor.
  - unfold ret, mret, IO_ret in H. simplify_eq. by constructor.
Qed.

Lemma scanPath_discipline o fuel p : keeps_discipline (scanPath w fuel p o).
Proof.
  intros t r t' Ht H. unfold scanPath, stat, mbind, IO_bind in H.
  destruct (w_stat w p) as [stats|e];
    [|unfold ret, mret, IO_ret in H; simplify_eq; by constructor].
  destruct (st_kind stats).
  - eapply scanFile_discipline; [|exact H]. by constructor.
  - eapply scanDirectory_discipline; [|exact H]. by constructor.
  - unfold ret, mret, IO_ret in H. simplify_eq. by constructor.
Qed.

Lemma scan_paths_discipline o fuel ps :
  ∀ cs es, keeps_discipline (scan_paths w fuel o ps cs es).
Proof.
  induction ps as [|p ps IH]; intros cs es t r t' Ht H.
  - simpl in H. unfold ret, mret, IO_ret in H. by simplify_eq.
  - simpl in H. unfold mbind, IO_bind in H.
    destruct (scanPath w fuel _ o t) as [[r1 t1]| |] eqn:E1; [|done..].
    apply scanPath_discipline in E1; [|done].
    destruct r1; by eapply IH.
Qed.

Lemma disciplined_lookup t :
  disciplined t →
  ∀ i p, t !! i = Some (EvReadFile p) → t !! S i = Some (EvStat p).
Proof.
  induction 1 as [|q t _ IH|q t _ IH|q t _ IH]; intros i p Hi.
  - done.
  - destruct i as [|i]; [done|]. simpl in *. by apply IH.
  - destruct i as [|i]; [done|]. simpl in *. by apply IH.
  - destruct i as [|[|i]]; simpl in *; [by simplify_eq|done|by apply IH].
Qed.

(** X15.  A scan never reads a file it has not just stat'ed: in the trace
    of a scan (most recent call first) every [readFile] is immediately
    preceded in time by a [stat] of the same path. *)
Theorem scan_reads_only_after_stat
    (fuel : nat) (o : ScanOptions) (r : Result ScanResult JsError) (t : Trace) :
  run_scan w fuel o = Done (r, t) →
  ∀ i p, t !! i = Some (EvReadFile p) → t !! S i = Some (EvStat p).
Proof.
  intros H. apply disciplined_lookup.
  unfold run_scan in H. apply scan_result in H as (cs & es & H & _).
  eapply scan_paths_discipline; [|exact H]. constructor.
Qed.

End ScannerResults.

Section ScannerErrors.
Variable w : World.

(** ** Missing paths *)

Definition is_quote (a : ascii) : bool := Ascii.eqb a "'".

(** A needle without a single quote lies in a quoted text only inside the
    quotes. *)
Lemma includes_quoted head p needle :
  needle ≠ "" →
  all_chars (λ a, negb (is_quote a)) needle = true →
  Js.includes (head +:+ "'" +:+ p +:+ "'") needle
  = Js.includes head needle || Js.includes p needle.
Proof.
  intros Hne Hn.
  change (head +:+ "'" +:+ p +:+ "'") with (head +:+ String "'" (p +:+ "'")).
  rewrite (includes_app_foreign is_quote) by done. f_equal.
  change (String "'" (p +:+ "'")) with ("'" +:+ (p +:+ "'")).
  rewrite (includes_skip_foreign is_quote needle "'" (p +:+ "'")) by done.
  change (p +:+ "'") with (p +:+ String "'" "").
  rewrite (includes_app_foreign is_quote) by done.
  assert (Js.includes "'" needle = false) as ->; [|apply orb_false_r].
  destruct needle as [|a n]; [done|]. simpl in Hn.
  apply andb_true_iff in Hn as [Ha _]. unfold is_quote in Ha.
  apply negb_true_iff, Ascii.eqb_neq in Ha.
  cbn [Js.includes]. rewrite prefix_cons_ne by done. simpl.
  by destruct n.
Qed.

(** The category of Node's error for a missing path: the tests for a
    permission error come first and look at the whole message, path
    included. *)
Lemma categorizeError_ENOENT p :
  categorizeError (ENOENT "stat" p)
  = if Js.includes (Js.toLowerCase p) "permission denied"
       || Js.includes (Js.toLowerCase p) "eacces"
    then permission else not_found.
Proof.
  unfold categorizeError, ENOENT. simpl err_message.
  rewrite !toLowerCase_app.
  change (Js.toLowerCase "ENOENT: no such file or directory, ")
    with "enoent: no such file or directory, ".
  change (Js.toLowerCase "stat") with "stat".
  change (Js.toLowerCase " '") with " '". change (Js.toLowerCase "'") with "'".
  change ("enoent: no such file or directory, " +:+ "stat" +:+ " '"
          +:+ Js.toLowerCase p +:+ "'")
    with ("enoent: no such file or directory, stat " +:+ "'"
          +:+ Js.toLowerCase p +:+ "'").
  rewrite !includes_quoted by done.
  change (Js.includes "enoent: no such file or directory, stat "
            "permission denied") with false.
  change (Js.includes "enoent: no such file or directory, stat " "eacces")
    with false.
  change (Js.includes "enoent: no such file or directory, stat "
            "no such file") with true.
  simpl. by destruct (_ || _).
Qed.

(** X16.  Scanning one requested path that does not exist returns no
    record and, without any read, one error.  Its category is not-found,
    except that a path with [permission denied] or [eacces] in it, in any
    letter case, is reported as a permission error. *)
Theorem missing_path_category (fuel : nat) (o : ScanOptions) (p : string) :
  paths o = Some [p] →
  w_stat w (resolvePath w p) = Err (ENOENT "stat" (resolvePath w p)) →
  ∃ r e,
    run_scan w fuel o = Done (Ok r, [EvStat (resolvePath w p)])
    ∧ configs r = []
    ∧ errors r = [e]
    ∧ se_path e = resolvePath w p
    ∧ se_type e
      = if Js.includes (Js.toLowerCase (resolvePath w p)) "permission denied"
           || Js.includes (Js.toLowerCase (resolvePath w p)) "eacces"
        then permission else not_found.
Proof.
  intros Hp Hstat. unfold run_scan.
  rewrite (scan_single _ _ _ p) by (unfold pathsToScan; by rewrite Hp).
  rewrite (scanPath_stat_fails _ _ _ _ _ _ Hstat). simpl.
  do 2 eexists. split; [reflexivity|]. simpl.
  split; [done|]. split; [done|]. split; [done|].
  apply categorizeError_ENOENT.
Qed.


(** ** What can make a directory walk fail *)

Lemma compile_derived_source source pattern :
  ∀ e, Glob.compile_from source (Glob.star_to_dotstar pattern)
       ≠ Glob.SyntaxError e.
Proof.
  induction pattern as [|a rest IH]; intros e; [done|].
  simpl. destruct (Ascii.eqb a "*") eqn:E.
  - rewrite compile_from_cons. simpl.
    specialize (IH e).
    destruct (Glob.compile_from source (Glob.star_to_dotstar rest));
      congruence.
  - rewrite compile_from_cons, E.
    destruct (Ascii.eqb a "." || negb (Glob.is_syntax_char a)); [|done].
    simpl. destruct (Glob.star_to_dotstar rest) as [|b rest'] eqn:Hsrc; [done|].
    rewrite (star_to_dotstar_head _ _ _ Hsrc). specialize (IH e).
    destruct (Glob.compile_from source (b :: rest')); congruence.
Qed.

(** Replacing every star by [.*] leaves no quantifier without an atom:
    the Exclusion Matcher does not throw. *)
Lemma shouldExclude_never_throws q patterns e :
  shouldExclude q patterns ≠ Some (Err e).
Proof.
  destruct patterns as [patterns|]; [|done]. simpl.
  induction patterns as [|pattern rest IH]; [done|]. simpl.
  unfold pattern_matches, Glob.RegExp.
  pose proof (compile_derived_source
                (Js.chars (Js.str (Glob.star_to_dotstar (Js.chars pattern))))
                (Js.chars pattern)) as Hc.
  unfold Js.str in *. rewrite list_ascii_of_string_of_list_ascii in *.
  destruct (Glob.compile_from _ _) as [r|e'|]; [|by destruct (Hc e')|done].
  by destruct (Re.test r q).
Qed.

Lemma walk_entries_never_fails scanSub dir o : ∀ entries cs t e t',
  walk_entries w scanSub dir o entries cs t ≠ Done (Err e, t').
Proof.
  induction entries as [|entry rest IH]; intros cs t e t'; [done|].
  simpl. destruct (hidden_skipped o && Js.startsWith (d_name entry) ".");
    [apply IH|].
  pose proof (shouldExclude_never_throws
                (Path.join dir (d_name entry)) (excludePatterns o)) as Hx.
  destruct (shouldExclude _ _) as [[[|]|e']|]; [apply IH| |by destruct (Hx e')|done].
  destruct (d_kind entry); [| |apply IH]; unfold mbind, IO_bind.
  - destruct (scanFile w _ o t) as [[[d1|e1] t1]| |]; try done; apply IH.
  - destruct (scanSub _ t) as [[[d1|e1] t1]| |]; try done; apply IH.
Qed.

(** X17.  A directory walk fails only when the directory itself cannot be
    listed: neither an exclude pattern (of ordinary characters, dots and
    stars, the patterns this development covers) nor an entry that cannot
    be scanned nor a sub-directory that cannot be listed fails it.  The
    failure is then the error of [readdir], and nothing else was called. *)
Theorem directory_walk_fails_only_on_readdir
    (fuel : nat) (dir : string) (o : ScanOptions) (t t' : Trace) (e : JsError) :
  scanDirectory w fuel dir o t = Done (Err e, t') →
  w_readdir w dir = Err e ∧ t' = EvReaddir dir :: t.
Proof.
  destruct fuel as [|fuel]; [done|]. simpl.
  unfold mbind, IO_bind, readdir.
  destruct (w_readdir w dir) as [entries|e0].
  - intros H. by apply walk_entries_never_fails in H.
  - unfold ret, mret, IO_ret. intros H. by simplify_eq.
Qed.


End ScannerErrors.

(** A missing file under a directory called [Eacces]. *)
Lemma missing_path_category_witness :
  ∃ r e,
    run_scan Demo.world 0%nat (Demo.options_for ["/srv/Eacces/rc"])
    = Done (Ok r, [EvStat "/srv/Eacces/rc"])
    ∧ configs r = []
    ∧ errors r = [e]
    ∧ se_path e = "/srv/Eacces/rc"
    ∧ se_type e = permission.
Proof.
  apply (missing_path_category Demo.world 0%nat
           (Demo.options_for ["/srv/Eacces/rc"])
           "/srv/Eacces/rc"); reflexivity.
Defined.

Lemma directory_walk_fails_only_on_readdir_witness :
  w_readdir Demo.world "/home/u/.bashrc" = Err (Demo.ENOTDIR "/home/u/.bashrc")
  ∧ [EvReaddir "/home/u/.bashrc"] = [EvReaddir "/home/u/.bashrc"].
Proof.
  apply (directory_walk_fails_only_on_readdir Demo.world 1%nat
           "/home/u/.bashrc"
           no_options [] [EvReaddir "/home/u/.bashrc"]).
  reflexivity.
Defined.

(** ** A request with two missing paths around an existing file *)

Definition mixed_request : ScanOptions :=
  Demo.options_for ["/nonexistent"; "~/.bashrc"; "/also/missing"].

Definition missing (p : string) : ScanError :=
  {| se_path := p;
     se_message := err_message (ENOENT "stat" p);
     se_type := not_found;
     se_name := "Error" |}.

Definition mixed_result : ScanResult :=
  {| configs := [ record_of "/home/u/.bashrc" (Kind bash) bashrc_stats
                    Demo.bashrc_content ];
     metadata := {| totalFiles := 3;
                    validConfigs := 1;
                    duration := 5;
                    startTime := 1000;
                    endTime := 1005 |};
     errors := [ missing "/nonexistent"; missing "/also/missing" ] |}.

Definition mixed_trace : Trace :=
  [ EvStat "/also/missing"; EvReadFile "/home/u/.bashrc";
    EvStat "/home/u/.bashrc"; EvStat "/home/u/.bashrc";
    EvStat "/nonexistent" ].

Lemma scan_reports_one_error_per_failed_request_witness :
  map se_path (errors mixed_result)
    `sublist_of` map (resolvePath Demo.world) (pathsToScan mixed_request)
  ∧ (length (errors mixed_result) ≤ totalFiles (metadata mixed_result))%nat
  ∧ Forall error_wellformed (errors mixed_result).
Proof.
  apply (scan_reports_one_error_per_failed_request Demo.world 0
           mixed_request mixed_result mixed_trace).
  reflexivity.
Defined.

Lemma scan_records_are_faithful_witness :
  Forall (faithful Demo.world) (configs mixed_result).
Proof.
  apply (scan_records_are_faithful Demo.world 0 mixed_request mixed_result
           mixed_trace).
  reflexivity.
Defined.

Lemma scan_reads_only_after_stat_witness :
  mixed_trace !! 1%nat = Some (EvReadFile "/home/u/.bashrc")
  ∧ mixed_trace !! 2%nat = Some (EvStat "/home/u/.bashrc").
Proof.
  split; [reflexivity|].
  apply (scan_reads_only_after_stat Demo.world 0 mixed_request
           (Ok mixed_result) mixed_trace);
    reflexivity.
Defined.
(* ===================================================================== *)
(** * Hidden entries *)
(* ===================================================================== *)

(** The same file system with the dot entries left out of every directory
    listing. *)
Definition without_hidden (w : World) : World :=
  {| w_homedir := w_homedir w;
     w_cwd := w_cwd w;
     w_stat := w_stat w;
     w_readFile := w_readFile w;
     w_readdir p :=
       match w_readdir w p with
       | Ok entries =>
           Ok (List.filter (λ entry, negb (Js.startsWith (d_name entry) "."))
                 entries)
       | Err e => Err e
       end;
     w_clock := w_clock w |}.

Section HiddenEntries.
Variable w : World.
Variable o : ScanOptions.
Hypothesis Hskip : hidden_skipped o = true.

Lemma walk_entries_without_hidden scanSub scanSub' dir :
  (∀ sub t, scanSub' sub t = scanSub sub t) →
  ∀ entries cs t,
    walk_entries (without_hidden w) scanSub' dir o
      (List.filter (λ entry, negb (Js.startsWith (d_name entry) "."))
         entries) cs t
    = walk_entries w scanSub dir o entries cs t.
Proof using Hskip.
  intros Hsub. induction entries as [|entry rest IH]; intros cs t; [done|].
  cbn [List.filter walk_entries]. rewrite Hskip.
  destruct (Js.startsWith (d_name entry) ".") eqn:E; cbn [negb andb]; [done|].
  cbn [walk_entries]. rewrite Hskip, E. cbn [andb].
  destruct (shouldExclude _ _) as [[[|]|e]|]; try done.
  destruct (d_kind entry); [| |done]; unfold mbind, IO_bind.
  - change (scanFile (without_hidden w)) with (scanFile w).
    destruct (scanFile w _ o t) as [[[d1|e1] t1]| |]; done.
  - rewrite Hsub.
    destruct (scanSub _ t) as [[[d1|e1] t1]| |]; done.
Qed.

Lemma scanDirectory_without_hidden : ∀ fuel dir t,
  scanDirectory (without_hidden w) fuel dir o t = scanDirectory w fuel dir o t.
Proof using Hskip.
  induction fuel as [|fuel IH]; intros dir t; [done|].
  cbn [scanDirectory]. unfold mbind, IO_bind, readdir.
  cbn [w_readdir without_hidden].
  destruct (w_readdir w dir) as [entries|e]; [|done].
  by apply walk_entries_without_hidden.
Qed.

Lemma scanPath_without_hidden fuel p t :
  scanPath (without_hidden w) fuel p o t = scanPath w fuel p o t.
Proof using Hskip.
  unfold scanPath, mbind, IO_bind, stat. cbn [w_stat without_hidden].
  destruct (w_stat w p) as [st|e]; [|done].
  destruct (st_kind st); [done| |done].
  apply scanDirectory_without_hidden.
Qed.

Lemma scan_paths_without_hidden fuel : ∀ ps cs es t,
  scan_paths (without_hidden w) fuel o ps cs es t
  = scan_paths w fuel o ps cs es t.
Proof using Hskip.
  induction ps as [|p rest IH]; intros cs es t; [done|].
  cbn [scan_paths]. unfold mbind, IO_bind.
  change (resolvePath (without_hidden w)) with (resolvePath w).
  rewrite scanPath_without_hidden.
  destruct (scanPath w fuel _ o t) as [[[d1|e1] t1]| |]; done.
Qed.

(** X18.  Unless [includeHidden] is true, the dot entries of the
    directories a scan walks are invisible to it: the scan returns the
    same result, after the same file-system calls, as in a file system
    whose directory listings do not have them. *)
Theorem hidden_entries_are_invisible (fuel : nat) :
  run_scan (without_hidden w) fuel o = run_scan w fuel o.
Proof using Hskip.
  unfold run_scan, scan, mbind, IO_bind, now.
  cbn [w_clock without_hidden].
  rewrite scan_paths_without_hidden.
  destruct (scan_paths w fuel o _ _ _ _) as [[r t]| |]; done.
Qed.

End HiddenEntries.

Lemma hidden_entries_are_invisible_witness :
  w_readdir (without_hidden Demo.world) "/home/u"
  = Ok [mkDirent "notes.conf" RegularFile; mkDirent "sub" Directory]
  ∧ run_scan (without_hidden Demo.world) 3 (Demo.options_for ["/home/u"])
    = run_scan Demo.world 3 (Demo.options_for ["/home/u"]).
Proof.
  split; [reflexivity|].
  apply (hidden_entries_are_invisible Demo.world
           (Demo.options_for ["/home/u"])).
  reflexivity.
Defined.

(* ===================================================================== *)
(** * Paths and classification *)
(* ===================================================================== *)

Section PathProperties.

Definition no_slash (s : string) : bool :=
  all_chars (λ a, negb (Ascii.eqb a Path.slash)) s.

Lemma split_no_sep sep s :
  Forall (λ seg, all_chars (λ a, negb (Ascii.eqb a sep)) seg = true)
    (Js.split sep s).
Proof.
  induction s as [|a s IH]; simpl; [by repeat constructor|].
  destruct (Ascii.eqb a sep) eqn:E; [by constructor|].
  destruct (Js.split sep s) as [|h t]; [by repeat constructor; simpl; rewrite E|].
  apply Forall_cons in IH as [Hh Ht]. constructor; [|done].
  simpl. by rewrite E.
Qed.

Lemma split_sep_free sep s :
  all_chars (λ a, negb (Ascii.eqb a sep)) s = true → Js.split sep s = [s].
Proof.
  induction s as [|a s IH]; simpl; [done|]. intros H.
  apply andb_true_iff in H as [Ha Hs]. apply negb_true_iff in Ha.
  by rewrite Ha, IH.
Qed.

Lemma last_Forall {A} (P : A → Prop) (l : list A) d :
  Forall P l → P d → P (List.last l d).
Proof.
  induction l as [|a [|b l] IH]; intros Hl Hd; [done|by inversion Hl|].
  apply Forall_cons in Hl as [_ Hl]. by apply IH.
Qed.

Lemma basename_no_slash p : no_slash (Path.basename p) = true.
Proof.
  unfold Path.basename, Path.segments.
  apply (last_Forall (λ s, no_slash s = true)); [|done].
  apply list.Forall_forall. intros seg Hin.
  apply list_elem_of_filter in Hin as [_ Hin].
  pose proof (split_no_sep Path.slash p) as H.
  rewrite list.Forall_forall in H. by apply H.
Qed.

(** The base name of a name without a slash is the name itself. *)
Lemma basename_sep_free s : no_slash s = true → Path.basename s = s.
Proof.
  intros H. unfold Path.basename, Path.segments.
  rewrite split_sep_free by done. by destruct s.
Qed.

Lemma basename_idemp p : Path.basename (Path.basename p) = Path.basename p.
Proof. apply basename_sep_free, basename_no_slash. Qed.

Lemma extname_basename p : Path.extname (Path.basename p) = Path.extname p.
Proof. unfold Path.extname. by rewrite basename_idemp. Qed.

(** X19.  The kind of a file depends on its base name only: a file is
    classified as its bare name would be, whatever the directory it is in. *)
Theorem classification_ignores_directory (filePath : string) :
  determineConfigType filePath = determineConfigType (Path.basename filePath).
Proof.
  unfold determineConfigType. by rewrite basename_idemp, extname_basename.
Qed.

Lemma inherited_not_own key :
  inherited key = true → CONFIG_TYPE_MAPPING !! key = None.
Proof.
  unfold inherited. intros H. apply existsb_exists in H as (m & Hin & Hm).
  apply String.eqb_eq in Hm as <-.
  apply list_elem_of_In in Hin.
  repeat (apply elem_of_cons in Hin as [->|Hin]; [reflexivity|]).
  by apply elem_of_nil in Hin.
Qed.

(** X20.  The classifier returns something that is no configuration kind
    exactly for a file named like a member of [Object.prototype]
    ([constructor], [toString], ...): the [in] test finds the inherited
    name, and the table lookup yields that member. *)
Theorem inherited_names_are_classified (filePath member : string) :
  determineConfigType filePath = Some (Inherited member)
  ↔ Path.basename filePath = member ∧ member ∈ Object_prototype_names.
Proof.
  assert (Hin : ∀ m, m ∈ Object_prototype_names ↔ inherited m = true).
  { intros m. unfold inherited. rewrite list_elem_of_In. split.
    - intros H. apply existsb_exists. exists m.
      split; [done|apply String.eqb_refl].
    - intros H. apply existsb_exists in H as (x & Hx & Hm).
      by apply String.eqb_eq in Hm as <-. }
  unfold determineConfigType.
  destruct (in_mapping (Path.basename filePath)) eqn:Hname.
  - unfold mapping_get.
    destruct (CONFIG_TYPE_MAPPING !! Path.basename filePath) as [k|] eqn:E.
    + split; [done|]. intros [<- Hm]. apply Hin, inherited_not_own in Hm.
      congruence.
    + unfold in_mapping in Hname. rewrite E in Hname.
      rewrite bool_decide_eq_false_2 in Hname by (by intros [? ?]).
      simpl in Hname. split.
      * intros ?; simplify_eq. split; [done|]. by apply Hin.
      * by intros [<- _].
  - assert (Hno : member ∈ Object_prototype_names →
                  Path.basename filePath ≠ member).
    { intros Hm <-. apply Hin in Hm. unfold in_mapping in Hname.
      apply orb_false_iff in Hname as [_ Hname]. congruence. }
    rewrite extension_lookup. unfold mapping_get.
    destruct (CONFIG_TYPE_MAPPING !! Path.extname filePath) as [k|] eqn:E.
    + rewrite bool_decide_eq_true_2 by (by eexists).
      split; [done|]. intros [Hb Hm]. by destruct (Hno Hm).
    + rewrite bool_decide_eq_false_2 by (by intros [? ?]).
      destruct (existsb _ _); (split; [done|]);
        intros [Hb Hm]; by destruct (Hno Hm).
Qed.

Lemma inherited_names_are_classified_witness :
  determineConfigType "/etc/skel/toString" = Some (Inherited "toString").
Proof.
  apply (proj2 (inherited_names_are_classified "/etc/skel/toString"
                  "toString")).
  split; [reflexivity|]. vm_compute.
  repeat first [apply list_elem_of_here | apply list_elem_of_further].
Defined.

Lemma is_absolute_slash q : Path.is_absolute ("/" +:+ q) = true.
Proof.
  unfold Path.is_absolute, Js.startsWith.
  change ("/" +:+ q) with (String "/" q). simpl.
  destruct (ascii_dec "/" "/"); [by destruct q|done].
Qed.

Lemma normalize_absolute p :
  Path.is_absolute p = true → Path.is_absolute (Path.normalize p) = true.
Proof.
  intros H. unfold Path.normalize.
  destruct p as [|a p]; [done|]. cbn [Js.truthy negb]. cbv zeta.
  rewrite H. cbn [negb].
  destruct (negb (Js.truthy (Path.normalizeString _ _))); [done|].
  apply is_absolute_slash.
Qed.

Lemma is_absolute_app p q :
  Path.is_absolute p = true → Path.is_absolute (p +:+ q) = true.
Proof.
  destruct p as [|a p]; [done|]. unfold Path.is_absolute, Js.startsWith.
  rewrite app_cons. cbn [String.prefix].
  destruct (ascii_dec "/" a); [|done]. intros _. by destruct (p +:+ q).
Qed.

Lemma join_absolute a b :
  Path.is_absolute a = true → Path.is_absolute (Path.join a b) = true.
Proof.
  intros H. unfold Path.join.
  destruct a as [|c a]; [done|]. cbn [Js.truthy].
  destruct (Js.truthy b); apply normalize_absolute; [|done].
  by apply is_absolute_app.
Qed.

Lemma resolve_absolute cwd p :
  Path.is_absolute cwd = true → Path.is_absolute (Path.resolve cwd p) = true.
Proof.
  intros H. unfold Path.resolve. cbn [fst snd].
  destruct (Js.truthy p) eqn:Hp; cbn [negb fst snd].
  - destruct (Path.is_absolute p) eqn:Ha; cbn [fst snd];
      [apply is_absolute_slash|].
    destruct cwd as [|c cwd]; [done|]. cbn [Js.truthy negb fst snd].
    rewrite H. apply is_absolute_slash.
  - destruct cwd as [|c cwd]; [done|]. cbn [Js.truthy negb fst snd].
    rewrite H. apply is_absolute_slash.
Qed.

(** X21.  When the home directory and the working directory are absolute,
    as the operating system gives them, every requested path, whether it
    begins with a tilde or is relative, is resolved to an absolute path. *)
Theorem resolved_paths_are_absolute (w : World) (p : string) :
  Path.is_absolute (w_homedir w) = true →
  Path.is_absolute (w_cwd w) = true →
  Path.is_absolute (resolvePath w p) = true.
Proof.
  intros Hh Hc. unfold resolvePath.
  destruct (Js.startsWith p "~"); [by apply join_absolute|].
  by apply resolve_absolute.
Qed.

Lemma resolved_paths_are_absolute_witness :
  resolvePath Demo.world "../etc/./profile" = "/etc/profile"
  ∧ Path.is_absolute (resolvePath Demo.world "../etc/./profile") = true.
Proof.
  split; [reflexivity|].
  apply (resolved_paths_are_absolute Demo.world "../etc/./profile");
    reflexivity.
Defined.

End PathProperties.
(* ===================================================================== *)
(** * Dots in exclude patterns *)
(* ===================================================================== *)

(** The meaning of an exclude pattern in which dots occur too. *)
Module DotGlob.

(** A star stands for any run of characters other than line terminators,
    a dot for any one such character, every other character for itself. *)
Inductive matches : list ascii → list ascii → Prop :=
| matches_nil : matches [] []
| matches_star pattern run text :
    Forall (λ a, Js.is_line_terminator a = false) run →
    matches pattern text →
    matches ("*"%char :: pattern) (run ++ text)
| matches_dot pattern c text :
    Js.is_line_terminator c = false →
    matches pattern text →
    matches ("."%char :: pattern) (c :: text)
| matches_lit a pattern text :
    a ≠ "*"%char → a ≠ "."%char →
    matches pattern text →
    matches (a :: pattern) (a :: text).

Definition matches_somewhere (pattern path : string) : Prop :=
  ∃ before mid after,
    Js.chars path = before ++ mid ++ after
    ∧ matches (Js.chars pattern) mid.

(** The pattern is made of stars, dots and characters without a meaning
    in a regular expression. *)
Definition plain_dot_or_star (pattern : string) : bool :=
  forallb (λ a, Ascii.eqb a "*" || Ascii.eqb a "."
                || negb (Glob.is_syntax_char a))
    (Js.chars pattern).

End DotGlob.

Section DotPatterns.
Import Re.

Fixpoint dot_glob_regex (pattern : list ascii) : regex :=
  match pattern with
  | [] => Eps
  | a :: rest =>
      Seq (if Ascii.eqb a "*" then Star Dot
           else if Ascii.eqb a "." then Dot else Lit a)
        (dot_glob_regex rest)
  end.

Lemma compile_dot_glob source pattern :
  forallb (λ a, Ascii.eqb a "*" || Ascii.eqb a "."
                || negb (Glob.is_syntax_char a)) pattern = true →
  Glob.compile_from source (Glob.star_to_dotstar pattern)
  = Glob.Compiled (dot_glob_regex pattern).
Proof.
  induction pattern as [|a rest IH]; [done|].
  cbn [forallb Glob.star_to_dotstar dot_glob_regex].
  intros H. apply andb_true_iff in H as [Ha Hrest].
  specialize (IH Hrest). destruct (Ascii.eqb a "*") eqn:E.
  - rewrite compile_from_cons. simpl. by rewrite IH.
  - simpl in Ha. rewrite compile_from_cons, E, Ha.
    destruct (Glob.star_to_dotstar rest) as [|b rest'] eqn:Hsrc.
    + by destruct rest as [|c rest]; [|simpl in Hsrc; destruct (Ascii.eqb c "*")].
    + rewrite (star_to_dotstar_head _ _ _ Hsrc). by rewrite IH.
Qed.

Lemma run_dot_glob {A} total pattern :
  ∀ s c (k : list ascii → captures → option A),
  is_Some (run total (dot_glob_regex pattern) s c k)
  ↔ ∃ mid rest, s = mid ++ rest
                ∧ DotGlob.matches pattern mid
                ∧ is_Some (k rest c).
Proof.
  induction pattern as [|a pattern IH]; intros s c k.
  - simpl. split.
    + intros H. exists [], s. split; [done|]. split; [constructor|done].
    + intros (mid & rest & -> & Hm & Hk). by inversion Hm.
  - cbn [dot_glob_regex]. rewrite run_seq.
    destruct (Ascii.eqb a "*") eqn:E; [|destruct (Ascii.eqb a ".") eqn:E'].
    + apply Ascii.eqb_eq in E as ->. rewrite run_star. unfold Dot.
      rewrite star_loop_chr by done. split.
      * intros (prefix & rest & -> & Hf & Hk).
        apply IH in Hk as (mid & rest' & -> & Hm & Hk).
        exists (prefix ++ mid), rest'. split; [by rewrite app_assoc|].
        split; [|done]. constructor; [|done].
        eapply Forall_impl; [exact Hf|]. simpl. intros x Hx.
        by destruct (Js.is_line_terminator x).
      * intros (mid & rest & -> & Hm & Hk).
        inversion Hm as [|pattern' prefix text Hf Hm'| |]; subst; [|done].
        exists prefix, (text ++ rest). split; [by rewrite app_assoc|].
        split.
        -- eapply Forall_impl; [exact Hf|]. simpl. by intros x ->.
        -- apply IH. by exists text, rest.
    + apply Ascii.eqb_eq in E' as ->. unfold Dot. rewrite run_chr.
      destruct s as [|b s].
      * split; [by intros [? ?]|].
        intros (mid & rest & Hs & Hm & Hk). inversion Hm; by subst.
      * destruct (Js.is_line_terminator b) eqn:Eb; cbn [negb].
        -- split; [by intros [? ?]|].
           intros (mid & rest & Hs & Hm & Hk).
           inversion Hm; subst; try done. simpl in Hs. simplify_eq.
           congruence.
        -- rewrite IH. split.
           ++ intros (mid & rest & -> & Hm & Hk).
              exists (b :: mid), rest. split; [done|]. split; [|done].
              by constructor.
           ++ intros (mid & rest & Hs & Hm & Hk).
              inversion Hm; subst; try done. simpl in Hs. simplify_eq.
              by eexists _, _.
    + unfold Lit. rewrite run_chr. destruct s as [|b s].
      * split; [by intros [? ?]|].
        intros (mid & rest & Hs & Hm & Hk). inversion Hm; by subst.
      * destruct (Ascii.eqb a b) eqn:Eb.
        -- apply Ascii.eqb_eq in Eb as ->. rewrite IH. split.
           ++ intros (mid & rest & -> & Hm & Hk).
              exists (b :: mid), rest. split; [done|]. split; [|done].
              constructor; [by intros ->|by intros ->|done].
           ++ intros (mid & rest & Hs & Hm & Hk).
              inversion Hm; subst; try done. simpl in Hs. simplify_eq.
              by eexists _, _.
        -- split; [by intros [? ?]|].
           intros (mid & rest & Hs & Hm & Hk).
           inversion Hm; subst; try done. simpl in Hs. simplify_eq.
           by rewrite Ascii.eqb_refl in Eb.
Qed.

Lemma test_dot_glob pattern path :
  Re.test (dot_glob_regex (Js.chars pattern)) path = true
  ↔ DotGlob.matches_somewhere pattern path.
Proof.
  unfold Re.test, Re.exec, DotGlob.matches_somewhere.
  set (total := length (Js.chars path)).
  assert (Hs : is_Some (search total (dot_glob_regex (Js.chars pattern))
                          (Js.chars path))
               ↔ ∃ before mid after,
                   Js.chars path = before ++ mid ++ after
                   ∧ DotGlob.matches (Js.chars pattern) mid).
  { rewrite search_some. split.
    - intros (before & rest & Hp & Hm). unfold match_here in Hm.
      apply run_dot_glob in Hm as (mid & after & -> & Hm & _).
      by exists before, mid, after.
    - intros (before & mid & after & Hp & Hm).
      exists before, (mid ++ after). split; [done|].
      unfold match_here. apply run_dot_glob. exists mid, after.
      split; [done|]. split; [done|]. by eexists. }
  rewrite <- Hs.
  destruct (search total _ _); split; try done;
    first [by eexists | by intros [? ?]].
Qed.

Lemma pattern_matches_dot_glob path pattern :
  DotGlob.plain_dot_or_star pattern = true →
  pattern_matches path pattern
  = Some (Ok (Re.test (dot_glob_regex (Js.chars pattern)) path)).
Proof.
  intros H. unfold pattern_matches, Glob.RegExp, Js.str.
  rewrite list_ascii_of_string_of_list_ascii.
  by rewrite compile_dot_glob.
Qed.

(** X22.  A dot in an exclude pattern is not taken literally: it stands
    for any one character other than a line terminator.  For patterns
    made of stars, dots and characters without a meaning in a regular
    expression, the Exclusion Matcher returns without throwing and
    excludes the path exactly when some pattern so read matches a
    substring of the path. *)
Theorem exclusion_dot_is_a_wildcard (path : string) (patterns : list string) :
  forallb DotGlob.plain_dot_or_star patterns = true →
  ∃ b, shouldExclude path (Some patterns) = Some (Ok b)
       ∧ (b = true
          ↔ ∃ pattern, pattern ∈ patterns
                       ∧ DotGlob.matches_somewhere pattern path).
Proof.
  cbn [shouldExclude].
  induction patterns as [|pattern rest IH]; simpl.
  - intros _. exists false. split; [done|]. split; [done|].
    intros (pattern & Hin & _). by apply elem_of_nil in Hin.
  - intros H. apply andb_true_iff in H as [Hp Hrest].
    rewrite (pattern_matches_dot_glob _ _ Hp).
    destruct (Re.test (dot_glob_regex (Js.chars pattern)) path) eqn:E.
    + exists true. split; [done|]. split; [|done]. intros _.
      exists pattern. split; [apply list_elem_of_here|by apply test_dot_glob].
    + destruct (IH Hrest) as (b & -> & Hb). exists b. split; [done|].
      rewrite Hb. split.
      * intros (q & Hin & Hm). exists q. split; [by right|done].
      * intros (q & Hin & Hm). apply elem_of_cons in Hin as [->|Hin].
        -- apply test_dot_glob in Hm. congruence.
        -- by exists q.
Qed.

End DotPatterns.

(** The pattern [.git] also excludes a file called [legit]. *)
Lemma exclusion_dot_is_a_wildcard_witness :
  shouldExclude "/srv/legit" (Some [".git"]) = Some (Ok true)
  ∧ ∃ b, shouldExclude "/srv/legit" (Some [".git"]) = Some (Ok b)
         ∧ (b = true
            ↔ ∃ pattern, pattern ∈ [".git"]
                         ∧ DotGlob.matches_somewhere pattern "/srv/legit").
Proof.
  split; [reflexivity|].
  apply (exclusion_dot_is_a_wildcard "/srv/legit" [".git"]).
  reflexivity.
Defined.

(* ===================================================================== *)
(** * What a successful match says about the input *)
(* ===================================================================== *)

Module ReSpec.
Import Re.

(** [steps total r s c s' c']: the expression [r] can match the beginning
    of [s], leaving [s'], and turn the groups [c] into [c']. *)
Inductive steps (total : nat)
  : regex → list ascii → captures → list ascii → captures → Prop :=
| steps_eps s c : steps total Eps s c s c
| steps_chr p a s c : p a = true → steps total (Chr p) (a :: s) c s c
| steps_seq r1 r2 s c s1 c1 s2 c2 :
    steps total r1 s c s1 c1 → steps total r2 s1 c1 s2 c2 →
    steps total (Seq r1 r2) s c s2 c2
| steps_alt_l r1 r2 s c s' c' :
    steps total r1 s c s' c' → steps total (Alt r1 r2) s c s' c'
| steps_alt_r r1 r2 s c s' c' :
    steps total r2 s c s' c' → steps total (Alt r1 r2) s c s' c'
| steps_star_stop r s c : steps total (Star r) s c s c
| steps_star_more r s c s1 c1 s2 c2 :
    steps total r s c s1 c1 → (length s1 < length s)%nat →
    steps total (Star r) s1 c1 s2 c2 →
    steps total (Star r) s c s2 c2
| steps_group i r s c s' c' :
    steps total r s c s' c' →
    steps total (Group i r) s c s' ((i, take (length s - length s') s) :: c')
| steps_bol s c : length s = total → steps total Bol s c s c
| steps_eol c : steps total Eol [] c [] c.

(** Whether [r] can succeed on an input that is not empty without
    consuming anything, and whether it can consume [a] first. *)
Fixpoint skippable (r : regex) : bool :=
  match r with
  | Eps | Star _ | Bol => true
  | Chr _ | Eol => false
  | Seq r1 r2 => skippable r1 && skippable r2
  | Alt r1 r2 => skippable r1 || skippable r2
  | Group _ r1 => skippable r1
  end.

Fixpoint first_ok (r : regex) (a : ascii) : bool :=
  match r with
  | Eps | Bol | Eol => false
  | Chr p => p a
  | Seq r1 r2 => first_ok r1 a || skippable r1 && first_ok r2 a
  | Alt r1 r2 => first_ok r1 a || first_ok r2 a
  | Star r1 | Group _ r1 => first_ok r1 a
  end.

End ReSpec.

Section MatcherSoundness.
Import Re ReSpec.

Lemma star_loop_sound {A} total r
    (k : list ascii → captures → option A) (x : A) :
  (∀ s c k, run total r s c k = Some x →
            ∃ s' c', steps total r s c s' c' ∧ k s' c' = Some x) →
  ∀ n s c, star_loop (run total r) k n s c = Some x →
           ∃ s' c', steps total (Star r) s c s' c' ∧ k s' c' = Some x.
Proof.
  intros Hr. induction n as [|n IH]; intros s c H; simpl in H.
  - exists s, c. split; [constructor|done].
  - destruct (run total r s c _) as [y|] eqn:E.
    + simplify_eq. apply Hr in E as (s1 & c1 & Hstep & Hk).
      destruct (length s1 <? length s)%nat eqn:Hlen; [|done].
      apply Nat.ltb_lt in Hlen.
      apply IH in Hk as (s' & c' & Hstar & Hk).
      exists s', c'. split; [|done]. by eapply steps_star_more.
    + exists s, c. split; [constructor|done].
Qed.

(** The matcher only reports matches there are. *)
Lemma run_sound {A} total r : ∀ s c (k : list ascii → captures → option A) x,
  run total r s c k = Some x →
  ∃ s' c', steps total r s c s' c' ∧ k s' c' = Some x.
Proof.
  induction r as [|p|r1 IH1 r2 IH2|r1 IH1 r2 IH2|r IH|i r IH| |];
    intros s c k x H; simpl in H.
  - exists s, c. split; [constructor|done].
  - destruct s as [|a s]; [done|]. destruct (p a) eqn:Hp; [|done].
    exists s, c. split; [by constructor|done].
  - apply IH1 in H as (s1 & c1 & H1 & H).
    apply IH2 in H as (s2 & c2 & H2 & H).
    exists s2, c2. split; [by econstructor|done].
  - destruct (run total r1 s c k) as [y|] eqn:E.
    + simplify_eq. apply IH1 in E as (s' & c' & H1 & Hk).
      exists s', c'. split; [by apply steps_alt_l|done].
    + apply IH2 in H as (s' & c' & H2 & Hk).
      exists s', c'. split; [by apply steps_alt_r|done].
  - eapply star_loop_sound; [|exact H]. intros s0 c0 k0. apply IH.
  - apply IH in H as (s' & c' & H1 & Hk).
    eexists s', _. split; [by constructor|done].
  - destruct (length s =? total)%nat eqn:E; [|done].
    apply Nat.eqb_eq in E. exists s, c. split; [by constructor|done].
  - destruct s; [|done]. exists [], c. split; [constructor|done].
Qed.

Lemma search_sound total r : ∀ s m,
  search total r s = Some m →
  ∃ before rest s' c,
    s = before ++ rest
    ∧ steps total r rest [] s' c
    ∧ m = (O, take (length rest - length s') rest) :: c.
Proof.
  induction s as [|a s IH]; intros m H; simpl in H.
  - destruct (match_here total r []) as [[s' c]|] eqn:E; [|done].
    simplify_eq. unfold match_here in E.
    apply run_sound in E as (s1 & c1 & Hs & ?). simplify_eq.
    by exists [], [], s', c.
  - destruct (match_here total r (a :: s)) as [[s' c]|] eqn:E.
    + simplify_eq. unfold match_here in E.
      apply run_sound in E as (s1 & c1 & Hs & ?). simplify_eq.
      by exists [], (a :: s), s', c.
    + apply IH in H as (before & rest & s' & c & -> & Hs & ->).
      by exists (a :: before), rest, s', c.
Qed.

Lemma exec_sound r s m :
  Re.exec r s = Some m →
  ∃ before rest s' c,
    Js.chars s = before ++ rest
    ∧ steps (length (Js.chars s)) r rest [] s' c
    ∧ m = (O, take (length rest - length s') rest) :: c.
Proof. apply search_sound. Qed.

(** A match never makes the input longer. *)
Lemma steps_suffix total r s c s' c' :
  steps total r s c s' c' → ∃ mid, s = mid ++ s'.
Proof.
  induction 1 as [s c|p a s c Hp|r1 r2 s c s1 c1 s2 c2 _ [m1 ->] _ [m2 ->]
                 |r1 r2 s c s' c' _ IH|r1 r2 s c s' c' _ IH|r s c
                 |r s c s1 c1 s2 c2 _ [m1 ->] _ _ [m2 ->]
                 |i r s c s' c' _ IH|s c _|c].
  - by exists [].
  - by exists [a].
  - exists (m1 ++ m2). by rewrite app_assoc.
  - done.
  - done.
  - by exists [].
  - exists (m1 ++ m2). by rewrite app_assoc.
  - done.
  - by exists [].
  - by exists [].
Qed.

Lemma take_matched {A} (mid rest : list A) :
  take (length (mid ++ rest) - length rest) (mid ++ rest) = mid.
Proof.
  rewrite length_app, Nat.add_sub. by rewrite take_app_length.
Qed.

(** A starred one-character class consumes a run of that class and leaves
    the groups alone. *)
Lemma steps_star_chr total p s c s' c' :
  steps total (Star (Chr p)) s c s' c' →
  ∃ run, s = run ++ s' ∧ Forall (λ a, p a = true) run ∧ c' = c.
Proof.
  remember (Star (Chr p)) as r eqn:Hr. intros H.
  induction H as [| | | | | r s c
                 |r s c s1 c1 s2 c2 H1 _ Hlen _ IH| | |]; try done.
  - by exists [].
  - simplify_eq. destruct (IH eq_refl) as (run & -> & Hrun & ->).
    inversion H1; subst. exists (a :: run). by repeat constructor.
Qed.

(** On an input that is not empty, a match either consumes nothing, which
    only a skippable expression can, or begins by consuming the first
    character of the input, which the expression must allow. *)
Lemma steps_first total r s c s' c' :
  steps total r s c s' c' →
  match s with
  | [] => True
  | a :: _ => s' = s ∧ skippable r = true ∨ first_ok r a = true
  end.
Proof.
  induction 1 as [s c|p a s c Hp|r1 r2 s c s1 c1 s2 c2 H1 IH1 H2 IH2
                 |r1 r2 s c s' c' _ IH|r1 r2 s c s' c' _ IH|r s c
                 |r s c s1 c1 s2 c2 H1 IH1 Hlen _ _
                 |i r s c s' c' _ IH|s c _|c];
    try (destruct s as [|a s]; [done|]); simpl.
  - by left.
  - by right.
  - destruct IH1 as [[-> Hs1]|Hf]; [|right; by rewrite Hf].
    destruct IH2 as [[-> Hs2]|Hf].
    + left. by rewrite Hs1, Hs2.
    + right. rewrite Hs1, Hf. apply orb_true_r.
  - destruct IH as [[-> Hs]|Hf]; [left|right]; by rewrite ?Hs, ?Hf.
  - destruct IH as [[-> Hs]|Hf]; [left|right];
      rewrite ?Hs, ?Hf, ?orb_true_r; done.
  - by left.
  - destruct IH1 as [[-> _]|Hf]; [lia|by right].
  - done.
  - by left.
  - done.
Qed.

(** A pattern that cannot match the empty string at the start of an input
    that is not empty matches, from its beginning, only an input whose
    first character it allows. *)
Lemma test_anchored_first r a s :
  skippable r = false → first_ok r a = false →
  Re.test (Seq Bol r) (String a s) = false.
Proof.
  intros Hskip Hfirst. unfold Re.test.
  destruct (Re.exec _ _) as [m|] eqn:E; [|done].
  apply exec_sound in E as (before & rest & s' & c & Hs & Hsteps & _).
  inversion Hsteps as [| |r1 r2 s0 c0 s1 c1 s2 c2 Hbol Hr| | | | | | |]; subst.
  inversion Hbol as [| | | | | | | |s0 c0 Hlen|]; subst.
  assert (before = []) as ->.
  { apply (f_equal length) in Hs. rewrite length_app in Hs.
    destruct before; [done|]. simpl in *. lia. }
  simpl in Hs. rewrite <- Hs in Hr. simpl in Hr.
  apply steps_first in Hr as [[_ Hr]|Hr]; congruence.
Qed.

End MatcherSoundness.

(* ===================================================================== *)
(** * The names and values the parsers record *)
(* ===================================================================== *)

Section RecordedNames.
Import Re ReSpec Parsers.

(** [[A-Z_][A-Z0-9_]*] *)
Definition is_identifier (s : string) : bool :=
  match s with
  | EmptyString => false
  | String a s' =>
      Bash.upper_or_underscore a && all_chars Bash.upper_digit_or_underscore s'
  end.

(** [\w+] *)
Definition is_word (s : string) : bool :=
  Js.truthy s && all_chars Js.is_word s.

Lemma all_chars_str p l :
  Forall (λ a, p a = true) l → all_chars p (Js.str l) = true.
Proof.
  induction 1 as [|a l Ha _ IH]; [done|]. simpl. by rewrite Ha, IH.
Qed.

Ltac invert_steps :=
  repeat match goal with
    | H : steps _ (Seq _ _) _ _ _ _ |- _ => inversion H; subst; clear H
    | H : steps _ (Group _ _) _ _ _ _ |- _ => inversion H; subst; clear H
    | H : steps _ (Chr _) _ _ _ _ |- _ => inversion H; subst; clear H
    | H : steps _ Bol _ _ _ _ |- _ => inversion H; subst; clear H
    | H : steps _ Eol _ _ _ _ |- _ => inversion H; subst; clear H
    | H : steps _ Eps _ _ _ _ |- _ => inversion H; subst; clear H
    | H : steps _ (Star (Chr _)) _ _ _ _ |- _ =>
        apply steps_star_chr in H as (? & ? & ? & ?); subst
    end.

Lemma take_run {A} (a : A) (run rest : list A) :
  take (length (a :: run ++ rest) - length rest) (a :: run ++ rest)
  = a :: run.
Proof. apply (take_matched (a :: run) rest). Qed.

Lemma varRe_name line m name :
  Re.exec Bash.varRe line = Some m → group 1 m = Some name →
  is_identifier name = true.
Proof.
  intros H Hg.
  apply exec_sound in H as (before & rest & s' & c & _ & Hsteps & ->).
  unfold Bash.varRe, Plus, Space, Lit, Dot in Hsteps. cbn [Seqs] in Hsteps.
  invert_steps.
  match type of Hg with
  | context [(1%nat, take ?n ?l)] =>
      assert (Ht : take n l = a :: x)
  end.
  { etrans; [|apply (take_run a x)]. done. }
  unfold group in Hg. cbn [List.find fst Nat.eqb] in Hg.
  rewrite Ht in Hg. simpl in Hg. simplify_eq. simpl.
  apply andb_true_iff. split; [done|]. by apply all_chars_str.
Qed.

Lemma funcRe_name line m name :
  Re.exec Bash.funcRe line = Some m → group 1 m = Some name →
  is_word name = true.
Proof.
  intros H Hg.
  apply exec_sound in H as (before & rest & s' & c & _ & Hsteps & ->).
  unfold Bash.funcRe, Plus, Space, Lit, Word in Hsteps.
  cbn [Seqs] in Hsteps. invert_steps.
  match type of Hg with
  | context [(1%nat, take ?n ?l)] =>
      assert (Ht : take n l = a :: x)
  end.
  { etrans; [|apply (take_run a x)]. done. }
  unfold group in Hg. cbn [List.find fst Nat.eqb] in Hg.
  rewrite Ht in Hg. simpl in Hg. simplify_eq.
  unfold is_word. simpl.
  apply andb_true_iff. split; [done|]. by apply all_chars_str.
Qed.

Lemma aliasRe_name line m name :
  Re.exec Bash.aliasRe line = Some m → group 1 m = Some name →
  is_word name = true.
Proof.
  intros H Hg.
  apply exec_sound in H as (before & rest & s' & c & _ & Hsteps & ->).
  unfold Bash.aliasRe, Plus, Space, Lit, Word, Dot, Str in Hsteps.
  cbn [Seqs Word_of Js.chars list_ascii_of_string] in Hsteps.
  unfold Lit in Hsteps. invert_steps.
  match type of Hg with
  | context [(1%nat, take ?n ?l)] =>
      match l with
      | ?b :: ?run ++ _ => assert (Ht : take n l = b :: run)
      end
  end.
  { etrans; [|apply take_run]. done. }
  unfold group in Hg. cbn [List.find fst Nat.eqb] in Hg.
  rewrite Ht in Hg. simpl in Hg. simplify_eq.
  unfold is_word. simpl.
  apply andb_true_iff. split; [done|]. by apply all_chars_str.
Qed.

(** The names a state of the shell parser holds are well formed. *)
Definition names_ok (s : Bash.State) : Prop :=
  (∀ name, is_Some (Bash.s_variables s !! name) → is_identifier name = true)
  ∧ Forall (λ name, is_word name = true) (Bash.s_functions s)
  ∧ Forall (λ name, is_word name = true) (Bash.s_aliases s).

Lemma shell_step_names line s : names_ok s → names_ok (Bash.step line s).
Proof.
  intros (Hv & Hf & Ha). unfold Bash.step.
  destruct (negb (Js.truthy (Js.trim line))); [done|].
  destruct (Js.startsWith (Js.trim line) "#"); [done|].
  destruct (Re.exec Bash.varRe _) as [m|] eqn:Ev.
  { destruct (group 1 m) as [name|] eqn:G1; [|done].
    destruct (group 2 m) as [value|]; [|done].
    split; [|done]. simpl. intros k Hk. unfold obj_set in Hk.
    destruct (String.eqb name "__proto__"); [by apply Hv|].
    apply lookup_insert_is_Some in Hk as [<-|[_ Hk]]; [|by apply Hv].
    by eapply varRe_name. }
  destruct (Re.exec Bash.importRe _) as [m|].
  { by destruct (group 2 m). }
  destruct (Re.exec Bash.funcRe _) as [m|] eqn:Ef.
  { destruct (group 1 m) as [name|] eqn:G1; [|done].
    split; [done|]. split; [|done]. simpl. apply Forall_app. split; [done|].
    constructor; [|done]. by eapply funcRe_name. }
  destruct (Re.exec Bash.aliasRe _) as [m|] eqn:Ea; [|done].
  destruct (group 1 m) as [name|] eqn:G1; [|done].
  split; [done|]. split; [done|]. simpl. apply Forall_app. split; [done|].
  constructor; [|done]. by eapply aliasRe_name.
Qed.

Lemma shell_run_names lines : ∀ s,
  names_ok s → names_ok (foldl (λ s line, Bash.step line s) s lines).
Proof.
  induction lines as [|l ls IH]; intros s Hs; [done|].
  simpl. by apply IH, shell_step_names.
Qed.

Lemma shell_init_names : names_ok Bash.init.
Proof.
  split; [|by split]. intros name H.
  unfold Bash.init in H. cbn [Bash.s_variables] in H.
  by apply lookup_empty_is_Some in H.
Qed.

(** X23.  Whatever the file, the shell parser records as variables only
    names made of capital letters, digits and underscores that do not
    begin with a digit, and as functions and aliases only non-empty names
    made of letters, digits and underscores. *)
Theorem shell_parse_records_well_formed_names (config : DotfileConfig) :
  ∃ pc, parse BashParser config = Done (Ok pc)
        ∧ (∀ name, is_Some (variables pc !! name) → is_identifier name = true)
        ∧ Forall (λ name, is_word name = true) (bash_functions (data pc))
        ∧ Forall (λ name, is_word name = true) (bash_aliases (data pc)).
Proof.
  eexists. split; [apply parse_result|]. simpl.
  apply shell_run_names, shell_init_names.
Qed.

(** ** Values *)

Lemma startsWith_char s a :
  Js.startsWith s (String a "") = true → ∃ t, s = String a t.
Proof.
  unfold Js.startsWith. destruct s as [|b t]; [done|]. simpl.
  destruct (ascii_dec a b) as [->|]; [by eexists|done].
Qed.

Lemma trimEnd_keeps_first a t :
  Js.is_space a = false → ∃ t', Js.trimEnd (String a t) = String a t'.
Proof.
  intros Ha. simpl. destruct (Js.trimEnd t); [|by eexists].
  rewrite Ha. by eexists.
Qed.

(** A text that begins with a quote is not a numeric literal. *)
Lemma quoted_not_numeric a t :
  a = DQ ∨ a = SQ → is_numeric (String a t) = false.
Proof.
  intros Ha. unfold is_numeric, Js.trim.
  assert (Hs : Js.is_space a = false) by (by destruct Ha as [->| ->]).
  cbn [Js.trimStart]. rewrite Hs.
  destruct (trimEnd_keeps_first a t Hs) as [t' ->].
  unfold StrNumericLiteral. cbn [Seqs].
  apply test_anchored_first; [reflexivity|].
  by destruct Ha as [->| ->].
Qed.

Lemma quoted_not_boolean a t b :
  a = DQ ∨ a = SQ → b = "true" ∨ b = "false" →
  String.eqb (String a t) b = false.
Proof. by intros [->| ->] [->| ->]. Qed.

(** X24.  The shell parser and the git parser convert a value in the same
    way, although the one looks for quotes first and the other for
    booleans and numbers first: a text in quotes is neither a boolean nor
    a number. *)
Theorem parsers_convert_values_alike (value : string) :
  Bash.parseValue value = Git.parseValue value.
Proof.
  unfold Bash.parseValue, Git.parseValue.
  set (trimmed := Js.trim value).
  destruct (Js.startsWith trimmed dq && Js.endsWith trimmed dq) eqn:Q1.
  { apply andb_true_iff in Q1 as [Hq _].
    apply startsWith_char in Hq as [t Ht]. rewrite Ht.
    rewrite !quoted_not_boolean, quoted_not_numeric by auto. done. }
  destruct (Js.startsWith trimmed sq && Js.endsWith trimmed sq) eqn:Q2.
  { apply andb_true_iff in Q2 as [Hq _].
    apply startsWith_char in Hq as [t Ht]. rewrite Ht.
    rewrite !quoted_not_boolean, quoted_not_numeric by auto. done. }
  cbn [orb].
  destruct (String.eqb trimmed "true") eqn:Et; [done|].
  destruct (String.eqb trimmed "false"); [done|].
  cbn [orb]. by destruct (is_numeric trimmed).
Qed.

(** ** Git sections *)

Definition alias_section (sections : gmap string (gmap string Value))
  : gmap string Value :=
  default ∅ (sections !! "alias").

Lemma git_step_aliases line s s' :
  Git.step line s = Some s' →
  Git.s_aliases s = alias_section (Git.s_sections s) →
  Git.s_aliases s' = alias_section (Git.s_sections s').
Proof.
  unfold Git.step, alias_section. intros H Hs.
  destruct (negb (Js.truthy (Js.trim line))); [by simplify_eq|].
  destruct (Js.startsWith (Js.trim line) "#"); [by simplify_eq|].
  destruct (Re.exec Git.sectionRe _) as [m|].
  { destruct (group 1 m) as [name|]; [|by simplify_eq].
    simplify_eq. simpl. rewrite Hs. unfold Git.ensure_section.
    destruct (Git.s_sections s !! name) eqn:E; [done|].
    destruct (inherited name); [done|].
    destruct (decide (name = "alias")) as [->|Hne].
    - by rewrite E, lookup_insert.
    - by rewrite lookup_insert_ne. }
  destruct (Re.exec Git.kvRe _) as [m|]; [|by simplify_eq].
  destruct (Js.truthy (Git.s_currentSection s)); [|by simplify_eq].
  destruct (group 1 m) as [key|]; [|by simplify_eq].
  destruct (group 2 m) as [value|]; [|by simplify_eq].
  destruct (Git.s_sections s !! Git.s_currentSection s) as [section|] eqn:E;
    [|done].
  simplify_eq. simpl.
  destruct (String.eqb (Git.s_currentSection s) "alias") eqn:Ea.
  - apply String.eqb_eq in Ea. rewrite Ea in *.
    rewrite lookup_insert. simpl. rewrite Hs, E. done.
  - apply String.eqb_neq in Ea. by rewrite lookup_insert_ne.
Qed.

Lemma git_run_aliases lines : ∀ s s',
  Git.run_lines lines s = Some s' →
  Git.s_aliases s = alias_section (Git.s_sections s) →
  Git.s_aliases s' = alias_section (Git.s_sections s').
Proof.
  induction lines as [|l ls IH]; intros s s' H Hs; simpl in H.
  - by simplify_eq.
  - destruct (Git.step l s) as [s1|] eqn:E; [|done].
    eapply IH; [exact H|]. by eapply git_step_aliases.
Qed.

(** [data.sections] and [data.aliases] of a git parse. *)
Definition git_sections (d : ParsedData) : gmap string (gmap string Value) :=
  match d with
  | GitData sections _ _ _ => sections
  | _ => ∅
  end.
Definition git_aliases (d : ParsedData) : gmap string Value :=
  match d with
  | GitData _ aliases _ _ => aliases
  | _ => ∅
  end.
Definition git_remotes (d : ParsedData) : gmap string Value :=
  match d with
  | GitData _ _ remotes _ => remotes
  | _ => ∅
  end.

(** X25.  In the result of the git parser the [aliases] object has
    exactly the keys and values of the [alias] section, and is empty when
    the file has no such section. *)
Theorem git_aliases_are_the_alias_section
    (config : DotfileConfig) (pc : ParsedConfig) :
  parse GitParser config = Done (Ok pc) →
  git_aliases (data pc) = default ∅ (git_sections (data pc) !! "alias").
Proof.
  simpl. unfold Git.parse. intros H.
  destruct (Git.run_lines _ _) as [s|] eqn:E; [|done].
  simpl in H. simplify_eq. simpl.
  by apply (git_run_aliases _ _ _ E).
Qed.

(** No line of the file is a section header. *)
Definition headerless (content : string) : bool :=
  forallb (λ line, negb (Re.test Git.sectionRe (Js.trim line)))
    (Js.lines content).

Lemma git_step_headerless line s :
  Re.test Git.sectionRe (Js.trim line) = false →
  Git.s_currentSection s = "" →
  ∃ comments,
    Git.step line s
    = Some (Git.mkState (Git.s_sections s) (Git.s_aliases s)
              (Git.s_remotes s) comments "").
Proof.
  unfold Git.step, Re.test. intros Ht Hc.
  destruct (negb (Js.truthy (Js.trim line)));
    [exists (Git.s_comments s); by destruct s; simplify_eq/=|].
  destruct (Js.startsWith (Js.trim line) "#"); [rewrite Hc; by eexists|].
  destruct (Re.exec Git.sectionRe _); [done|].
  rewrite Hc. cbn [Js.truthy].
  exists (Git.s_comments s). destruct (Re.exec Git.kvRe _);
    by destruct s; simplify_eq/=.
Qed.

Lemma git_run_headerless lines : ∀ s,
  forallb (λ line, negb (Re.test Git.sectionRe (Js.trim line))) lines = true →
  Git.s_currentSection s = "" →
  ∃ comments,
    Git.run_lines lines s
    = Some (Git.mkState (Git.s_sections s) (Git.s_aliases s)
              (Git.s_remotes s) comments "").
Proof.
  induction lines as [|l ls IH]; intros s H Hc; simpl.
  - exists (Git.s_comments s). by destruct s; simplify_eq/=.
  - simpl in H. apply andb_true_iff in H as [Hl Hls].
    apply negb_true_iff in Hl.
    destruct (git_step_headerless l s Hl Hc) as [cs ->].
    destruct (IH (Git.mkState (Git.s_sections s) (Git.s_aliases s)
                    (Git.s_remotes s) cs "") Hls eq_refl) as [cs' ->].
    by exists cs'.
Qed.

(** X26.  The git parser drops every setting that comes before the first
    section header: a file without a section header parses, and its
    sections, aliases and remotes are all empty. *)
Theorem git_settings_outside_sections_are_dropped (config : DotfileConfig) :
  headerless (content config) = true →
  ∃ pc, parse GitParser config = Done (Ok pc)
        ∧ git_sections (data pc) = ∅
        ∧ git_aliases (data pc) = ∅
        ∧ git_remotes (data pc) = ∅.
Proof.
  intros H. simpl. unfold Git.parse.
  destruct (git_run_headerless _ Git.init H eq_refl) as [cs ->].
  simpl. by eexists.
Qed.

End RecordedNames.

Definition git_config_of (c : string) : DotfileConfig :=
  mkConfig "/home/u/.gitconfig" (Kind git) c 0 0 [] true not_backed_up.

(** Two aliases under [[alias]], after a [[user]] section.  The key
    pattern [[^=]+] takes the blank before the equals sign with it. *)
Definition aliases_gitconfig : string :=
  "[user]" +:+ Demo.NL +:+ "name = u" +:+ Demo.NL
  +:+ "[alias]" +:+ Demo.NL +:+ "co = checkout" +:+ Demo.NL +:+ "st = status".

Definition aliases_parsed : Parsers.ParsedConfig :=
  Eval vm_compute in
    match Parsers.Git.parse (git_config_of aliases_gitconfig) with
    | Done (Ok pc) => pc
    | _ => Parsers.mkParsed (Parsers.SimpleData "" 0) ∅ [] []
             Parsers.valid_literal
    end.

Lemma git_aliases_are_the_alias_section_witness :
  git_aliases (Parsers.data aliases_parsed) !! "co "
  = Some (Parsers.VStr "checkout")
  ∧ git_aliases (Parsers.data aliases_parsed)
    = default ∅ (git_sections (Parsers.data aliases_parsed) !! "alias").
Proof.
  split; [by vm_compute|].
  apply (git_aliases_are_the_alias_section (git_config_of aliases_gitconfig)
           aliases_parsed).
  by vm_compute.
Defined.

(** A setting without any header. *)
Lemma git_settings_outside_sections_are_dropped_witness :
  ∃ pc, Parsers.parse Parsers.GitParser
          (git_config_of ("name = u" +:+ Demo.NL +:+ "email = u@example.org"))
        = Done (Ok pc)
        ∧ git_sections (Parsers.data pc) = ∅
        ∧ git_aliases (Parsers.data pc) = ∅
        ∧ git_remotes (Parsers.data pc) = ∅.
Proof.
  apply (git_settings_outside_sections_are_dropped
           (git_config_of ("name = u" +:+ Demo.NL
                           +:+ "email = u@example.org"))).
  reflexivity.
Defined.

(* ===================================================================== *)
(** * The paths a scan touches *)
(* ===================================================================== *)

Definition event_path (ev : Event) : string :=
  match ev with EvStat p | EvReadFile p | EvReaddir p => p end.

Section TouchedPaths.
Variable w : World.
Variable o : ScanOptions.

(** A path the scan may touch: one that was requested, or one the
    Exclusion Matcher lets through. *)
Definition allowed (q : string) : Prop :=
  q ∈ map (resolvePath w) (pathsToScan o)
  ∨ shouldExclude q (excludePatterns o) = Some (Ok false).

Definition touches_allowed (t : Trace) : Prop :=
  Forall (λ ev, allowed (event_path ev)) t.

Definition keeps_allowed {A} (m : IO A) : Prop :=
  ∀ t a t', touches_allowed t → m t = Done (a, t') → touches_allowed t'.

Lemma touch_allowed (ev : Event) (t : Trace) :
  allowed (event_path ev) → touches_allowed t → touches_allowed (ev :: t).
Proof. by constructor. Qed.

Lemma scanFile_allowed q : allowed q → keeps_allowed (scanFile w q o).
Proof.
  intros Hq t r t' Ht H. unfold scanFile, stat, readFile, mbind, IO_bind in H.
  destruct (w_stat w q) as [stats|];
    [|unfold ret, mret, IO_ret in H; simplify_eq; by apply touch_allowed].
  destruct (_ >? _);
    [unfold ret, mret, IO_ret in H; simplify_eq; by apply touch_allowed|].
  destruct (w_readFile w q);
    [destruct (determineConfigType q)|];
    unfold ret, mret, IO_ret in H; simplify_eq;
    by repeat apply touch_allowed.
Qed.

Lemma walk_entries_allowed scanSub dir :
  (∀ sub, allowed sub → keeps_allowed (scanSub sub)) →
  ∀ entries cs, keeps_allowed (walk_entries w scanSub dir o entries cs).
Proof.
  intros Hsub. induction entries as [|entry rest IH]; intros cs t r t' Ht H.
  - simpl in H. unfold ret, mret, IO_ret in H. by simplify_eq.
  - simpl in H.
    destruct (hidden_skipped o && Js.startsWith (d_name entry) ".");
      [by eapply IH|].
    destruct (shouldExclude _ _) as [[[|]|e]|] eqn:Ex;
      [by eapply IH| |unfold ret, mret, IO_ret in H; by simplify_eq|done].
    assert (Hq : allowed (Path.join dir (d_name entry))) by (by right).
    destruct (d_kind entry); [| |by eapply IH]; unfold mbind, IO_bind in H.
    + destruct (scanFile w _ o t) as [[r1 t1]| |] eqn:E1; [|done..].
      apply scanFile_allowed in E1; [|done..].
      destruct r1; by eapply IH.
    + destruct (scanSub _ t) as [[r1 t1]| |] eqn:E1; [|done..].
      apply Hsub in E1; [|done..].
      destruct r1; by eapply IH.
Qed.

Lemma scanDirectory_allowed fuel :
  ∀ dir, allowed dir → keeps_allowed (scanDirectory w fuel dir o).
Proof.
  induction fuel as [|fuel IH]; intros dir Hd t r t' Ht H; [done|].
  simpl in H. unfold mbind, IO_bind, readdir in H.
  destruct (w_readdir w dir) as [entries|e].
  - eapply walk_entries_allowed; [exact IH| |exact H]. by apply touch_allowed.
  - unfold ret, mret, IO_ret in H. simplify_eq. by apply touch_allowed.
Qed.

Lemma scanPath_allowed fuel p :
  allowed p → keeps_allowed (scanPath w fuel p o).
Proof.
  intros Hp t r t' Ht H. unfold scanPath, stat, mbind, IO_bind in H.
  destruct (w_stat w p) as [stats|e];
    [|unfold ret, mret, IO_ret in H; simplify_eq; by apply touch_allowed].
  destruct (st_kind stats).
  - eapply scanFile_allowed; [done| |exact H]. by apply touch_allowed.
  - eapply scanDirectory_allowed; [done| |exact H]. by apply touch_allowed.
  - unfold ret, mret, IO_ret in H. simplify_eq. by apply touch_allowed.
Qed.

Lemma scan_paths_allowed fuel ps :
  ps ⊆ pathsToScan o →
  ∀ cs es, keeps_allowed (scan_paths w fuel o ps cs es).
Proof.
  induction ps as [|p ps IH]; intros Hps cs es t r t' Ht H.
  - simpl in H. unfold ret, mret, IO_ret in H. by simplify_eq.
  - simpl in H. unfold mbind, IO_bind in H.
    assert (Hp : allowed (resolvePath w p)).
    { left. apply list_elem_of_fmap. exists p. split; [done|].
      apply Hps, list_elem_of_here. }
    assert (Hrest : ps ⊆ pathsToScan o).
    { intros q Hq. apply Hps. by apply list_elem_of_further. }
    destruct (scanPath w fuel _ o t) as [[r1 t1]| |] eqn:E1; [|done..].
    apply scanPath_allowed in E1; [|done..].
    destruct r1; by eapply IH.
Qed.

(** X27.  A scan touches (by [stat], [readFile] or [readdir]) only the
    paths that were requested and the directory entries no exclude pattern
    matches: an excluded path that was not itself requested is never
    stat'ed, read or listed. *)
Theorem excluded_paths_are_never_touched
    (fuel : nat) (r : Result ScanResult JsError) (t : Trace) :
  run_scan w fuel o = Done (r, t) →
  ∀ ev, ev ∈ t →
    event_path ev ∈ map (resolvePath w) (pathsToScan o)
    ∨ shouldExclude (event_path ev) (excludePatterns o) = Some (Ok false).
Proof.
  intros H. unfold run_scan in H.
  apply scan_result in H as (cs & es & H & _).
  apply list.Forall_forall.
  eapply (scan_paths_allowed fuel (pathsToScan o)); [done| |exact H].
  constructor.
Qed.

End TouchedPaths.

(** [{ paths: ['~'], includeHidden: true, excludePatterns: ['sub'] }] *)
Definition walk_home_without_sub : ScanOptions :=
  mkOptions (Some ["~"]) (Some true) None (Some ["sub"]) None.

Definition walk_home_without_sub_trace : Trace :=
  [ EvReadFile "/home/u/notes.conf"; EvStat "/home/u/notes.conf";
    EvStat "/home/u/.largefile";
    EvReadFile "/home/u/.bashrc"; EvStat "/home/u/.bashrc";
    EvReaddir "/home/u"; EvStat "/home/u" ].

Definition walk_home_without_sub_result : Result ScanResult JsError :=
  Eval vm_compute in
    match run_scan Demo.world 2 walk_home_without_sub with
    | Done (r, _) => r
    | _ => Err (new_Error "")
    end.

(** The walk reaches [notes.conf], which [sub] does not match. *)
Lemma excluded_paths_are_never_touched_witness :
  event_path (EvReadFile "/home/u/notes.conf")
    ∈ map (resolvePath Demo.world) (pathsToScan walk_home_without_sub)
  ∨ shouldExclude (event_path (EvReadFile "/home/u/notes.conf"))
      (excludePatterns walk_home_without_sub)
    = Some (Ok false).
Proof.
  apply (excluded_paths_are_never_touched Demo.world walk_home_without_sub 2
           walk_home_without_sub_result walk_home_without_sub_trace).
  - by vm_compute.
  - apply list_elem_of_here.
Defined.

(* ===================================================================== *)
(** * The names the vim and git parsers record *)
(* ===================================================================== *)

Section MoreRecordedNames.
Import Re ReSpec Parsers.

(** A non-empty text all of whose characters satisfy [p]. *)
Definition some_of (p : ascii → bool) (s : string) : bool :=
  Js.truthy s && all_chars p s.

Definition not_in (l : list ascii) (a : ascii) : bool :=
  negb (existsb (Ascii.eqb a) l).

Ltac invert_match :=
  repeat match goal with
    | H : steps _ (Seq _ _) _ _ _ _ |- _ => inversion H; subst; clear H
    | H : steps _ (Alt _ _) _ _ _ _ |- _ => inversion H; subst; clear H
    | H : steps _ (Group _ _) _ _ _ _ |- _ => inversion H; subst; clear H
    | H : steps _ (Chr _) _ _ _ _ |- _ => inversion H; subst; clear H
    | H : steps _ Bol _ _ _ _ |- _ => inversion H; subst; clear H
    | H : steps _ Eol _ _ _ _ |- _ => inversion H; subst; clear H
    | H : steps _ Eps _ _ _ _ |- _ => inversion H; subst; clear H
    | H : steps _ (Star (Chr _)) _ _ _ _ |- _ =>
        apply steps_star_chr in H as (? & ? & ? & ?); subst
    end.

(** The group [i] of [Hg] was matched by a one-character class and its
    star. *)
Ltac group_is_run i Hg :=
  match type of Hg with
  | context [(i, take ?n ?l)] =>
      match l with
      | ?b :: ?run ++ _ =>
          let Ht := fresh "Ht" in
          assert (Ht : take n l = b :: run)
            by (etrans; [|apply take_run]; done);
          unfold group in Hg; cbn [List.find fst Nat.eqb] in Hg;
          rewrite Ht in Hg; simpl in Hg; simplify_eq;
          unfold some_of; simpl;
          apply andb_true_iff; split; [done|]; by apply all_chars_str
      end
  end.

Lemma vim_setRe_name line m name :
  Re.exec Vim.setRe line = Some m → group 1 m = Some name →
  some_of Js.is_word name = true.
Proof.
  intros H Hg.
  apply exec_sound in H as (before & rest & s' & c & _ & Hsteps & ->).
  unfold Vim.setRe, Plus, Opt, Space, Word, NoneOf, Str in Hsteps.
  cbn [Seqs Word_of Js.chars list_ascii_of_string] in Hsteps.
  unfold Lit in Hsteps. invert_match; group_is_run 1%nat Hg.
Qed.

Lemma vim_mapRe_key line m key :
  Re.exec Vim.mapRe line = Some m → group 1 m = Some key →
  some_of (not_in [DQ]) key = true.
Proof.
  intros H Hg.
  apply exec_sound in H as (before & rest & s' & c & _ & Hsteps & ->).
  unfold Vim.mapRe, Plus, Opt, Space, Dot, NoneOf, Str in Hsteps.
  cbn [Seqs Word_of Js.chars list_ascii_of_string] in Hsteps.
  unfold Lit in Hsteps. invert_match; group_is_run 1%nat Hg.
Qed.

Lemma vim_pluginRe_name line m name :
  Re.exec Vim.pluginRe line = Some m → group 1 m = Some name →
  some_of (not_in [SQ; DQ]) name = true.
Proof.
  intros H Hg.
  apply exec_sound in H as (before & rest & s' & c & _ & Hsteps & ->).
  unfold Vim.pluginRe, Plus, Space, NoneOf, Str in Hsteps.
  cbn [Seqs Word_of Js.chars list_ascii_of_string] in Hsteps.
  unfold Lit in Hsteps. invert_match; group_is_run 1%nat Hg.
Qed.

Lemma vim_funcRe_name line m name :
  Re.exec Vim.funcRe line = Some m → group 1 m = Some name →
  some_of Js.is_word name = true.
Proof.
  intros H Hg.
  apply exec_sound in H as (before & rest & s' & c & _ & Hsteps & ->).
  unfold Vim.funcRe, Plus, Space, Word, Str in Hsteps.
  cbn [Seqs Word_of Js.chars list_ascii_of_string] in Hsteps.
  unfold Lit in Hsteps. invert_match; group_is_run 1%nat Hg.
Qed.

Definition vim_names_ok (s : Vim.State) : Prop :=
  (∀ name, is_Some (Vim.s_settings s !! name) →
           some_of Js.is_word name = true)
  ∧ (∀ key, is_Some (Vim.s_keyMappings s !! key) →
            some_of (not_in [DQ]) key = true)
  ∧ Forall (λ name, some_of (not_in [SQ; DQ]) name = true) (Vim.s_plugins s)
  ∧ Forall (λ name, some_of Js.is_word name = true) (Vim.s_functions s).

Lemma obj_set_is_Some {V} (P : string → Prop) key (v : V) obj :
  P key → (∀ k, is_Some (obj !! k) → P k) →
  ∀ k, is_Some (obj_set key v obj !! k) → P k.
Proof.
  intros Hkey Hobj k Hk. unfold obj_set in Hk.
  destruct (String.eqb key "__proto__"); [by apply Hobj|].
  apply lookup_insert_is_Some in Hk as [<-|[_ Hk]]; [done|by apply Hobj].
Qed.

Lemma vim_step_names line s : vim_names_ok s → vim_names_ok (Vim.step line s).
Proof.
  intros (Hs & Hk & Hp & Hf). unfold Vim.step.
  destruct (negb (Js.truthy (Js.trim line))); [done|].
  destruct (Js.startsWith (Js.trim line) dq); [done|].
  destruct (Re.exec Vim.setRe _) as [m|] eqn:E1.
  { destruct (group 1 m) as [name|] eqn:G1; [|done].
    split; [|done]. simpl. apply obj_set_is_Some; [|done].
    by eapply vim_setRe_name. }
  destruct (Re.exec Vim.mapRe _) as [m|] eqn:E2.
  { destruct (group 1 m) as [key|] eqn:G1; [|done].
    destruct (group 2 m) as [command|]; [|done].
    split; [done|]. split; [|done]. simpl. apply obj_set_is_Some; [|done].
    by eapply vim_mapRe_key. }
  destruct (Re.exec Vim.pluginRe _) as [m|] eqn:E3.
  { destruct (group 1 m) as [name|] eqn:G1; [|done].
    split; [done|]. split; [done|]. split; [|done]. simpl.
    apply Forall_app. split; [done|]. constructor; [|done].
    by eapply vim_pluginRe_name. }
  destruct (Re.exec Vim.funcRe _) as [m|] eqn:E4.
  { destruct (group 1 m) as [name|] eqn:G1; [|done].
    split; [done|]. split; [done|]. split; [done|]. simpl.
    apply Forall_app. split; [done|]. constructor; [|done].
    by eapply vim_funcRe_name. }
  destruct (Re.exec Vim.autocmdRe _) as [m|]; [|done].
  by destruct (group 1 m).
Qed.

Lemma vim_run_names lines : ∀ s,
  vim_names_ok s → vim_names_ok (foldl (λ s line, Vim.step line s) s lines).
Proof.
  induction lines as [|l ls IH]; intros s Hs; [done|].
  simpl. by apply IH, vim_step_names.
Qed.

Lemma vim_init_names : vim_names_ok Vim.init.
Proof.
  unfold Vim.init. split; [|split; [|by split]]; intros k H; simpl in H;
    by apply lookup_empty_is_Some in H.
Qed.

(** [data.settings], [data.keyMappings], [data.plugins] and
    [data.functions] of a vim parse. *)
Definition vim_settings (d : ParsedData) : gmap string Value :=
  match d with VimData settings _ _ _ _ _ => settings | _ => ∅ end.
Definition vim_keyMappings (d : ParsedData) : gmap string string :=
  match d with VimData _ keyMappings _ _ _ _ => keyMappings | _ => ∅ end.
Definition vim_plugins (d : ParsedData) : list string :=
  match d with VimData _ _ plugins _ _ _ => plugins | _ => [] end.
Definition vim_functions (d : ParsedData) : list string :=
  match d with VimData _ _ _ functions _ _ => functions | _ => [] end.

(** X28.  Whatever the file, the vim parser succeeds, and it records as
    option names and function names only non-empty names made of letters,
    digits and underscores, as plugins only non-empty names without a
    quote, and as mapped keys only non-empty texts without a double
    quote. *)
Theorem vim_parse_records_well_formed_names (config : DotfileConfig) :
  ∃ pc, parse VimParser config = Done (Ok pc)
        ∧ (∀ name, is_Some (vim_settings (data pc) !! name) →
                   some_of Js.is_word name = true)
        ∧ (∀ key, is_Some (vim_keyMappings (data pc) !! key) →
                  some_of (not_in [DQ]) key = true)
        ∧ Forall (λ name, some_of (not_in [SQ; DQ]) name = true)
            (vim_plugins (data pc))
        ∧ Forall (λ name, some_of Js.is_word name = true)
            (vim_functions (data pc)).
Proof.
  eexists. split; [reflexivity|]. simpl.
  apply (vim_run_names _ _ vim_init_names).
Qed.

End MoreRecordedNames.

(* ===================================================================== *)
(** * The keys of git settings *)
(* ===================================================================== *)

Section GitKeys.
Import Re ReSpec Parsers.

(** The greedy star returns the match with the longest run: every longer
    run of the class leads to a failure of the continuation. *)
Lemma star_loop_chr_first {A} total p
    (k : list ascii → captures → option A) c x : ∀ n s,
  (length s ≤ n)%nat →
  star_loop (run total (Chr p)) k n s c = Some x →
  ∃ pre rest,
    s = pre ++ rest
    ∧ Forall (λ a, p a = true) pre
    ∧ k rest c = Some x
    ∧ ∀ ext rest2, rest = ext ++ rest2 → ext ≠ [] →
        Forall (λ a, p a = true) ext → k rest2 c = None.
Proof.
  assert (Hstop : ∀ s, k s c = Some x →
            (∀ a s', s = a :: s' → p a = true →
               ∀ ext rest2, s' = ext ++ rest2 →
                 Forall (λ a, p a = true) ext → k rest2 c = None) →
            ∃ pre rest,
              s = pre ++ rest
              ∧ Forall (λ a, p a = true) pre
              ∧ k rest c = Some x
              ∧ ∀ ext rest2, rest = ext ++ rest2 → ext ≠ [] →
                  Forall (λ a, p a = true) ext → k rest2 c = None).
  { intros s Hk Hlonger. exists [], s. split; [done|]. split; [done|].
    split; [done|]. intros ext rest2 Hs Hext Hp.
    destruct ext as [|a ext]; [done|]. simpl in Hs.
    apply Forall_cons in Hp as [Ha Hp]. by eapply Hlonger. }
  induction n as [|n IH]; intros s Hlen H.
  - destruct s; [|simpl in Hlen; lia]. simpl in H.
    apply Hstop; [done|]. by intros a s' ?.
  - pose proof (star_loop_chr total p k c n) as Hiff.
    cbn [star_loop] in H. rewrite run_chr in H.
    destruct s as [|a s].
    { apply Hstop; [done|]. by intros a s' ?. }
    destruct (p a) eqn:Hp.
    + assert (Hlt : (length s <? length (a :: s))%nat = true)
        by (apply Nat.ltb_lt; simpl; lia).
      rewrite Hlt in H. simpl in Hlen.
      destruct (star_loop (run total (Chr p)) k n s c) as [y|] eqn:E.
      * simplify_eq. apply IH in E as (pre & rest & -> & Hpre & Hk & Hl);
          [|lia].
        exists (a :: pre), rest. split; [done|]. split; [by constructor|].
        by split.
      * apply Hstop; [done|]. intros a' s' ? _ ext rest2 -> Hext.
        simplify_eq.
        destruct (k rest2 c) as [z|] eqn:Ek; [|done].
        assert (Hsome : is_Some (@None A)); [|by destruct Hsome].
        rewrite <- E. apply Hiff; [rewrite length_app in *; lia|].
        exists ext, rest2. split; [done|]. split; [exact Hext|]. by eexists.
    + apply Hstop; [done|]. intros a' s' ? Ha'. simplify_eq. congruence.
Qed.

(** A pattern that begins with [^] matches at the beginning of the text
    or not at all. *)
Lemma search_anchored total r s m :
  length s = total →
  search total (Seq Bol r) s = Some m →
  ∃ s' c, match_here total (Seq Bol r) s = Some (s', c)
          ∧ m = (O, take (length s - length s') s) :: c.
Proof.
  intros Htotal H.
  destruct (match_here total (Seq Bol r) s) as [[s' c]|] eqn:E.
  - exists s', c. split; [done|]. destruct s; cbn [search] in H;
      rewrite E in H; by simplify_eq.
  - destruct s as [|a s]; cbn [search] in H; rewrite E in H; [done|].
    apply search_sound in H as (before & rest & s' & c & Hs & Hsteps & _).
    inversion Hsteps as [| |r1 r2 s0 c0 s1 c1 s2 c2 Hbol _| | | | | | |]; subst.
    inversion Hbol as [| | | | | | | |s0 c0 Hlen|]; subst.
    simpl in Hlen. rewrite length_app in Hlen. lia.
Qed.

Definition not_equals (a : ascii) : bool := negb (existsb (Ascii.eqb a) ["="%char]).

(** What follows the key in [kvRe]. *)
Definition after_key : regex :=
  Seqs [ Star Space; Lit "="; Star Space; Group 2 (Plus Dot); Eol ].
Definition after_equals : regex :=
  Seqs [ Star Space; Group 2 (Plus Dot); Eol ].

Definition accept : list ascii → captures → option (list ascii * captures) :=
  λ s c, Some (s, c).

Lemma run_group {A} total i r s c (k : list ascii → captures → option A) :
  run total (Group i r) s c k
  = run total r s c
      (λ s' c', k s' ((i, take (length s - length s') s) :: c')).
Proof. reflexivity. Qed.

Lemma run_bol {A} total s c (k : list ascii → captures → option A) :
  run total Bol s c k = if (length s =? total)%nat then k s c else None.
Proof. reflexivity. Qed.

(** Whether the value part matches does not depend on the groups so far. *)
Lemma after_equals_groups total tail c c' :
  is_Some (run total after_equals tail c accept) →
  is_Some (run total after_equals tail c' accept).
Proof.
  unfold after_equals, Space, Plus, Dot. cbn [Seqs].
  rewrite !run_seq, !run_star, !star_loop_chr by done.
  intros (sp & rest & -> & Hsp & H). exists sp, rest.
  split; [done|]. split; [done|].
  rewrite run_seq, run_group, run_seq, run_chr in H |- *.
  destruct rest as [|d rest]; [by destruct H|].
  destruct (negb (Js.is_line_terminator d)); [|by destruct H].
  rewrite run_star, star_loop_chr in H |- * by done.
  destruct H as (run & rest' & -> & Hrun & H). exists run, rest'.
  split; [done|]. split; [done|].
  destruct rest'; [by eexists|by destruct H].
Qed.

Lemma after_key_some total x c :
  is_Some (run total after_key x c accept)
  ↔ ∃ sp tail, x = sp ++ "="%char :: tail
               ∧ Forall (λ a, Js.is_space a = true) sp
               ∧ is_Some (run total after_equals tail c accept).
Proof.
  unfold after_key, Space, Lit. cbn [Seqs].
  rewrite run_seq, run_star, star_loop_chr by done. split.
  - intros (sp & rest & -> & Hsp & H). rewrite run_seq, run_chr in H.
    destruct rest as [|a rest]; [by destruct H|].
    destruct (Ascii.eqb "=" a) eqn:Ea; [|by destruct H].
    apply Ascii.eqb_eq in Ea as <-. by exists sp, rest.
  - intros (sp & tail & -> & Hsp & H). exists sp, ("="%char :: tail).
    split; [done|]. split; [done|]. by rewrite run_seq, run_chr.
Qed.

Lemma space_not_equals a : Js.is_space a = true → not_equals a = true.
Proof.
  unfold not_equals. simpl. intros H.
  destruct (Ascii.eqb a "=") eqn:E; [|done].
  apply Ascii.eqb_eq in E as ->. done.
Qed.

Lemma str_app l1 l2 : Js.str (l1 ++ l2) = Js.str l1 +:+ Js.str l2.
Proof. induction l1 as [|a l1 IH]; simpl; [done|]. by rewrite IH. Qed.

(** The key of a matching line is all the text before its first equals
    sign. *)
Lemma kvRe_key line m key :
  Re.exec Git.kvRe line = Some m → group 1 m = Some key →
  ∃ rest, line = key +:+ "=" +:+ rest
          ∧ some_of not_equals key = true.
Proof.
  intros H Hg. unfold Re.exec in H.
  change Git.kvRe
    with (Seq Bol (Seq (Group 1 (Seq (Chr not_equals) (Star (Chr not_equals))))
                     after_key)) in H.
  apply search_anchored in H as (s' & c & H & ->); [|done].
  unfold match_here in H. fold accept in H.
  rewrite run_seq, run_bol, Nat.eqb_refl in H.
  rewrite run_seq, run_group, run_seq, run_chr in H.
  destruct (Js.chars line) as [|a s] eqn:Hline; [done|].
  destruct (not_equals a) eqn:Ha; [|done].
  rewrite run_star in H.
  apply star_loop_chr_first in H as (pre & rest & -> & Hpre & H & Hlonger);
    [|done].
  assert (Hsome : is_Some (run (length (a :: pre ++ rest)) after_key rest
                             [(1%nat, take (length (a :: pre ++ rest)
                                             - length rest)
                                        (a :: pre ++ rest))] accept))
    by (by eexists).
  apply after_key_some in Hsome as (sp & tail & -> & Hsp & Htail).
  destruct sp as [|b sp].
  - cbn [app] in *.
    apply run_sound in H as (s1 & c1 & Hsteps & Hacc).
    unfold accept in Hacc. simplify_eq.
    unfold after_key, Plus, Space, Lit, Dot in Hsteps. cbn [Seqs] in Hsteps.
    repeat match goal with
      | H : steps _ (Seq _ _) _ _ _ _ |- _ => inversion H; subst; clear H
      | H : steps _ (Group _ _) _ _ _ _ |- _ => inversion H; subst; clear H
      | H : steps _ (Chr _) _ _ _ _ |- _ => inversion H; subst; clear H
      | H : steps _ Eol _ _ _ _ |- _ => inversion H; subst; clear H
      | H : steps _ Eps _ _ _ _ |- _ => inversion H; subst; clear H
      | H : steps _ (Star (Chr _)) _ _ _ _ |- _ =>
          apply steps_star_chr in H as (? & ? & ? & ?); subst
      end.
    unfold group in Hg. cbn [List.find fst Nat.eqb] in Hg.
    rewrite (take_run a pre) in Hg. simpl in Hg. simplify_eq.
    eexists (Js.str tail). split.
    + assert (line = Js.str (a :: pre ++ "="%char :: tail)) as ->.
      { rewrite <- Hline. symmetry. apply string_of_list_ascii_of_string. }
      change (a :: pre ++ "="%char :: tail)
        with ((a :: pre) ++ ["="%char] ++ tail).
      by rewrite !str_app.
    + unfold some_of. simpl. rewrite Ha. by apply all_chars_str.
  - exfalso. apply Forall_cons in Hsp as [Hb Hsp].
    specialize (Hlonger (b :: sp) ("="%char :: tail) eq_refl ltac:(done)).
    assert (Hnone : run (length (a :: pre ++ (b :: sp) ++ "="%char :: tail))
                      after_key ("="%char :: tail)
                      [(1%nat,
                        take (length (a :: pre ++ (b :: sp) ++ "="%char :: tail)
                              - length ("="%char :: tail))
                          (a :: pre ++ (b :: sp) ++ "="%char :: tail))] accept
                    = None).
    { apply Hlonger. constructor; [by apply space_not_equals|].
      eapply Forall_impl; [exact Hsp|]. apply space_not_equals. }
    assert (Hsome : is_Some (@None (list ascii * captures)));
      [|by destruct Hsome].
    rewrite <- Hnone. apply after_key_some. exists [], tail.
    split; [done|]. split; [done|].
    eapply after_equals_groups, Htail.
Qed.

(** Every key of every section is the text before the first equals sign
    of some line satisfying [P]. *)
Definition key_of_line (P : string → Prop) (key : string) : Prop :=
  ∃ line rest,
    P line ∧ Js.trim line = key +:+ "=" +:+ rest
    ∧ some_of not_equals key = true.

Definition keys_from (P : string → Prop)
    (sections : gmap string (gmap string Value)) : Prop :=
  ∀ name section key,
    sections !! name = Some section → is_Some (section !! key) →
    key_of_line P key.

Lemma git_step_keys P line s s' :
  P line → Git.step line s = Some s' →
  keys_from P (Git.s_sections s) → keys_from P (Git.s_sections s').
Proof.
  intros HP H Hs. unfold Git.step in H.
  destruct (negb (Js.truthy (Js.trim line))); [by simplify_eq|].
  destruct (Js.startsWith (Js.trim line) "#"); [by simplify_eq|].
  destruct (Re.exec Git.sectionRe _) as [m|].
  { destruct (group 1 m) as [header|]; [|by simplify_eq].
    simplify_eq. simpl. unfold Git.ensure_section.
    destruct (Git.s_sections s !! header) eqn:E; [done|].
    destruct (inherited header); [done|].
    intros name section key Hn Hk.
    apply lookup_insert_Some in Hn as [[_ <-]|[_ Hn]]; [|by eapply Hs].
    by apply lookup_empty_is_Some in Hk. }
  destruct (Re.exec Git.kvRe _) as [m|] eqn:Ekv; [|by simplify_eq].
  destruct (Js.truthy (Git.s_currentSection s)); [|by simplify_eq].
  destruct (group 1 m) as [key|] eqn:G1; [|by simplify_eq].
  destruct (group 2 m) as [value|]; [|by simplify_eq].
  destruct (Git.s_sections s !! Git.s_currentSection s) as [section|] eqn:E;
    [|done].
  simplify_eq. simpl. intros name sec k Hn Hk.
  apply lookup_insert_Some in Hn as [[_ <-]|[_ Hn]]; [|by eapply Hs].
  revert k Hk. apply obj_set_is_Some.
  - destruct (kvRe_key _ _ _ Ekv G1) as (rest & Hline & Hkey).
    by exists line, rest.
  - intros k Hk. by eapply Hs.
Qed.

Lemma git_run_keys P lines : ∀ s s',
  Forall P lines → Git.run_lines lines s = Some s' →
  keys_from P (Git.s_sections s) → keys_from P (Git.s_sections s').
Proof.
  induction lines as [|l ls IH]; intros s s' HP H Hs; simpl in H.
  - by simplify_eq.
  - apply Forall_cons in HP as [Hl Hls].
    destruct (Git.step l s) as [s1|] eqn:E; [|done].
    eapply IH; [done|exact H|]. by eapply git_step_keys.
Qed.

(** X29.  The git parser records a setting under the whole text that
    precedes the first equals sign of its trimmed line: blanks between the
    name and the sign belong to the key.  Every key of every section of a
    parse is non-empty, has no equals sign and is followed at once by the
    equals sign in a line of the file. *)
Theorem git_keys_reach_to_the_equals_sign
    (config : DotfileConfig) (pc : ParsedConfig)
    (name : string) (section : gmap string Value) (key : string) :
  parse GitParser config = Done (Ok pc) →
  git_sections (data pc) !! name = Some section →
  is_Some (section !! key) →
  ∃ line rest,
    line ∈ Js.lines (content config)
    ∧ Js.trim line = key +:+ "=" +:+ rest
    ∧ some_of not_equals key = true.
Proof.
  simpl. unfold Git.parse. intros H.
  destruct (Git.run_lines _ _) as [s|] eqn:E; [|done].
  simpl in H. simplify_eq. simpl.
  apply (git_run_keys (λ line, line ∈ Js.lines (content config)) _ _ _
           ltac:(by apply list.Forall_forall) E).
  intros n sec k Hn. unfold Git.init in Hn. cbn [Git.s_sections] in Hn.
  by apply lookup_empty_Some in Hn.
Qed.

End GitKeys.

(** The alias [co] is stored under the key [co] followed by a blank. *)
Lemma git_keys_reach_to_the_equals_sign_witness :
  ∃ line rest,
    line ∈ Js.lines aliases_gitconfig
    ∧ Js.trim line = "co " +:+ "=" +:+ rest
    ∧ some_of not_equals "co " = true.
Proof.
  apply (git_keys_reach_to_the_equals_sign (git_config_of aliases_gitconfig)
           aliases_parsed "alias" (git_aliases (Parsers.data aliases_parsed))
           "co ").
  - by vm_compute.
  - by vm_compute.
  - exists (Parsers.VStr "checkout"). by vm_compute.
Defined.
